(** * regex.py: a regular expression parser and matcher

    A shallow embedding of [src/regex.py] and the properties of its three
    stages: [infix_to_postfix], [parse_regex] (with
    [RegexGraphFragment.set_out]) and the simulator [add_state], [step],
    [match_str].

    Conventions of the embedding.
    - A Python character is an 8-bit [ascii]; a Python string that is
      scanned by index is a [list ascii] ([list_ascii_of_string] at the
      boundary).
    - [RegexGraphState] objects live in a store, a [list] indexed by
      allocation order; a reference to an object is its index ([ref]).
      The field [_state_id] is kept as a field, filled from the
      class-level counter exactly as [__init__] does; [__eq__] and
      [__hash__] read that field, so the simulator's sets compare
      [_state_id]s, not references.
    - A Python list used as a stack ([operators], [leaf_stack]) is a Rocq
      list whose head is the top ([append] is cons, [pop] removes the
      head); a list that is only appended to and read in order ([output],
      [out], [out_states]) keeps Python's order.
    - A Python [set] is the list of its elements in insertion order; the
      order in which a [for] loop visits a set is a parameter [ord] of the
      simulator.
    - Python's bounded call stack is a parameter [depth] of the two
      recursive functions, [add_state] and [infix_to_postfix]
      ([infix_to_postfix_within]): a call that would nest deeper raises
      [RecursionError].  The budget is kept abstract; no number is
      claimed to be the limit of a given interpreter. *)

From Stdlib Require Import Ascii String.
From stdpp Require Import list.

Local Open Scope char_scope.
Local Open Scope list_scope.

(** ** Exceptions and results *)

Inductive exn : Type :=
| IndexError      (* pop from empty list *)
| Exception       (* the bare [raise Exception()] of parse_regex *)
| RecursionError. (* maximum recursion depth exceeded *)

Inductive result (A : Type) : Type :=
| Ok (a : A)
| Raise (e : exn).
Arguments Ok {A} a.
Arguments Raise {A} e.

Definition result_bind {A B} (r : result A) (k : A -> result B) : result B :=
  match r with
  | Ok a => k a
  | Raise e => Raise e
  end.

(** [for x in l: acc = f x acc], stopping at the first exception. *)
Fixpoint for_each {A B} (f : B -> A -> result A) (l : list B) (acc : A)
  : result A :=
  match l with
  | [] => Ok acc
  | x :: l' => result_bind (f x acc) (for_each f l')
  end.

(** ** Stage 1: infix_to_postfix *)

(** The dictionary [op_precedence]; [None] stands for a missing key. *)
Definition op_precedence (ch : ascii) : option nat :=
  if Ascii.eqb ch "|" then Some 0
  else if Ascii.eqb ch "." then Some 1
  else if Ascii.eqb ch "?" then Some 2
  else if Ascii.eqb ch "+" then Some 2
  else if Ascii.eqb ch "*" then Some 2
  else None.

(** [char in op_precedence] *)
Definition in_op_precedence (ch : ascii) : bool :=
  match op_precedence ch with
  | Some _ => true
  | None => false
  end.

(** The closure [add_operator(op)], acting on the enclosing [output] and
    [operators].  The early return on an empty stack and the exit of the
    [while] loop on an empty stack both end in [operators.append(op)].
    Only keys of [op_precedence] are ever passed or pushed, so the two
    dictionary reads succeed; the last branch is not reachable. *)
Fixpoint add_operator (op : ascii) (output operators : list ascii)
  : list ascii * list ascii :=
  match operators with
  | [] => (output, [op])
  | last_operator :: rest =>
      match op_precedence op, op_precedence last_operator with
      | Some p, Some q =>
          if Nat.ltb p q
          then add_operator op (output ++ [last_operator]) rest
          else (output, op :: operators)
      | _, _ => (output, op :: operators)
      end
  end.

(** [while len(operators) > 0: output.append(operators.pop())] *)
Definition flush (output operators : list ascii) : list ascii :=
  output ++ operators.

(** [i > 0 and regex_str[i-1] not in op_precedence] *)
Definition prev_is_operand (regex_str : list ascii) (i : nat) : bool :=
  match i with
  | 0 => false
  | S j =>
      match regex_str !! j with
      | Some prev => negb (in_op_precedence prev)
      | None => false
      end
  end.

Definition add_concat (regex_str : list ascii) (i : nat)
    (output operators : list ascii) : list ascii * list ascii :=
  if prev_is_operand regex_str i
  then add_operator "." output operators
  else (output, operators).

(** The [while i < len(regex_str)] loop of [infix_to_postfix], entered at
    index [i] with the current [output] and [operators].  The recursive
    call [infix_to_postfix(regex_str[i+1:])] is the same loop started at
    index [0] on the suffix with empty stacks.  [fuel] bounds the nesting
    of iterations and calls; [None] means the fuel ran out, which
    [infix_loop_total] shows does not happen from [S (length regex_str)]. *)
Fixpoint infix_loop (fuel : nat) (regex_str : list ascii) (i : nat)
    (output operators : list ascii) : option (list ascii) :=
  match fuel with
  | 0 => None
  | S fuel' =>
      match regex_str !! i with
      | None => Some (flush output operators)
      | Some char =>
          if in_op_precedence char then
            let '(output, operators) := add_operator char output operators in
            infix_loop fuel' regex_str (i + 1) output operators
          else if Ascii.eqb char "(" then
            let '(output, operators) :=
              add_concat regex_str i output operators in
            match infix_loop fuel' (drop (i + 1) regex_str) 0 [] [] with
            | None => None
            | Some sub_expr =>
                infix_loop fuel' regex_str (i + length sub_expr + 1)
                  (output ++ sub_expr) operators
            end
          else if Ascii.eqb char ")" then
            Some (flush output operators)
          else
            let '(output, operators) :=
              add_concat regex_str i output operators in
            infix_loop fuel' regex_str (i + 1) (output ++ [char]) operators
      end
  end.

Definition infix_to_postfix_chars (regex_str : list ascii) : list ascii :=
  match infix_loop (S (length regex_str)) regex_str 0 [] [] with
  | Some output => output
  | None => []
  end.

Definition infix_to_postfix (regex_str : string) : list ascii :=
  infix_to_postfix_chars (list_ascii_of_string regex_str).

(** *** The converter on a bounded call stack

    [infix_to_postfix] above is the list the call returns when the call
    stack has room for it.  The calls themselves are modelled here:
    [infix_to_postfix] calls itself once for every opening parenthesis it
    enters, and it calls its closure [add_operator]; [depth] is the
    number of frames that are still free, and a call made when none is
    free raises [RecursionError].  The builtins ([len], [append], [pop],
    the dictionary reads) take no frame. *)

(** The call [add_operator(op)], made when [depth] frames are free. *)
Definition call_add_operator (depth : nat) (op : ascii)
    (output operators : list ascii) : result (list ascii * list ascii) :=
  match depth with
  | 0 => Raise RecursionError
  | S _ => Ok (add_operator op output operators)
  end.

Definition call_add_concat (depth : nat) (regex_str : list ascii) (i : nat)
    (output operators : list ascii) : result (list ascii * list ascii) :=
  if prev_is_operand regex_str i
  then call_add_operator depth "." output operators
  else Ok (output, operators).

(** The loop of [infix_to_postfix], running in a frame above which
    [depth] frames are free.  [fuel] plays the part it plays in
    [infix_loop]. *)
Fixpoint infix_loop_within (fuel depth : nat) (regex_str : list ascii)
    (i : nat) (output operators : list ascii)
  : option (result (list ascii)) :=
  match fuel with
  | 0 => None
  | S fuel' =>
      match regex_str !! i with
      | None => Some (Ok (flush output operators))
      | Some char =>
          if in_op_precedence char then
            match call_add_operator depth char output operators with
            | Raise e => Some (Raise e)
            | Ok (output, operators) =>
                infix_loop_within fuel' depth regex_str (i + 1)
                  output operators
            end
          else if Ascii.eqb char "(" then
            match call_add_concat depth regex_str i output operators with
            | Raise e => Some (Raise e)
            | Ok (output, operators) =>
                match depth with
                | 0 => Some (Raise RecursionError)
                | S depth' =>
                    match infix_loop_within fuel' depth'
                            (drop (i + 1) regex_str) 0 [] [] with
                    | None => None
                    | Some (Raise e) => Some (Raise e)
                    | Some (Ok sub_expr) =>
                        infix_loop_within fuel' depth regex_str
                          (i + length sub_expr + 1)
                          (output ++ sub_expr) operators
                    end
                end
            end
          else if Ascii.eqb char ")" then
            Some (Ok (flush output operators))
          else
            match call_add_concat depth regex_str i output operators with
            | Raise e => Some (Raise e)
            | Ok (output, operators) =>
                infix_loop_within fuel' depth regex_str (i + 1)
                  (output ++ [char]) operators
            end
      end
  end.

(** The call [infix_to_postfix(regex_str)], made when [depth] frames are
    free: the call takes one of them.  The default for exhausted fuel is
    never taken ([infix_loop_within_total]). *)
Definition infix_to_postfix_within (depth : nat) (regex_str : string)
  : result (list ascii) :=
  match depth with
  | 0 => Raise RecursionError
  | S depth' =>
      let regex_chars := list_ascii_of_string regex_str in
      match infix_loop_within (S (length regex_chars)) depth'
              regex_chars 0 [] [] with
      | Some r => r
      | None => Ok []
      end
  end.

Local Open Scope string_scope.

(** ** The object store *)

(** A reference to an object: its index in the store. *)
Abbreviation ref := nat (only parsing).

(** class RegexGraphState: the field [c] is a one-character string for a
    literal state, or one of the sentinels [_SPLIT], [_MATCH]. *)
Record RegexGraphState : Type := mkState {
  c : string;
  out : list ref;
  _state_id : nat
}.

Definition _SPLIT : string := "SPLIT".
Definition _MATCH : string := "MATCH".

(** class RegexGraphFragment *)
Record RegexGraphFragment : Type := mkFragment {
  start : ref;
  out_states : list ref
}.

(** The mutable world of the builder: the class attribute
    [RegexGraphState._state_id] and the objects allocated so far. *)
Record world : Type := mkWorld {
  next_state_id : nat;
  store : list RegexGraphState
}.

(** A computation that reads and writes the world and may raise. *)
Definition M (A : Type) : Type := world -> result (A * world).

Definition ret {A} (a : A) : M A := fun w => Ok (a, w).
Definition raise {A} (e : exn) : M A := fun _ => Raise e.
Definition bind {A B} (m : M A) (k : A -> M B) : M B :=
  fun w =>
    match m w with
    | Ok (a, w') => k a w'
    | Raise e => Raise e
    end.

Declare Scope builder_scope.
Delimit Scope builder_scope with M.
Notation "x <- m ;; k" := (bind m (fun x => k))
  (at level 20, m at level 99, k at level 200) : builder_scope.
Notation "' p <- m ;; k" := (bind m (fun x => match x with p => k end))
  (at level 20, p pattern, m at level 99, k at level 200)
  : builder_scope.
Notation "m ;; k" := (bind m (fun _ => k))
  (at level 100, k at level 200, right associativity) : builder_scope.
Local Open Scope builder_scope.

(** [RegexGraphState(c, out)]: [__init__] stores the arguments, copies the
    class counter into the object and increments the counter. *)
Definition new_state (c0 : string) (out0 : list ref) : M ref :=
  fun w =>
    Ok (length (store w),
        mkWorld (S (next_state_id w))
                (store w ++ [mkState c0 out0 (next_state_id w)])).

(** [state.out.clear()] and [state.out.append(x)] on the object behind a
    reference.  References handed out by [new_state] are always inside
    the store; [alter] leaves the store alone otherwise. *)
Definition out_clear (state : ref) (h : list RegexGraphState)
  : list RegexGraphState :=
  alter (fun st => mkState (c st) [] (_state_id st)) state h.

Definition out_append (state x : ref) (h : list RegexGraphState)
  : list RegexGraphState :=
  alter (fun st => mkState (c st) (out st ++ [x]) (_state_id st)) state h.

(** [RegexGraphFragment.set_out]; the [isinstance] test cannot fail on a
    value of type [RegexGraphFragment]. *)
Definition set_out_store (self next_frag : RegexGraphFragment)
    (h : list RegexGraphState) : list RegexGraphState :=
  foldl (fun h state => out_append state (start next_frag) (out_clear state h))
        h (out_states self).

Definition set_out (self next_frag : RegexGraphFragment) : M unit :=
  fun w =>
    Ok (tt, mkWorld (next_state_id w) (set_out_store self next_frag (store w))).

(** ** Stage 2: parse_regex *)

(** [leaf_stack.pop()] *)
Definition pop (leaf_stack : list RegexGraphFragment)
  : M (RegexGraphFragment * list RegexGraphFragment) :=
  match leaf_stack with
  | [] => raise IndexError
  | f :: rest => ret (f, rest)
  end.

(** [char in operators], the set of the five operator characters *)
Definition in_operators (ch : ascii) : bool :=
  (Ascii.eqb ch "." || Ascii.eqb ch "|" || Ascii.eqb ch "*"
   || Ascii.eqb ch "?" || Ascii.eqb ch "+")%char.

(** One iteration of the [while i < len(postfix_str)] loop. *)
Definition parse_token (char : ascii) (leaf_stack : list RegexGraphFragment)
  : M (list RegexGraphFragment) :=
  if in_operators char then
    if Ascii.eqb char "." then
      '(f2, leaf_stack) <- pop leaf_stack;;
      '(f1, leaf_stack) <- pop leaf_stack;;
      set_out f1 f2;;
      let concatenated := mkFragment (start f1) (out_states f2) in
      ret (concatenated :: leaf_stack)
    else if Ascii.eqb char "+" then
      '(f, leaf_stack) <- pop leaf_stack;;
      split <- new_state _SPLIT [start f];;
      let add_frag := mkFragment (start f) [split] in
      ret (add_frag :: leaf_stack)
    else if Ascii.eqb char "?" then
      '(f, leaf_stack) <- pop leaf_stack;;
      split <- new_state _SPLIT [start f];;
      let check_frag := mkFragment split ([split] ++ out_states f) in
      ret (check_frag :: leaf_stack)
    else if Ascii.eqb char "*" then
      '(f, leaf_stack) <- pop leaf_stack;;
      split <- new_state _SPLIT [start f];;
      let any_frag := mkFragment split [split] in
      set_out f any_frag;;
      ret (any_frag :: leaf_stack)
    else if Ascii.eqb char "|" then
      '(f2, leaf_stack) <- pop leaf_stack;;
      '(f1, leaf_stack) <- pop leaf_stack;;
      split <- new_state _SPLIT [start f1; start f2];;
      let or_frag := mkFragment split (out_states f1 ++ out_states f2) in
      ret (or_frag :: leaf_stack)
    else ret leaf_stack
  else
    s <- new_state (String char EmptyString) [];;
    ret (mkFragment s [s] :: leaf_stack).

Fixpoint parse_tokens (postfix_str : list ascii)
    (leaf_stack : list RegexGraphFragment) : M (list RegexGraphFragment) :=
  match postfix_str with
  | [] => ret leaf_stack
  | char :: rest =>
      leaf_stack <- parse_token char leaf_stack;;
      parse_tokens rest leaf_stack
  end.

(** The part of [parse_regex] after the postfix string is known. *)
Definition parse_postfix (postfix_str : list ascii) : M ref :=
  leaf_stack <- parse_tokens postfix_str [];;
  if negb (length leaf_stack =? 1)%nat then raise Exception
  else
    matching_state <- new_state _MATCH [];;
    let matching_state_frag := mkFragment matching_state [] in
    '(graph_frag, _) <- pop leaf_stack;;
    set_out graph_frag matching_state_frag;;
    ret (start graph_frag).

Definition parse_regex (regex_str : string) : M ref :=
  parse_postfix (infix_to_postfix regex_str).

(** The world in which a call starts: the counter has some value [n0]
    and none of the objects of earlier calls is reachable. *)
Definition init_world (n0 : nat) : world := mkWorld n0 [].

(** ** Stage 3: the simulator *)

(** Field reads through a reference.  The builder only hands out
    references to allocated objects ([parse_regex_closed],
    [add_state_closed]); outside the store a read gives the neutral
    value, so such a reference would behave like an object that is no
    split, no match, matches no character and equals nothing. *)
Definition get_c (h : list RegexGraphState) (state : ref) : string :=
  from_option c EmptyString (h !! state).

Definition get_out (h : list RegexGraphState) (state : ref) : list ref :=
  from_option out [] (h !! state).

(** [RegexGraphState.__eq__] (and [__hash__]): equality of [_state_id]. *)
Definition state_eq (h : list RegexGraphState) (r1 r2 : ref) : bool :=
  match h !! r1, h !! r2 with
  | Some a, Some b => Nat.eqb (_state_id a) (_state_id b)
  | _, _ => false
  end.

(** [next_states.add(state)] on a set kept in insertion order. *)
Definition set_add (h : list RegexGraphState) (state : ref)
    (next_states : list ref) : list ref :=
  if existsb (state_eq h state) next_states
  then next_states
  else next_states ++ [state].

(** [add_state(state, next_states)].  [depth] is the number of nested
    calls the interpreter still allows. *)
Fixpoint add_state (depth : nat) (h : list RegexGraphState) (state : ref)
    (next_states : list ref) : result (list ref) :=
  match depth with
  | 0 => Raise RecursionError
  | S depth' =>
      if String.eqb (get_c h state) _SPLIT then
        let out_states := get_out h state in
        for_each (add_state depth' h) out_states next_states
      else Ok (set_add h state next_states)
  end.

(** [step(states, char)]; [ord states] is the order in which the [for]
    loop visits the set. *)
Definition step (depth : nat) (ord : list ref -> list ref)
    (h : list RegexGraphState) (states : list ref) (char : ascii)
  : result (list ref) :=
  for_each
    (fun s next_states =>
       if String.eqb (get_c h s) (String char EmptyString)
       then for_each (add_state depth h) (get_out h s) next_states
       else Ok next_states)
    (ord states) [].

(** The part of [match_str] that runs on the compiled graph. *)
Definition run (depth : nat) (ord : list ref -> list ref)
    (h : list RegexGraphState) (regex_graph : ref) (input_str : list ascii)
  : result bool :=
  result_bind (add_state depth h regex_graph []) (fun current_states =>
  result_bind
    (for_each (fun char states => step depth ord h states char)
              input_str current_states) (fun current_states =>
  Ok (existsb (fun s => String.eqb (get_c h s) _MATCH) (ord current_states)))).

(** [match_str(input_str, regex_str)], called when the class counter is
    [n0], with call-stack budget [depth] and set iteration order [ord]. *)
Definition match_str (depth : nat) (ord : list ref -> list ref) (n0 : nat)
    (input_str regex_str : string) : result bool :=
  match parse_regex regex_str (init_world n0) with
  | Raise e => Raise e
  | Ok (regex_graph, w) =>
      run depth ord (store w) regex_graph (list_ascii_of_string input_str)
  end.

(** [match_str] with the converter on a bounded call stack as well:
    [frames] frames are free when [parse_regex] calls [infix_to_postfix],
    and [depth] nested calls of [add_state] are allowed afterwards.  The
    two budgets are separate parameters, so that nothing is assumed about
    the frames in use at either moment. *)
Definition match_str_within (frames depth : nat)
    (ord : list ref -> list ref) (n0 : nat) (input_str regex_str : string)
  : result bool :=
  match infix_to_postfix_within frames regex_str with
  | Raise e => Raise e
  | Ok postfix_str =>
      match parse_postfix postfix_str (init_world n0) with
      | Raise e => Raise e
      | Ok (regex_graph, w) =>
          run depth ord (store w) regex_graph (list_ascii_of_string input_str)
      end
  end.

(** A fixed configuration for closed evaluations: the class counter is
    [0], sets are visited in insertion order, and [add_state] may nest
    [1000] calls.  The number is a value of the parameter [depth] and not
    the limit of an interpreter: the frames of the caller, of
    [match_str], of [step] and of [__hash__] are not counted in it.  A
    boolean obtained in this configuration is the result for every larger
    budget ([match_str_depth_mono]), and the evaluations that raise here
    raise in the builder, for every budget. *)
Definition insertion_order (l : list ref) : list ref := l.
Definition py_match_str : string -> string -> result bool :=
  match_str 1000 insertion_order 0.

(** * Vocabulary of the properties *)

Local Open Scope list_scope.

(** None of the characters [| * + ? ( ) .] *)
Definition is_operator_char (ch : ascii) : bool :=
  in_op_precedence ch || Ascii.eqb ch "(" || Ascii.eqb ch ")".

Definition literal_chars (s : list ascii) : Prop :=
  Forall (fun ch => is_operator_char ch = false) s.

(** The objects built for a literal string [cs], allocated from index
    [k] with ids from [id]: each points to the next one, the last one
    has [out = last_out]. *)
Fixpoint chain_cells (last_out : list ref) (k id : nat) (cs : list ascii)
  : list RegexGraphState :=
  match cs with
  | [] => []
  | ch :: rest =>
      mkState (String ch EmptyString)
              (match rest with [] => last_out | _ :: _ => [S k] end) id
      :: chain_cells last_out (S k) (S id) rest
  end.

(** The store and start state [parse_regex] builds for a literal
    string. *)
Definition chain_store (n0 : nat) (cs : list ascii) : list RegexGraphState :=
  chain_cells [length cs] 0 n0 cs ++ [mkState _MATCH [] (n0 + length cs)].

(** [ord] visits every element of the set once. *)
Definition iteration_order (ord : list ref -> list ref) : Prop :=
  forall l, ord l ≡ₚ l.

#[local] Instance ascii_eq_dec : EqDecision ascii := Ascii.ascii_dec.

(** The same object with its id moved by [d]. *)
Definition bump (d : nat) (st : RegexGraphState) : RegexGraphState :=
  mkState (c st) (out st) (_state_id st + d).

Definition bump_world (d : nat) (w : world) : world :=
  mkWorld (next_state_id w + d) (bump d <$> store w).

(** A computation that does the same from a world whose counter and
    ids are moved by [d], and leaves a world moved by [d]. *)
Definition shift_invariant {A} (m : M A) : Prop :=
  forall (d : nat) (w : world),
    m (bump_world d w)
    = match m w with
      | Ok (a, w') => Ok (a, bump_world d w')
      | Raise e => Raise e
      end.

(** From counter [0] the id of an object is its index in the store. *)
Definition ids_by_index (w : world) : Prop :=
  next_state_id w = length (store w) /\
  _state_id <$> store w = seq 0 (length (store w)).

Definition preserves_ids {A} (m : M A) : Prop :=
  forall (w : world) (a : A) (w' : world),
    ids_by_index w -> m w = Ok (a, w') -> ids_by_index w'.

(** What [add_state] adds, in order: the non-split states reached from
    [state] through split states. *)
Fixpoint collect {B} (g : B -> result (list ref)) (l : list B)
  : result (list ref) :=
  match l with
  | [] => Ok []
  | x :: l' =>
      result_bind (g x) (fun a =>
      result_bind (collect g l') (fun b => Ok (a ++ b)))
  end.

Fixpoint closure (depth : nat) (h : list RegexGraphState) (state : ref)
  : result (list ref) :=
  match depth with
  | 0 => Raise RecursionError
  | S depth' =>
      if String.eqb (get_c h state) _SPLIT
      then collect (closure depth' h) (get_out h state)
      else Ok [state]
  end.

(** Two results that agree up to the order of the elements. *)
Definition result_perm (r1 r2 : result (list ref)) : Prop :=
  match r1, r2 with
  | Ok a, Ok b => a ≡ₚ b
  | Raise e1, Raise e2 => e1 = e2
  | _, _ => False
  end.

Definition only_recursion_error {A} (r : result A) : Prop :=
  forall e, r = Raise e -> e = RecursionError.

(** [for s in l: acc.add(s)] *)
Definition add_all (h : list RegexGraphState) (l acc : list ref) : list ref :=
  foldl (fun acc s => set_add h s acc) acc l.

(** The states a character step adds on behalf of [s]. *)
Definition targets (h : list RegexGraphState) (depth : nat) (char : ascii)
    (s : ref) : result (list ref) :=
  if String.eqb (get_c h s) (String char EmptyString)
  then collect (closure depth h) (get_out h s)
  else Ok [].

(** Every edge out of a split state leads to a state of smaller rank:
    no cycle runs through split states only. *)
Definition split_edges_decrease (h : list RegexGraphState)
    (rank : ref -> nat) : Prop :=
  forall state o,
    String.eqb (get_c h state) _SPLIT = true ->
    In o (get_out h state) ->
    rank o < rank state.

(** The store built for the pattern a+** : the split states 1 and 2
    point at each other. *)
Definition split_cycle_store : list RegexGraphState :=
  [ mkState "a" [1] 0; mkState _SPLIT [2] 1; mkState _SPLIT [1] 2;
    mkState _SPLIT [4] 3; mkState _MATCH [] 4 ].

(** The store built for the pattern a* (and for a nested star in
    parentheses, whose postfix form is the same). *)
Definition star_store : list RegexGraphState :=
  [ mkState "a" [1] 0; mkState _SPLIT [2] 1; mkState _MATCH [] 2 ].

(** Every reference stored in an object, or held by a fragment, points
    into the store. *)
Definition closed_store (h : list RegexGraphState) : Prop :=
  forall k st, h !! k = Some st -> Forall (fun o => o < length h) (out st).

Definition valid_fragment (h : list RegexGraphState)
    (f : RegexGraphFragment) : Prop :=
  start f < length h /\ Forall (fun r => r < length h) (out_states f).

Definition builder_invariant (leaf_stack : list RegexGraphFragment)
    (w : world) : Prop :=
  closed_store (store w) /\ Forall (valid_fragment (store w)) leaf_stack.

(** An operator of strictly higher precedence than [p]. *)
Definition higher_precedence (p : nat) (o : ascii) : bool :=
  match op_precedence o with
  | Some q => Nat.ltb p q
  | None => false
  end.

(** A character that is no key of [op_precedence]. *)
Definition operand (ch : ascii) : bool := negb (in_op_precedence ch).

Definition is_paren (ch : ascii) : bool :=
  Ascii.eqb ch "(" || Ascii.eqb ch ")".

Definition not_concat (ch : ascii) : bool := negb (Ascii.eqb ch ".").

(** The effect of one postfix token on the height of [leaf_stack]:
    an operand pushes, a quantifier needs one fragment, concatenation
    and alternation need two and leave one; [None] is a [pop] from the
    empty list. *)
Definition token_effect (char : ascii) (n : nat) : option nat :=
  if in_operators char then
    if Ascii.eqb char "." then
      match n with S (S m) => Some (S m) | _ => None end
    else if Ascii.eqb char "+" then
      match n with S m => Some (S m) | 0 => None end
    else if Ascii.eqb char "?" then
      match n with S m => Some (S m) | 0 => None end
    else if Ascii.eqb char "*" then
      match n with S m => Some (S m) | 0 => None end
    else if Ascii.eqb char "|" then
      match n with S (S m) => Some (S m) | _ => None end
    else Some n
  else Some (S n).

Fixpoint stack_height (postfix_str : list ascii) (n : nat) : option nat :=
  match postfix_str with
  | [] => Some n
  | char :: rest =>
      match token_effect char n with
      | Some n' => stack_height rest n'
      | None => None
      end
  end.

(** What [set_out] leaves in an output slot. *)
Definition connected (x : ref) (st : RegexGraphState) : RegexGraphState :=
  mkState (c st) [x] (_state_id st).

(** A computation that keeps a property of every object of the store. *)
Definition keeps_states (P : RegexGraphState -> Prop) {A} (m : M A) : Prop :=
  forall (w : world) (a : A) (w' : world),
    Forall P (store w) -> m w = Ok (a, w') -> Forall P (store w').

(** An object the builder makes before the match state: no match state,
    at most two edges, and at most one edge unless it is a split. *)
Definition built_state (st : RegexGraphState) : Prop :=
  c st <> _MATCH /\ length (out st) <= 2 /\
  (c st <> _SPLIT -> length (out st) <= 1).

(** Distinct objects of the store have distinct ids. *)
Definition distinct_ids (h : list RegexGraphState) : Prop :=
  forall k k' a b,
    h !! k = Some a -> h !! k' = Some b -> _state_id a = _state_id b -> k = k'.

(** The graph read as an automaton: [eps_closure h s t] when the
    non-split state [t] is reached from [s] through split states only. *)
Inductive eps_closure (h : list RegexGraphState) : ref -> ref -> Prop :=
| eps_here (state : ref) :
    String.eqb (get_c h state) _SPLIT = false ->
    eps_closure h state state
| eps_step (state o t : ref) :
    String.eqb (get_c h state) _SPLIT = true ->
    In o (get_out h state) ->
    eps_closure h o t ->
    eps_closure h state t.

(** [accepts h state input]: from the non-split state [state] the
    input can be consumed, one edge per character, ending in the match
    state. *)
Fixpoint accepts (h : list RegexGraphState) (state : ref)
    (input_str : list ascii) : Prop :=
  match input_str with
  | [] => get_c h state = _MATCH
  | char :: rest =>
      get_c h state = String char EmptyString /\
      exists o t,
        In o (get_out h state) /\ eps_closure h o t /\ accepts h t rest
  end.

Definition nfa_accepts (h : list RegexGraphState) (regex_graph : ref)
    (input_str : list ascii) : Prop :=
  exists t, eps_closure h regex_graph t /\ accepts h t input_str.

(** The character field of an object made for the postfix string
    [postfix_str]: the split sentinel, or an operand of the string. *)
Definition state_from (postfix_str : list ascii) (st : RegexGraphState)
  : Prop :=
  c st = _SPLIT \/
  exists char, c st = String char EmptyString /\ In char postfix_str /\
               in_operators char = false.

(** One iteration of the loop of [infix_to_postfix] on a character that
    is no parenthesis, as a function of the previous character and the
    two stacks. *)
Definition scan (state : option ascii * list ascii * list ascii)
    (char : ascii) : option ascii * list ascii * list ascii :=
  let '(prev, output, operators) := state in
  if in_op_precedence char then
    let '(output, operators) := add_operator char output operators in
    (Some char, output, operators)
  else
    let '(output, operators) :=
      if match prev with
         | Some p => negb (in_op_precedence p)
         | None => false
         end
      then add_operator "." output operators
      else (output, operators) in
    (Some char, output ++ [char], operators).

(** [regex_str[i-1]], when [i > 0] *)
Definition prev_at (regex_str : list ascii) (i : nat) : option ascii :=
  match i with
  | 0 => None
  | S j => regex_str !! j
  end.

(** The words [ws] separated by the alternation operator. *)
Fixpoint join_words (ws : list (list ascii)) : list ascii :=
  match ws with
  | [] => []
  | w :: ws' =>
      match ws' with
      | [] => w
      | _ :: _ => w ++ "|"%char :: join_words ws'
      end
  end.

(** The postfix form of a literal word, and of an alternation of
    literal words. *)
Definition literal_postfix (w : list ascii) : list ascii :=
  w ++ replicate (length w - 1) "."%char.

Fixpoint alt_postfix (ws : list (list ascii)) : list ascii :=
  match ws with
  | [] => []
  | w :: ws' =>
      match ws' with
      | [] => literal_postfix w
      | _ :: _ => literal_postfix w ++ alt_postfix ws' ++ ["|"%char]
      end
  end.

(** A non-empty list of non-empty words without operator characters. *)
Definition literal_words (ws : list (list ascii)) : Prop :=
  ws <> [] /\ Forall (fun w => w <> [] /\ literal_chars w) ws.

(** The objects built for an alternation of literal words, allocated
    from index [k] with ids from [id]: a chain for the first word, the
    objects of the remaining words, then the split state that joins
    them.  [alt_size] counts them, [alt_start] is the start state and
    [alt_outs] are the output slots (the last object of each chain). *)
Fixpoint alt_size (ws : list (list ascii)) : nat :=
  match ws with
  | [] => 0
  | w :: ws' =>
      match ws' with
      | [] => length w
      | _ :: _ => length w + alt_size ws' + 1
      end
  end.

Definition alt_start (k : nat) (ws : list (list ascii)) : ref :=
  match ws with
  | [] => k
  | w :: ws' =>
      match ws' with
      | [] => k
      | _ :: _ => k + length w + alt_size ws'
      end
  end.

Fixpoint alt_outs (k : nat) (ws : list (list ascii)) : list ref :=
  match ws with
  | [] => []
  | w :: ws' =>
      match ws' with
      | [] => [k + (length w - 1)]
      | _ :: _ => [k + (length w - 1)] ++ alt_outs (k + length w) ws'
      end
  end.

Fixpoint alt_cells (last_out : list ref) (k id : nat)
    (ws : list (list ascii)) : list RegexGraphState :=
  match ws with
  | [] => []
  | w :: ws' =>
      match ws' with
      | [] => chain_cells last_out k id w
      | _ :: _ =>
          chain_cells last_out k id w
          ++ alt_cells last_out (k + length w) (id + length w) ws'
          ++ [mkState _SPLIT [k; alt_start (k + length w) ws']
                      (id + length w + alt_size ws')]
      end
  end.

(** The objects from index [k] spell the word [w], each pointing to the
    next one and the last one to [m]. *)
Definition chain_at (h : list RegexGraphState) (k m : ref) (w : list ascii)
  : Prop :=
  forall j ch,
    w !! j = Some ch ->
    get_c h (k + j) = String ch EmptyString /\
    get_out h (k + j) = if decide (S j = length w) then [m] else [S (k + j)].

(** The number of opening parentheses of a pattern: a bound on the
    nesting of the calls of [infix_to_postfix], which calls itself once
    for each opening parenthesis it enters. *)
Fixpoint count_open (regex_str : list ascii) : nat :=
  match regex_str with
  | [] => 0
  | ch :: rest =>
      (if Ascii.eqb ch "("%char then 1 else 0) + count_open rest
  end.

(** [n] opening parentheses in front of a pattern *)
Definition open_parens (n : nat) (regex_str : string) : string :=
  Nat.iter n (String "("%char) regex_str.

(** Three words, for the pattern ab|c|de. *)
Definition sample_words : list (list ascii) :=
  [list_ascii_of_string "ab"; list_ascii_of_string "c";
   list_ascii_of_string "de"].

(** * Properties *)

(** ** The loop of the converter ends *)

Lemma infix_loop_total (fuel : nat) :
  forall (regex_str : list ascii) (i : nat) (output operators : list ascii),
    length regex_str - i < fuel ->
    is_Some (infix_loop fuel regex_str i output operators).
Proof.
  induction fuel as [|fuel IH]; intros regex_str i output operators Hfuel.
  - lia.
  - simpl. destruct (regex_str !! i) as [char|] eqn:Hi; [|by eexists].
    apply lookup_lt_Some in Hi.
    destruct (in_op_precedence char).
    + destruct (add_operator char output operators) as [o1 p1].
      apply IH. lia.
    + destruct (Ascii.eqb char "(").
      * destruct (add_concat regex_str i output operators) as [o1 p1].
        destruct (IH (drop (i + 1) regex_str) 0 [] []) as [sub Hsub].
        { rewrite length_drop. lia. }
        rewrite Hsub. apply IH. lia.
      * destruct (Ascii.eqb char ")"); [by eexists|].
        destruct (add_concat regex_str i output operators) as [o1 p1].
        apply IH. lia.
Qed.

Lemma infix_loop_fuel_mono (fuel : nat) :
  forall (fuel' : nat) (regex_str : list ascii) (i : nat)
         (output operators r : list ascii),
    infix_loop fuel regex_str i output operators = Some r ->
    fuel <= fuel' ->
    infix_loop fuel' regex_str i output operators = Some r.
Proof.
  induction fuel as [|fuel IH]; intros fuel' regex_str i output operators r H Hle.
  - discriminate.
  - destruct fuel' as [|fuel']; [lia|].
    assert (Hle' : fuel <= fuel') by lia.
    simpl in *. destruct (regex_str !! i) as [char|]; [|done].
    destruct (in_op_precedence char).
    + destruct (add_operator char output operators) as [o1 p1]. eauto.
    + destruct (Ascii.eqb char "(").
      * destruct (add_concat regex_str i output operators) as [o1 p1].
        destruct (infix_loop fuel (drop (i + 1) regex_str) 0 [] [])
          as [sub|] eqn:Hsub; [|discriminate].
        rewrite (IH _ _ _ _ _ _ Hsub Hle'). eauto.
      * destruct (Ascii.eqb char ")"); [done|].
        destruct (add_concat regex_str i output operators) as [o1 p1]. eauto.
Qed.

(** [infix_to_postfix_chars] is the result of the loop at every
    sufficient fuel: the default of its definition is never taken. *)
Lemma infix_to_postfix_chars_spec (regex_str : list ascii) (fuel : nat) :
  length regex_str < fuel ->
  infix_loop fuel regex_str 0 [] [] = Some (infix_to_postfix_chars regex_str).
Proof.
  intros Hfuel. unfold infix_to_postfix_chars.
  destruct (infix_loop_total (S (length regex_str)) regex_str 0 [] [])
    as [r Hr]; [lia|].
  rewrite Hr. eapply infix_loop_fuel_mono; [exact Hr | lia].
Qed.

(** ** Patterns without operator characters *)

Lemma literal_char_cases (ch : ascii) :
  is_operator_char ch = false ->
  in_op_precedence ch = false /\ Ascii.eqb ch "(" = false /\
  Ascii.eqb ch ")" = false.
Proof.
  unfold is_operator_char. intros H.
  apply orb_false_elim in H as [H H3]. apply orb_false_elim in H as [H1 H2].
  done.
Qed.

Lemma add_operator_concat_on_concats (output : list ascii) (n : nat) :
  add_operator "." output (replicate n "."%char)
  = (output, replicate (S n) "."%char).
Proof. destruct n; reflexivity. Qed.

(** Scanning a literal string from index [i >= 1]: the output holds the
    first [i] characters and the stack holds [i - 1] concatenations. *)
Lemma infix_loop_literal (s : list ascii) (fuel : nat) :
  literal_chars s ->
  forall i : nat,
    length s - S i < fuel -> S i <= length s ->
    infix_loop fuel s (S i) (take (S i) s) (replicate i "."%char)
    = Some (s ++ replicate (length s - 1) "."%char).
Proof.
  intros Hlit. induction fuel as [|fuel IH]; intros i Hfuel Hi; [lia|].
  simpl. destruct (s !! S i) as [char|] eqn:Hchar.
  - pose proof (lookup_lt_Some _ _ _ Hchar) as Hlt.
    destruct (literal_char_cases char) as (-> & -> & ->).
    { eapply Forall_lookup_1 in Hlit; eauto. }
    destruct (lookup_lt_is_Some_2 s i) as [prev Hprev]; [lia|].
    unfold add_concat. cbn [prev_is_operand]. rewrite Hprev.
    destruct (literal_char_cases prev) as (-> & _ & _).
    { eapply Forall_lookup_1 in Hlit; eauto. }
    cbn [negb]. rewrite add_operator_concat_on_concats.
    replace (S (i + 1)) with (S (S i)) by lia.
    rewrite <- (take_S_r s (S i) char Hchar).
    apply IH; lia.
  - apply lookup_ge_None_1 in Hchar.
    assert (S i = length s) as Hlen by lia.
    unfold flush. rewrite take_ge by lia.
    do 3 f_equal. lia.
Qed.

Lemma infix_to_postfix_literal (s : list ascii) :
  s <> [] -> literal_chars s ->
  infix_to_postfix_chars s = s ++ replicate (length s - 1) "."%char.
Proof.
  intros Hne Hlit. destruct s as [|ch s']; [done|].
  assert (Hch : is_operator_char ch = false) by (by inversion Hlit).
  destruct (literal_char_cases ch Hch) as (H1 & H2 & H3).
  pose proof (infix_to_postfix_chars_spec (ch :: s') (S (S (length s'))))
    as Hspec.
  pose proof (infix_loop_literal (ch :: s') (S (length s')) Hlit 0) as Hloop.
  remember (S (length s')) as fuel eqn:Hfuel.
  simpl in Hspec, Hloop. rewrite H1, H2, H3 in Hspec. rewrite take_0 in Hloop.
  rewrite Hloop in Hspec by lia.
  assert (Hlt : S (length s') < S fuel) by lia.
  specialize (Hspec Hlt). injection Hspec as <-. reflexivity.
Qed.

Lemma length_chain_cells (last_out : list ref) (cs : list ascii) :
  forall k id, length (chain_cells last_out k id cs) = length cs.
Proof. induction cs as [|ch rest IH]; intros k id; simpl; [done|]. by rewrite IH. Qed.

Lemma parse_tokens_app (t1 t2 : list ascii) :
  forall (leaf_stack : list RegexGraphFragment) (w : world),
    parse_tokens (t1 ++ t2) leaf_stack w
    = bind (parse_tokens t1 leaf_stack) (parse_tokens t2) w.
Proof.
  induction t1 as [|char t1 IH]; intros leaf_stack w; [done|].
  simpl. unfold bind in *.
  destruct (parse_token char leaf_stack w) as [[st1 w1]|e]; [|done].
  apply IH.
Qed.

Lemma in_operators_literal (ch : ascii) :
  is_operator_char ch = false -> in_operators ch = false.
Proof.
  intros H. apply literal_char_cases in H as (H & _ & _).
  unfold in_op_precedence, op_precedence, in_operators in *.
  repeat match goal with
         | H : context [Ascii.eqb ?a ?b] |- _ => destruct (Ascii.eqb a b)
         end; done.
Qed.

Lemma parse_token_literal (ch : ascii) (leaf_stack : list RegexGraphFragment)
    (w : world) :
  in_operators ch = false ->
  parse_token ch leaf_stack w
  = Ok (mkFragment (length (store w)) [length (store w)] :: leaf_stack,
        mkWorld (S (next_state_id w))
                (store w ++ [mkState (String ch EmptyString) []
                                     (next_state_id w)])).
Proof. intros H. unfold parse_token. by rewrite H. Qed.

Lemma parse_token_concat (f2 f1 : RegexGraphFragment)
    (leaf_stack : list RegexGraphFragment) (w : world) :
  parse_token "." (f2 :: f1 :: leaf_stack) w
  = Ok (mkFragment (start f1) (out_states f2) :: leaf_stack,
        mkWorld (next_state_id w) (set_out_store f1 f2 (store w))).
Proof. reflexivity. Qed.

(** Connecting a fragment whose only output slot is the object at the
    end of [pre]. *)
Lemma set_out_store_single (a r : ref) (next_frag : RegexGraphFragment)
    (pre post : list RegexGraphState) (st : RegexGraphState) :
  length pre = r ->
  set_out_store (mkFragment a [r]) next_frag (pre ++ st :: post)
  = pre ++ mkState (c st) [start next_frag] (_state_id st) :: post.
Proof.
  intros <-. unfold set_out_store, out_append, out_clear. simpl.
  rewrite !alter_app_r_alt by (rewrite ?length_alter, ?length_app; lia).
  by rewrite Nat.sub_diag.
Qed.

Lemma parse_tokens_literal (cs : list ascii) :
  cs <> [] -> literal_chars cs ->
  forall (leaf_stack : list RegexGraphFragment) (w : world),
    parse_tokens (cs ++ replicate (length cs - 1) "."%char) leaf_stack w
    = Ok (mkFragment (length (store w))
                     [length (store w) + (length cs - 1)] :: leaf_stack,
          mkWorld (next_state_id w + length cs)
                  (store w
                   ++ chain_cells [] (length (store w)) (next_state_id w) cs)).
Proof.
  induction cs as [|ch rest IH]; intros Hne Hlit leaf_stack w; [done|].
  apply Forall_cons in Hlit as [Hch Hrest].
  apply in_operators_literal in Hch.
  destruct rest as [|ch2 rest'].
  - simpl. unfold bind. rewrite parse_token_literal by done.
    simpl. unfold ret. by rewrite Nat.add_0_r, Nat.add_1_r.
  - replace (length (ch :: ch2 :: rest') - 1)
      with (S (length (ch2 :: rest') - 1)) by (simpl; lia).
    rewrite replicate_S_end, app_assoc.
    change ((ch :: ch2 :: rest') ++ ?t) with (ch :: ((ch2 :: rest') ++ t)).
    rewrite <- app_comm_cons. cbn [parse_tokens]. unfold bind at 1.
    rewrite parse_token_literal by done.
    rewrite parse_tokens_app. unfold bind at 1.
    rewrite IH by done. cbn [store next_state_id].
    cbn [parse_tokens]. unfold bind at 1. rewrite parse_token_concat.
    cbn [start out_states store next_state_id ret].
    rewrite <- app_assoc. cbn [app].
    rewrite (set_out_store_single _ _ _ (store w)) by done.
    cbn [c _state_id start]. rewrite length_app. cbn [length chain_cells].
    unfold ret. rewrite !Nat.add_1_r.
    replace (S (length (store w)) + (S (length rest') - 1))
      with (length (store w) + S (S (length rest') - 1)) by lia.
    replace (S (next_state_id w) + S (length rest'))
      with (next_state_id w + S (S (length rest'))) by lia.
    reflexivity.
Qed.

Lemma set_out_store_chain_last (a : ref) (next_frag : RegexGraphFragment)
    (post : list RegexGraphState) (cs : list ascii) :
  cs <> [] ->
  forall (k id : nat) (pre : list RegexGraphState),
    length pre = k ->
    set_out_store (mkFragment a [k + (length cs - 1)]) next_frag
                  (pre ++ chain_cells [] k id cs ++ post)
    = pre ++ chain_cells [start next_frag] k id cs ++ post.
Proof.
  induction cs as [|ch rest IH]; intros Hne k id pre Hpre; [done|].
  destruct rest as [|ch2 rest'].
  - simpl. rewrite Nat.add_0_r. by apply set_out_store_single.
  - cbn [chain_cells].
    change (pre ++ (?x :: ?l) ++ post) with (pre ++ [x] ++ (l ++ post)).
    rewrite !(app_assoc pre).
    replace (k + (length (ch :: ch2 :: rest') - 1))
      with (S k + (length (ch2 :: rest') - 1)) by (simpl; lia).
    apply IH; [done|]. rewrite length_app. simpl. lia.
Qed.

Lemma parse_postfix_literal (cs : list ascii) (n0 : nat) :
  cs <> [] -> literal_chars cs ->
  parse_postfix (cs ++ replicate (length cs - 1) "."%char) (init_world n0)
  = Ok (0, mkWorld (S (n0 + length cs)) (chain_store n0 cs)).
Proof.
  intros Hne Hlit. unfold parse_postfix, bind.
  rewrite parse_tokens_literal by done.
  cbn [length Nat.eqb negb init_world store next_state_id new_state pop ret
       set_out start app].
  rewrite length_chain_cells.
  pose proof (set_out_store_chain_last 0 (mkFragment (length cs) [])
                [mkState _MATCH [] (n0 + length cs)] cs Hne 0 n0 [] eq_refl)
    as Hset.
  cbn [app start] in Hset. by rewrite Hset.
Qed.

Lemma chain_cells_lookup (cs : list ascii) :
  forall (k id j : nat),
    chain_cells [k + length cs] k id cs !! j
    = (fun ch => mkState (String ch EmptyString) [S (k + j)] (id + j))
        <$> cs !! j.
Proof.
  induction cs as [|ch rest IH]; intros k id j; [done|].
  destruct j as [|j].
  - cbn [chain_cells lookup list_lookup fmap option_fmap option_map].
    rewrite !Nat.add_0_r.
    destruct rest; [|done]. simpl. by rewrite Nat.add_1_r.
  - cbn [chain_cells]. rewrite !lookup_cons.
    replace (k + length (ch :: rest)) with (S k + length rest) by (simpl; lia).
    rewrite IH.
    replace (S k + j) with (k + S j) by lia.
    replace (S id + j) with (id + S j) by lia.
    destruct rest; simpl; done.
Qed.

Lemma chain_store_lookup_literal (n0 : nat) (cs : list ascii) (j : nat)
    (ch : ascii) :
  cs !! j = Some ch ->
  chain_store n0 cs !! j
  = Some (mkState (String ch EmptyString) [S j] (n0 + j)).
Proof.
  intros Hj. unfold chain_store.
  rewrite lookup_app_l
    by (rewrite length_chain_cells; by eapply lookup_lt_Some).
  pose proof (chain_cells_lookup cs 0 n0 j) as Hcell.
  cbn [Nat.add] in Hcell. rewrite Hcell, Hj. reflexivity.
Qed.

Lemma chain_store_lookup_match (n0 : nat) (cs : list ascii) :
  chain_store n0 cs !! length cs = Some (mkState _MATCH [] (n0 + length cs)).
Proof.
  unfold chain_store.
  rewrite lookup_app_r by (by rewrite length_chain_cells).
  by rewrite length_chain_cells, Nat.sub_diag.
Qed.

Lemma iteration_order_nil ord : iteration_order ord -> ord [] = [].
Proof. intros H. by apply Permutation_nil_r. Qed.

Lemma iteration_order_singleton ord x :
  iteration_order ord -> ord [x] = [x].
Proof. intros H. by apply Permutation_singleton_r. Qed.

Lemma literal_not_split (ch : ascii) :
  String.eqb (String ch EmptyString) _SPLIT = false.
Proof. simpl. by destruct (Ascii.eqb ch "S"). Qed.

Lemma literal_not_match (ch : ascii) :
  String.eqb (String ch EmptyString) _MATCH = false.
Proof. simpl. by destruct (Ascii.eqb ch "M"). Qed.

Lemma literal_eqb (ch ch' : ascii) :
  String.eqb (String ch EmptyString) (String ch' EmptyString)
  = Ascii.eqb ch ch'.
Proof. simpl. by destruct (Ascii.eqb ch ch'). Qed.

Section ChainRun.
Variable ord : list ref -> list ref.
Hypothesis Hord : iteration_order ord.
Variables (depth n0 : nat) (cs : list ascii).

Let h := chain_store n0 cs.

Lemma chain_add_state (j : nat) :
  j <= length cs -> add_state (S depth) h j [] = Ok [j].
Proof.
  intros Hj. simpl. unfold get_c, h.
  destruct (decide (j = length cs)) as [->|Hne].
  - by rewrite chain_store_lookup_match.
  - destruct (lookup_lt_is_Some_2 cs j) as [ch Hch]; [lia|].
    rewrite (chain_store_lookup_literal _ _ _ _ Hch). cbn [from_option c].
    by rewrite literal_not_split.
Qed.

Lemma chain_step_empty (char : ascii) : step (S depth) ord h [] char = Ok [].
Proof. unfold step. by rewrite iteration_order_nil. Qed.

Lemma chain_step (j : nat) (char : ascii) :
  j <= length cs ->
  step (S depth) ord h [j] char
  = Ok (if decide (cs !! j = Some char) then [S j] else []).
Proof.
  intros Hj. unfold step. rewrite iteration_order_singleton by done.
  cbn [for_each]. unfold get_c, get_out, h.
  destruct (cs !! j) as [ch|] eqn:Hch.
  - rewrite (chain_store_lookup_literal _ _ _ _ Hch).
    cbn [from_option c out]. rewrite literal_eqb.
    destruct (Ascii.eqb_spec ch char) as [->|Hne].
    + rewrite decide_True by done. cbn [for_each result_bind].
      rewrite chain_add_state; [done|]. by apply lookup_lt_Some in Hch.
    + rewrite decide_False by congruence. done.
  - apply lookup_ge_None_1 in Hch. assert (j = length cs) as -> by lia.
    rewrite chain_store_lookup_match. cbn [from_option c].
    rewrite String.eqb_sym, literal_not_match.
    by destruct (decide (None = Some char)).
Qed.

Lemma chain_loop_empty (input_str : list ascii) :
  for_each (fun char states => step (S depth) ord h states char)
           input_str [] = Ok [].
Proof.
  induction input_str as [|char rest IH]; [done|].
  cbn [for_each]. by rewrite chain_step_empty.
Qed.

Lemma chain_is_match (j : nat) :
  j <= length cs ->
  String.eqb (get_c h j) _MATCH = bool_decide (j = length cs).
Proof.
  intros Hj. unfold get_c, h. case_bool_decide as Hd.
  - subst j. by rewrite chain_store_lookup_match.
  - destruct (lookup_lt_is_Some_2 cs j) as [ch Hch]; [lia|].
    rewrite (chain_store_lookup_literal _ _ _ _ Hch). cbn [from_option c].
    apply literal_not_match.
Qed.

(** From the state at position [j], the rest of the run accepts
    exactly the remaining characters of the pattern. *)
Lemma chain_loop (input_str : list ascii) :
  forall j : nat,
    j <= length cs ->
    exists current_states,
      for_each (fun char states => step (S depth) ord h states char)
               input_str [j] = Ok current_states /\
      (existsb (fun s => String.eqb (get_c h s) _MATCH)
               (ord current_states) = true
       <-> input_str = drop j cs).
Proof.
  induction input_str as [|char rest IH]; intros j Hj.
  - exists [j]. split; [done|].
    rewrite iteration_order_singleton by done. cbn [existsb].
    rewrite orb_false_r, chain_is_match, bool_decide_eq_true by done.
    split.
    + intros ->. by rewrite drop_all.
    + intros Hdrop. symmetry in Hdrop.
      apply (f_equal length) in Hdrop. rewrite length_drop in Hdrop.
      simpl in Hdrop. lia.
  - cbn [for_each]. rewrite chain_step by done.
    case_decide as Hchar; cbn [result_bind].
    + destruct (IH (S j)) as (cur & Hcur & Hacc).
      { apply lookup_lt_Some in Hchar. lia. }
      exists cur. split; [done|]. rewrite Hacc.
      rewrite (drop_S _ _ _ Hchar). split; [by intros ->|].
      by intros [= ->].
    + exists []. split; [apply chain_loop_empty|].
      rewrite iteration_order_nil by done. cbn [existsb].
      split; [done|]. intros Heq.
      destruct (cs !! j) as [ch|] eqn:Hch.
      * rewrite (drop_S _ _ _ Hch) in Heq. congruence.
      * apply lookup_ge_None_1 in Hch. by rewrite drop_ge in Heq.
Qed.

Lemma chain_run (input_str : list ascii) :
  exists b : bool,
    run (S depth) ord h 0 input_str = Ok b /\
    (b = true <-> input_str = cs).
Proof.
  unfold run. rewrite chain_add_state by lia. cbn [result_bind].
  destruct (chain_loop input_str 0) as (cur & Hcur & Hacc); [lia|].
  rewrite Hcur. cbn [result_bind]. eexists. split; [done|].
  by rewrite Hacc, drop_0.
Qed.
End ChainRun.

Lemma list_ascii_of_string_inj (s1 s2 : string) :
  list_ascii_of_string s1 = list_ascii_of_string s2 -> s1 = s2.
Proof.
  intros H. rewrite <- (string_of_list_ascii_of_string s1),
              <- (string_of_list_ascii_of_string s2). by rewrite H.
Qed.

Lemma result_bool_eqb (b : bool) (s1 s2 : string) :
  (b = true <-> list_ascii_of_string s1 = list_ascii_of_string s2) ->
  b = String.eqb s1 s2.
Proof.
  intros Hb. destruct (String.eqb_spec s1 s2) as [->|Hne].
  - by apply Hb.
  - destruct b; [|done]. destruct Hne.
    apply list_ascii_of_string_inj. by apply Hb.
Qed.

(** A postfix string of the literal shape compiles to the chain and
    accepts exactly the literal. *)
Lemma match_postfix_literal (depth n0 : nat) (ord : list ref -> list ref)
    (input_str regex_str : string) (cs : list ascii) :
  iteration_order ord -> cs <> [] -> literal_chars cs ->
  infix_to_postfix regex_str = cs ++ replicate (length cs - 1) "."%char ->
  exists b : bool,
    match_str (S depth) ord n0 input_str regex_str = Ok b /\
    (b = true <-> list_ascii_of_string input_str = cs).
Proof.
  intros Hord Hne Hlit Hpost. unfold match_str, parse_regex.
  rewrite Hpost, parse_postfix_literal by done. cbn [store].
  by apply chain_run.
Qed.

(** An opening parenthesis in front of a literal string, never closed:
    the inner call runs to the end of the string and the outer loop
    resumes beyond it. *)
Lemma infix_to_postfix_open_paren (cs : list ascii) :
  cs <> [] -> literal_chars cs ->
  infix_to_postfix_chars ("("%char :: cs)
  = cs ++ replicate (length cs - 1) "."%char.
Proof.
  intros Hne Hlit.
  pose proof (infix_to_postfix_chars_spec ("("%char :: cs)
                (S (S (length cs)))) as Hspec.
  pose proof (infix_to_postfix_chars_spec cs (S (length cs))) as Hsub.
  rewrite infix_to_postfix_literal in Hsub by done.
  remember (S (length cs)) as fuel eqn:Hfuel.
  cbn [infix_loop lookup list_lookup in_op_precedence op_precedence] in Hspec.
  change (in_op_precedence "(") with false in Hspec.
  cbn [Ascii.eqb Bool.eqb add_concat prev_is_operand Nat.add drop app]
    in Hspec.
  rewrite drop_0, Hsub in Hspec by lia.
  assert (Hout : ("("%char :: cs)
                 !! (length (cs ++ replicate (length cs - 1) "."%char) + 1)
                 = None).
  { apply lookup_ge_None_2. rewrite length_app, length_replicate. simpl.
    destruct cs; [done|]. simpl. lia. }
  subst fuel. cbn [infix_loop] in Hspec. rewrite Hout in Hspec.
  unfold flush in Hspec. rewrite app_nil_r in Hspec.
  symmetry. injection Hspec as <-; [done|simpl; lia].
Qed.

(** ** The value of the class counter does not matter *)

Lemma shift_ret {A} (a : A) : shift_invariant (ret a).
Proof. by intros d w. Qed.

Lemma shift_raise {A} (e : exn) : shift_invariant (@raise A e).
Proof. by intros d w. Qed.

Lemma shift_bind {A B} (m : M A) (k : A -> M B) :
  shift_invariant m -> (forall a, shift_invariant (k a)) ->
  shift_invariant (bind m k).
Proof.
  intros Hm Hk d w. unfold bind. rewrite Hm.
  destruct (m w) as [[a w']|e]; [|done]. apply Hk.
Qed.

Lemma shift_new_state (c0 : string) (out0 : list ref) :
  shift_invariant (new_state c0 out0).
Proof.
  intros d w. unfold new_state, bump_world. cbn [store next_state_id].
  by rewrite length_fmap, fmap_app.
Qed.

Lemma alter_bump (d : nat) (f : RegexGraphState -> RegexGraphState)
    (i : nat) (h : list RegexGraphState) :
  (forall st, bump d (f st) = f (bump d st)) ->
  alter f i (bump d <$> h) = bump d <$> alter f i h.
Proof.
  intros Hf. symmetry. apply list_fmap_alter. by apply Forall_true.
Qed.

Lemma set_out_store_bump (d : nat) (self next_frag : RegexGraphFragment)
    (h : list RegexGraphState) :
  set_out_store self next_frag (bump d <$> h)
  = bump d <$> set_out_store self next_frag h.
Proof.
  unfold set_out_store. generalize (out_states self) as l.
  intros l. revert h. induction l as [|state l IH]; intros h; [done|].
  cbn [foldl]. rewrite <- IH. f_equal.
  unfold out_append, out_clear.
  by rewrite !alter_bump.
Qed.

Lemma shift_set_out (self next_frag : RegexGraphFragment) :
  shift_invariant (set_out self next_frag).
Proof.
  intros d w. unfold set_out, bump_world. cbn [store next_state_id].
  by rewrite set_out_store_bump.
Qed.

Lemma shift_pop (leaf_stack : list RegexGraphFragment) :
  shift_invariant (pop leaf_stack).
Proof. destruct leaf_stack; [apply shift_raise | apply shift_ret]. Qed.

Create HintDb shift discriminated.
#[local] Hint Resolve shift_ret shift_raise shift_new_state shift_set_out
  shift_pop : shift.

Ltac shift_step :=
  repeat first
    [ apply shift_bind; [|intros ?]
    | match goal with |- shift_invariant (match ?x with _ => _ end) =>
        destruct x end
    | solve [auto with shift] ].

Lemma shift_parse_token (char : ascii) (leaf_stack : list RegexGraphFragment) :
  shift_invariant (parse_token char leaf_stack).
Proof. unfold parse_token. shift_step. Qed.

Lemma shift_parse_tokens (postfix_str : list ascii) :
  forall leaf_stack, shift_invariant (parse_tokens postfix_str leaf_stack).
Proof.
  induction postfix_str as [|char rest IH]; intros leaf_stack; simpl.
  - apply shift_ret.
  - apply shift_bind; [apply shift_parse_token | done].
Qed.

Lemma shift_parse_postfix (postfix_str : list ascii) :
  shift_invariant (parse_postfix postfix_str).
Proof.
  unfold parse_postfix. apply shift_bind; [apply shift_parse_tokens|].
  intros leaf_stack. shift_step.
Qed.

(** Compiling with the counter at [n0] gives the store compiled with
    the counter at [0], with every id moved by [n0]. *)
Lemma parse_regex_counter (regex_str : string) (n0 : nat) :
  parse_regex regex_str (init_world n0)
  = match parse_regex regex_str (init_world 0) with
    | Ok (a, w) => Ok (a, bump_world n0 w)
    | Raise e => Raise e
    end.
Proof.
  unfold parse_regex.
  rewrite <- (shift_parse_postfix (infix_to_postfix regex_str) n0 (init_world 0)).
  reflexivity.
Qed.

Lemma for_each_ext {A B} (f g : B -> A -> result A) (l : list B) :
  (forall x acc, f x acc = g x acc) ->
  forall acc, for_each f l acc = for_each g l acc.
Proof.
  intros Hfg. induction l as [|x l IH]; intros acc; [done|].
  cbn [for_each]. rewrite Hfg. destruct (g x acc); [apply IH | done].
Qed.

Section BumpedStore.
Variables (d : nat) (h : list RegexGraphState).

Lemma get_c_bump (state : ref) : get_c (bump d <$> h) state = get_c h state.
Proof.
  unfold get_c. rewrite list_lookup_fmap. by destruct (h !! state).
Qed.

Lemma get_out_bump (state : ref) :
  get_out (bump d <$> h) state = get_out h state.
Proof.
  unfold get_out. rewrite list_lookup_fmap. by destruct (h !! state).
Qed.

Lemma state_eq_bump (r1 r2 : ref) :
  state_eq (bump d <$> h) r1 r2 = state_eq h r1 r2.
Proof.
  unfold state_eq. rewrite !list_lookup_fmap.
  destruct (h !! r1) as [a|], (h !! r2) as [b|]; try done.
  cbn [fmap option_fmap option_map bump _state_id].
  destruct (Nat.eqb_spec (_state_id a) (_state_id b)) as [->|Hne].
  - apply Nat.eqb_refl.
  - apply Nat.eqb_neq. lia.
Qed.

Lemma set_add_bump (state : ref) (next_states : list ref) :
  set_add (bump d <$> h) state next_states = set_add h state next_states.
Proof.
  unfold set_add.
  replace (existsb (state_eq (bump d <$> h) state) next_states)
    with (existsb (state_eq h state) next_states); [done|].
  induction next_states as [|x l IH]; [done|].
  cbn [existsb]. by rewrite IH, state_eq_bump.
Qed.

Lemma add_state_bump (depth : nat) :
  forall (state : ref) (next_states : list ref),
    add_state depth (bump d <$> h) state next_states
    = add_state depth h state next_states.
Proof.
  induction depth as [|depth IH]; intros state next_states; [done|].
  cbn [add_state]. rewrite get_c_bump, get_out_bump, set_add_bump.
  destruct (String.eqb (get_c h state) _SPLIT); [|done].
  by apply for_each_ext.
Qed.

Lemma step_bump (depth : nat) (ord : list ref -> list ref)
    (states : list ref) (char : ascii) :
  step depth ord (bump d <$> h) states char = step depth ord h states char.
Proof.
  unfold step. apply for_each_ext. intros s acc.
  rewrite get_c_bump, get_out_bump.
  destruct (String.eqb (get_c h s) (String char EmptyString)); [|done].
  apply for_each_ext, add_state_bump.
Qed.

Lemma run_bump (depth : nat) (ord : list ref -> list ref)
    (regex_graph : ref) (input_str : list ascii) :
  run depth ord (bump d <$> h) regex_graph input_str
  = run depth ord h regex_graph input_str.
Proof.
  unfold run. rewrite add_state_bump.
  destruct (add_state depth h regex_graph []) as [s0|e]; [|done].
  cbn [result_bind].
  rewrite (for_each_ext _ (fun char states => step depth ord h states char))
    by (intros; apply step_bump).
  destruct (for_each _ input_str s0) as [s1|e]; [|done].
  cbn [result_bind]. f_equal.
  induction (ord s1) as [|x l IH]; [done|].
  cbn [existsb]. by rewrite IH, get_c_bump.
Qed.
End BumpedStore.

Lemma match_str_counter (depth : nat) (ord : list ref -> list ref)
    (n0 : nat) (input_str regex_str : string) :
  match_str depth ord n0 input_str regex_str
  = match_str depth ord 0 input_str regex_str.
Proof.
  unfold match_str. rewrite parse_regex_counter.
  destruct (parse_regex regex_str (init_world 0)) as [[a w]|e]; [|done].
  apply run_bump.
Qed.

(** ** Distinct objects have distinct ids *)

Lemma ids_ret {A} (a : A) : preserves_ids (ret a).
Proof. intros w a' w' Hw [= _ <-]. done. Qed.

Lemma ids_raise {A} (e : exn) : preserves_ids (@raise A e).
Proof. intros w a' w' Hw. discriminate. Qed.

Lemma ids_bind {A B} (m : M A) (k : A -> M B) :
  preserves_ids m -> (forall a, preserves_ids (k a)) ->
  preserves_ids (bind m k).
Proof.
  intros Hm Hk w b w' Hw. unfold bind.
  destruct (m w) as [[a w1]|e] eqn:Hmw; [|discriminate].
  intros Hkw. eapply Hk; [|exact Hkw]. eapply Hm; eauto.
Qed.

Lemma ids_new_state (c0 : string) (out0 : list ref) :
  preserves_ids (new_state c0 out0).
Proof.
  intros w a w' [Hnext Hids] [= _ <-]. split; cbn [store next_state_id].
  - rewrite length_app. simpl. lia.
  - rewrite fmap_app, length_app, Hids. cbn [length fmap list_fmap _state_id].
    rewrite Nat.add_1_r, seq_S, Hnext. done.
Qed.

Lemma set_out_store_ids (self next_frag : RegexGraphFragment)
    (h : list RegexGraphState) :
  _state_id <$> set_out_store self next_frag h = _state_id <$> h.
Proof.
  unfold set_out_store. generalize (out_states self) as l.
  intros l. revert h. induction l as [|state l IH]; intros h; [done|].
  cbn [foldl]. rewrite IH. unfold out_append, out_clear.
  rewrite !(list_fmap_alter _state_id _ id) by (by apply Forall_true).
  by rewrite !list_alter_id.
Qed.

Lemma ids_set_out (self next_frag : RegexGraphFragment) :
  preserves_ids (set_out self next_frag).
Proof.
  intros w a w' [Hnext Hids] [= _ <-]. unfold ids_by_index.
  cbn [store next_state_id].
  rewrite set_out_store_ids, <- (length_fmap _state_id (set_out_store _ _ _)),
    set_out_store_ids, length_fmap.
  done.
Qed.

Lemma ids_pop (leaf_stack : list RegexGraphFragment) :
  preserves_ids (pop leaf_stack).
Proof. destruct leaf_stack; [apply ids_raise | apply ids_ret]. Qed.

Create HintDb ids discriminated.
#[local] Hint Resolve ids_ret ids_raise ids_new_state ids_set_out ids_pop : ids.

Ltac ids_step :=
  repeat first
    [ apply ids_bind; [|intros ?]
    | match goal with |- preserves_ids (match ?x with _ => _ end) =>
        destruct x end
    | solve [auto with ids] ].

Lemma ids_parse_token (char : ascii) (leaf_stack : list RegexGraphFragment) :
  preserves_ids (parse_token char leaf_stack).
Proof. unfold parse_token. ids_step. Qed.

Lemma ids_parse_tokens (postfix_str : list ascii) :
  forall leaf_stack, preserves_ids (parse_tokens postfix_str leaf_stack).
Proof.
  induction postfix_str as [|char rest IH]; intros leaf_stack; simpl.
  - apply ids_ret.
  - apply ids_bind; [apply ids_parse_token | done].
Qed.

Lemma ids_parse_postfix (postfix_str : list ascii) :
  preserves_ids (parse_postfix postfix_str).
Proof.
  unfold parse_postfix. apply ids_bind; [apply ids_parse_tokens|].
  intros leaf_stack. ids_step.
Qed.

Lemma parse_regex_ids (regex_str : string) (regex_graph : ref) (w : world) :
  parse_regex regex_str (init_world 0) = Ok (regex_graph, w) ->
  forall k st, store w !! k = Some st -> _state_id st = k.
Proof.
  intros Hparse k st Hk.
  assert (H0 : ids_by_index (init_world 0)) by done.
  destruct (ids_parse_postfix _ _ _ _ H0 Hparse) as [_ Hids].
  assert (Hid : (_state_id <$> store w) !! k = Some (_state_id st))
    by (by rewrite list_lookup_fmap, Hk).
  rewrite Hids in Hid. apply lookup_seq in Hid as [Hid _]. by simpl in Hid.
Qed.

(** ** The iteration order of the sets does not matter *)

Lemma result_perm_trans (r1 r2 r3 : result (list ref)) :
  result_perm r1 r2 -> result_perm r2 r3 -> result_perm r1 r3.
Proof.
  destruct r1, r2, r3; simpl; try done.
  - intros H1 H2. by rewrite H1.
  - congruence.
Qed.

Lemma collect_only_recursion {B} (g : B -> result (list ref)) (l : list B) :
  (forall x, only_recursion_error (g x)) ->
  only_recursion_error (collect g l).
Proof.
  intros Hg. induction l as [|x l IH]; intros e; [done|].
  cbn [collect]. destruct (g x) as [a|e1] eqn:Hgx; cbn [result_bind].
  - destruct (collect g l) as [b|e2]; cbn [result_bind]; [done|].
    intros [= <-]. by apply IH.
  - intros [= <-]. by eapply Hg.
Qed.

Lemma closure_only_recursion (h : list RegexGraphState) (depth : nat) :
  forall state, only_recursion_error (closure depth h state).
Proof.
  induction depth as [|depth IH]; intros state e; simpl.
  - by intros [= <-].
  - destruct (String.eqb (get_c h state) _SPLIT); [|done].
    by apply collect_only_recursion.
Qed.

Lemma collect_perm {B} (g : B -> result (list ref)) (l1 l2 : list B) :
  (forall x, only_recursion_error (g x)) ->
  l1 ≡ₚ l2 -> result_perm (collect g l1) (collect g l2).
Proof.
  intros Hg Hperm. induction Hperm as [|x l1 l2 _ IH|x y l|l1 l2 l3 _ IH1 _ IH2].
  - by simpl.
  - cbn [collect]. destruct (g x) as [a|e]; cbn [result_bind]; [|done].
    destruct (collect g l1) as [b1|e1], (collect g l2) as [b2|e2];
      simpl in *; try done.
    by rewrite IH.
  - cbn [collect].
    destruct (g x) as [a|ex] eqn:Hx, (g y) as [b|ey] eqn:Hy;
      cbn [result_bind collect]; rewrite ?Hx, ?Hy; cbn [result_bind].
    + destruct (collect g l) as [r|e]; simpl; [|done].
      rewrite !app_assoc. by rewrite (Permutation_app_comm a b).
    + done.
    + done.
    + simpl. by rewrite (Hg _ _ Hx), (Hg _ _ Hy).
  - by eapply result_perm_trans.
Qed.

Lemma existsb_perm {B} (f : B -> bool) (l1 l2 : list B) :
  l1 ≡ₚ l2 -> existsb f l1 = existsb f l2.
Proof.
  induction 1 as [|x l1 l2 _ IH|x y l|l1 l2 l3 _ IH1 _ IH2]; simpl.
  - done.
  - by rewrite IH.
  - by destruct (f x), (f y).
  - congruence.
Qed.

Section OrderIndependence.
Variable h : list RegexGraphState.
Hypothesis Hids : forall k st, h !! k = Some st -> _state_id st = k.

Lemma state_eq_true (r1 r2 : ref) : state_eq h r1 r2 = true -> r1 = r2.
Proof.
  unfold state_eq.
  destruct (h !! r1) as [a|] eqn:H1, (h !! r2) as [b|] eqn:H2; try done.
  intros Heq%Nat.eqb_eq.
  by rewrite <- (Hids _ _ H1), <- (Hids _ _ H2).
Qed.

Lemma state_eq_sym (r1 r2 : ref) : state_eq h r1 r2 = state_eq h r2 r1.
Proof.
  unfold state_eq. destruct (h !! r1), (h !! r2); try done.
  apply Nat.eqb_sym.
Qed.

Lemma set_add_perm (x : ref) (a1 a2 : list ref) :
  a1 ≡ₚ a2 -> set_add h x a1 ≡ₚ set_add h x a2.
Proof.
  intros Hperm. unfold set_add.
  rewrite (existsb_perm _ _ _ Hperm).
  destruct (existsb (state_eq h x) a2); [done|]. by rewrite Hperm.
Qed.

Lemma set_add_swap (x y : ref) (a : list ref) :
  set_add h y (set_add h x a) ≡ₚ set_add h x (set_add h y a).
Proof.
  unfold set_add.
  destruct (existsb (state_eq h x) a) eqn:Hx,
           (existsb (state_eq h y) a) eqn:Hy;
    rewrite ?existsb_app, ?Hx, ?Hy; cbn [existsb orb]; try done.
  rewrite !orb_false_r, (state_eq_sym x y).
  destruct (state_eq h y x) eqn:Hyx.
  - by rewrite (state_eq_true _ _ Hyx).
  - rewrite <- !app_assoc. apply Permutation_app_head, perm_swap.
Qed.

Lemma add_all_perm_acc (l : list ref) :
  forall a1 a2, a1 ≡ₚ a2 -> add_all h l a1 ≡ₚ add_all h l a2.
Proof.
  induction l as [|x l IH]; intros a1 a2 Hperm; [done|].
  apply IH. by apply set_add_perm.
Qed.

Lemma add_all_perm (l1 l2 : list ref) :
  l1 ≡ₚ l2 -> forall a1 a2, a1 ≡ₚ a2 -> add_all h l1 a1 ≡ₚ add_all h l2 a2.
Proof.
  induction 1 as [|x l1 l2 _ IH|x y l|l1 l2 l3 _ IH1 _ IH2];
    intros a1 a2 Hacc.
  - done.
  - apply IH. by apply set_add_perm.
  - cbn [add_all foldl]. fold (add_all h l).
    etrans; [apply add_all_perm_acc, set_add_swap|].
    apply add_all_perm_acc. by do 2 apply set_add_perm.
  - etrans; [by apply IH1 | by apply IH2].
Qed.

(** [add_state] adds the closure of the state, one [add] at a time. *)
Lemma for_each_collect {B} (f : B -> list ref -> result (list ref))
    (g : B -> result (list ref)) :
  (forall x acc,
      f x acc = result_bind (g x) (fun l => Ok (add_all h l acc))) ->
  forall l acc,
    for_each f l acc
    = result_bind (collect g l) (fun r => Ok (add_all h r acc)).
Proof.
  intros Hfg. induction l as [|x l IH]; intros acc; [done|].
  cbn [for_each collect]. rewrite Hfg.
  destruct (g x) as [a|e]; cbn [result_bind]; [|done].
  rewrite IH. destruct (collect g l) as [b|e]; cbn [result_bind]; [|done].
  unfold add_all. by rewrite foldl_app.
Qed.

Lemma add_state_closure (depth : nat) :
  forall state next_states,
    add_state depth h state next_states
    = result_bind (closure depth h state)
                  (fun l => Ok (add_all h l next_states)).
Proof.
  induction depth as [|depth IH]; intros state next_states; [done|].
  cbn [add_state closure].
  destruct (String.eqb (get_c h state) _SPLIT); [|done].
  by apply for_each_collect.
Qed.

Lemma targets_only_recursion (depth : nat) (char : ascii) (s : ref) :
  only_recursion_error (targets h depth char s).
Proof.
  unfold targets.
  destruct (String.eqb (get_c h s) (String char EmptyString)); [|done].
  apply collect_only_recursion, closure_only_recursion.
Qed.

Lemma step_collect (depth : nat) (ord : list ref -> list ref)
    (states : list ref) (char : ascii) :
  step depth ord h states char
  = result_bind (collect (targets h depth char) (ord states))
                (fun r => Ok (add_all h r [])).
Proof.
  unfold step. apply for_each_collect. intros s acc. unfold targets.
  destruct (String.eqb (get_c h s) (String char EmptyString)); [|done].
  apply for_each_collect, add_state_closure.
Qed.

Variables ord1 ord2 : list ref -> list ref.
Hypothesis Hord1 : iteration_order ord1.
Hypothesis Hord2 : iteration_order ord2.

Lemma step_order (depth : nat) (states1 states2 : list ref) (char : ascii) :
  states1 ≡ₚ states2 ->
  result_perm (step depth ord1 h states1 char)
              (step depth ord2 h states2 char).
Proof.
  intros Hperm. rewrite !step_collect.
  assert (Hvisit : ord1 states1 ≡ₚ ord2 states2)
    by (by rewrite (Hord1 states1), (Hord2 states2)).
  pose proof (collect_perm (targets h depth char) _ _
                (targets_only_recursion depth char) Hvisit) as Hcol.
  destruct (collect (targets h depth char) (ord1 states1)) as [r1|e1],
           (collect (targets h depth char) (ord2 states2)) as [r2|e2];
    simpl in *; try done.
  by apply add_all_perm.
Qed.

Lemma loop_order (depth : nat) (input_str : list ascii) :
  forall states1 states2,
    states1 ≡ₚ states2 ->
    result_perm
      (for_each (fun char states => step depth ord1 h states char)
                input_str states1)
      (for_each (fun char states => step depth ord2 h states char)
                input_str states2).
Proof.
  induction input_str as [|char rest IH]; intros states1 states2 Hperm;
    [done|].
  cbn [for_each].
  pose proof (step_order depth _ _ char Hperm) as Hstep.
  destruct (step depth ord1 h states1 char) as [s1|e1],
           (step depth ord2 h states2 char) as [s2|e2];
    simpl in *; try done.
  by apply IH.
Qed.

Lemma run_order (depth : nat) (regex_graph : ref) (input_str : list ascii) :
  run depth ord1 h regex_graph input_str
  = run depth ord2 h regex_graph input_str.
Proof.
  unfold run.
  destruct (add_state depth h regex_graph []) as [s0|e]; [|done].
  cbn [result_bind].
  pose proof (loop_order depth input_str s0 s0 (reflexivity _)) as Hloop.
  destruct (for_each _ input_str s0) as [s1|e1],
           (for_each _ input_str s0) as [s2|e2];
    simpl in *; try done; [|by subst].
  f_equal. apply existsb_perm.
  by rewrite (Hord1 s1), (Hord2 s2).
Qed.
End OrderIndependence.

(** Neither the counter nor the iteration order is observable. *)
Lemma match_str_independent (depth : nat) (ord1 ord2 : list ref -> list ref)
    (n0 n1 : nat) (input_str regex_str : string) :
  iteration_order ord1 -> iteration_order ord2 ->
  match_str depth ord1 n0 input_str regex_str
  = match_str depth ord2 n1 input_str regex_str.
Proof.
  intros Hord1 Hord2.
  rewrite (match_str_counter depth ord1 n0), (match_str_counter depth ord2 n1).
  unfold match_str.
  destruct (parse_regex regex_str (init_world 0)) as [[a w]|e] eqn:Hparse;
    [|done].
  apply run_order; [|done|done]. by eapply parse_regex_ids.
Qed.

(** ** References never dangle *)

Lemma set_out_store_length (self next_frag : RegexGraphFragment)
    (h : list RegexGraphState) :
  length (set_out_store self next_frag h) = length h.
Proof.
  by rewrite <- (length_fmap _state_id), set_out_store_ids, length_fmap.
Qed.

Lemma valid_fragment_mono (h h' : list RegexGraphState)
    (f : RegexGraphFragment) :
  length h <= length h' -> valid_fragment h f -> valid_fragment h' f.
Proof.
  intros Hle [Hs Ho]. split; [lia|].
  eapply Forall_impl; [exact Ho|]. simpl. lia.
Qed.

Lemma closed_store_alloc (h : list RegexGraphState) (c0 : string)
    (out0 : list ref) (id : nat) :
  closed_store h -> Forall (fun o => o < length h) out0 ->
  closed_store (h ++ [mkState c0 out0 id]).
Proof.
  intros Hh Hout k st Hk. rewrite length_app. cbn [length].
  apply lookup_app_Some in Hk as [Hk|[_ Hk]].
  - eapply Forall_impl; [by eapply Hh|]. simpl. lia.
  - apply list_lookup_singleton_Some in Hk as [_ <-].
    eapply Forall_impl; [exact Hout|]. simpl. lia.
Qed.

Lemma closed_store_set_out (self next_frag : RegexGraphFragment)
    (h : list RegexGraphState) :
  closed_store h -> start next_frag < length h ->
  closed_store (set_out_store self next_frag h).
Proof.
  unfold set_out_store. generalize (out_states self) as l. intros l.
  revert h. induction l as [|state l IH]; intros h Hh Hlt; [done|].
  cbn [foldl]. unfold out_append, out_clear.
  apply IH; [|by rewrite !length_alter].
  intros k st. rewrite !length_alter.
  destruct (decide (state = k)) as [->|Hne].
  - rewrite !list_lookup_alter_eq. destruct (h !! k); [|done].
    intros [= <-]. by repeat constructor.
  - rewrite !list_lookup_alter_ne by done. apply Hh.
Qed.

Lemma builder_invariant_set_out (self next_frag : RegexGraphFragment)
    (leaf_stack : list RegexGraphFragment) (w : world) :
  builder_invariant leaf_stack w -> start next_frag < length (store w) ->
  builder_invariant leaf_stack
    (mkWorld (next_state_id w) (set_out_store self next_frag (store w))).
Proof.
  intros [Hh Hst] Hlt. split; cbn [store].
  - by apply closed_store_set_out.
  - eapply Forall_impl; [exact Hst|]. intros f.
    apply valid_fragment_mono. by rewrite set_out_store_length.
Qed.

Lemma builder_invariant_alloc (leaf_stack : list RegexGraphFragment)
    (w : world) (c0 : string) (out0 : list ref) :
  builder_invariant leaf_stack w ->
  Forall (fun o => o < length (store w)) out0 ->
  builder_invariant leaf_stack
    (mkWorld (S (next_state_id w))
             (store w ++ [mkState c0 out0 (next_state_id w)])).
Proof.
  intros [Hh Hst] Hout. split; cbn [store].
  - by apply closed_store_alloc.
  - eapply Forall_impl; [exact Hst|]. intros f.
    apply valid_fragment_mono. rewrite length_app. lia.
Qed.

Lemma parse_token_closed (char : ascii)
    (leaf_stack leaf_stack' : list RegexGraphFragment) (w w' : world) :
  builder_invariant leaf_stack w ->
  parse_token char leaf_stack w = Ok (leaf_stack', w') ->
  builder_invariant leaf_stack' w'.
Proof.
  intros Hinv. unfold parse_token.
  destruct (in_operators char).
  - destruct (Ascii.eqb char "."); [|destruct (Ascii.eqb char "+");
      [|destruct (Ascii.eqb char "?"); [|destruct (Ascii.eqb char "*");
      [|destruct (Ascii.eqb char "|")]]]].
    + destruct leaf_stack as [|f2 [|f1 rest]]; try discriminate.
      intros [= <- <-].
      destruct Hinv as [Hh Hst].
      apply Forall_cons in Hst as [[Hs2 Ho2] Hst].
      apply Forall_cons in Hst as [[Hs1 Ho1] Hst].
      destruct (builder_invariant_set_out f1 f2 rest w (conj Hh Hst) Hs2)
        as [Hh' Hst'].
      split; [done|]. apply Forall_cons. split; [|done].
      split; cbn [start out_states store]; rewrite set_out_store_length; done.
    + destruct leaf_stack as [|f rest]; try discriminate.
      intros [= <- <-].
      destruct Hinv as [Hh Hst]. apply Forall_cons in Hst as [[Hs Ho] Hst].
      destruct (builder_invariant_alloc rest w _SPLIT [start f] (conj Hh Hst))
        as [Hh' Hst']; [by repeat constructor|].
      split; [done|]. apply Forall_cons. split; [|done].
      split; cbn [start out_states store]; rewrite length_app; cbn [length].
      * lia.
      * repeat constructor. lia.
    + destruct leaf_stack as [|f rest]; try discriminate.
      intros [= <- <-].
      destruct Hinv as [Hh Hst]. apply Forall_cons in Hst as [[Hs Ho] Hst].
      destruct (builder_invariant_alloc rest w _SPLIT [start f] (conj Hh Hst))
        as [Hh' Hst']; [by repeat constructor|].
      split; [done|]. apply Forall_cons. split; [|done].
      split; cbn [start out_states store]; rewrite length_app; cbn [length].
      * lia.
      * apply Forall_cons. split; [lia|].
        eapply Forall_impl; [exact Ho|]. simpl. lia.
    + destruct leaf_stack as [|f rest]; try discriminate.
      intros [= <- <-].
      destruct Hinv as [Hh Hst]. apply Forall_cons in Hst as [[Hs Ho] Hst].
      pose proof (builder_invariant_alloc rest w _SPLIT [start f]
                    (conj Hh Hst)) as Halloc.
      apply (builder_invariant_set_out f
               (mkFragment (length (store w)) [length (store w)])
               (mkFragment (length (store w)) [length (store w)] :: rest)
               (mkWorld (S (next_state_id w))
                  (store w ++ [mkState _SPLIT [start f] (next_state_id w)]))).
      * destruct Halloc as [Hh' Hst']; [by repeat constructor|].
        split; [done|]. apply Forall_cons. split; [|done].
        split; cbn [start out_states store]; rewrite length_app; cbn [length].
        -- lia.
        -- repeat constructor. lia.
      * cbn [start store]. rewrite length_app. cbn [length]. lia.
    + destruct leaf_stack as [|f2 [|f1 rest]]; try discriminate.
      intros [= <- <-].
      destruct Hinv as [Hh Hst].
      apply Forall_cons in Hst as [[Hs2 Ho2] Hst].
      apply Forall_cons in Hst as [[Hs1 Ho1] Hst].
      destruct (builder_invariant_alloc rest w _SPLIT [start f1; start f2]
                  (conj Hh Hst)) as [Hh' Hst']; [by repeat constructor|].
      split; [done|]. apply Forall_cons. split; [|done].
      split; cbn [start out_states store]; rewrite length_app; cbn [length].
      * lia.
      * apply Forall_app.
        split; (eapply Forall_impl; [eassumption|]); simpl; lia.
    + by intros [= <- <-].
  - intros [= <- <-]. destruct Hinv as [Hh Hst].
    destruct (builder_invariant_alloc leaf_stack w
                (String char EmptyString) [] (conj Hh Hst))
      as [Hh' Hst']; [done|].
    split; [done|]. apply Forall_cons. split; [|done].
    split; cbn [start out_states store]; rewrite length_app; cbn [length].
    + lia.
    + repeat constructor. lia.
Qed.

Lemma parse_tokens_closed (postfix_str : list ascii) :
  forall (leaf_stack leaf_stack' : list RegexGraphFragment) (w w' : world),
    builder_invariant leaf_stack w ->
    parse_tokens postfix_str leaf_stack w = Ok (leaf_stack', w') ->
    builder_invariant leaf_stack' w'.
Proof.
  induction postfix_str as [|char rest IH];
    intros leaf_stack leaf_stack' w w' Hinv.
  - by intros [= <- <-].
  - cbn [parse_tokens]. unfold bind.
    destruct (parse_token char leaf_stack w) as [[st1 w1]|e] eqn:Htok;
      [|discriminate].
    apply IH. by eapply parse_token_closed.
Qed.

(** The graph [parse_regex] returns is closed and its start state is
    an object of the store. *)
Lemma parse_regex_closed (regex_str : string) (n0 : nat)
    (regex_graph : ref) (w : world) :
  parse_regex regex_str (init_world n0) = Ok (regex_graph, w) ->
  closed_store (store w) /\ regex_graph < length (store w).
Proof.
  unfold parse_regex, parse_postfix, bind.
  destruct (parse_tokens (infix_to_postfix regex_str) [] (init_world n0))
    as [[leaf_stack w1]|e] eqn:Htok; [|discriminate].
  assert (Hinv : builder_invariant leaf_stack w1).
  { eapply parse_tokens_closed; [|exact Htok]. split; [|done].
    intros k st Hk. done. }
  destruct leaf_stack as [|graph_frag [|? ?]]; try discriminate.
  intros [= <- <-]. cbn [store next_state_id].
  destruct Hinv as [Hh Hst]. apply Forall_cons in Hst as [[Hs Ho] _].
  rewrite set_out_store_length, length_app. cbn [length]. split; [|lia].
  apply closed_store_set_out.
  - by apply closed_store_alloc.
  - cbn [start]. rewrite length_app. cbn [length]. lia.
Qed.

(** On a closed store [add_state] only ever adds objects of the store. *)
Lemma add_state_closed (h : list RegexGraphState) (depth : nat) :
  closed_store h ->
  forall state next_states r,
    state < length h ->
    Forall (fun s => s < length h) next_states ->
    add_state depth h state next_states = Ok r ->
    Forall (fun s => s < length h) r.
Proof.
  intros Hh. induction depth as [|depth IH];
    intros state next_states r Hstate Hset; [done|].
  cbn [add_state].
  destruct (String.eqb (get_c h state) _SPLIT).
  - assert (Hout : Forall (fun o => o < length h) (get_out h state)).
    { unfold get_out. destruct (h !! state) as [st|] eqn:Hst; [|done].
      by eapply Hh. }
    revert next_states Hset.
    induction Hout as [|o l Ho _ IHl]; intros next_states Hset.
    + by intros [= <-].
    + cbn [for_each].
      destruct (add_state depth h o next_states) as [acc|e] eqn:Hadd;
        [|discriminate].
      cbn [result_bind]. apply IHl. by eapply IH.
  - intros [= <-]. unfold set_add.
    destruct (existsb (state_eq h state) next_states); [done|].
    apply Forall_app. split; [done|]. by repeat constructor.
Qed.

(** ** A larger call-stack budget changes no result *)

Lemma for_each_mono {A B} (f g : B -> A -> result A) (l : list B) :
  (forall x acc r, f x acc = Ok r -> g x acc = Ok r) ->
  forall acc r, for_each f l acc = Ok r -> for_each g l acc = Ok r.
Proof.
  intros Hfg. induction l as [|x l IH]; intros acc r; [done|].
  cbn [for_each]. destruct (f x acc) as [acc1|e] eqn:Hf; [|discriminate].
  rewrite (Hfg _ _ _ Hf). cbn [result_bind]. apply IH.
Qed.

Lemma add_state_depth_mono (h : list RegexGraphState) (depth : nat) :
  forall depth' state next_states r,
    depth <= depth' ->
    add_state depth h state next_states = Ok r ->
    add_state depth' h state next_states = Ok r.
Proof.
  induction depth as [|depth IH]; intros depth' state next_states r Hle;
    [done|].
  destruct depth' as [|depth']; [lia|]. cbn [add_state].
  destruct (String.eqb (get_c h state) _SPLIT); [|done].
  apply for_each_mono. intros o acc r'. apply IH. lia.
Qed.

Lemma step_depth_mono (h : list RegexGraphState) (depth depth' : nat)
    (ord : list ref -> list ref) (states r : list ref) (char : ascii) :
  depth <= depth' ->
  step depth ord h states char = Ok r ->
  step depth' ord h states char = Ok r.
Proof.
  intros Hle. unfold step. apply for_each_mono. intros s acc r'.
  destruct (String.eqb (get_c h s) (String char EmptyString)); [|done].
  apply for_each_mono. intros o acc' r''. by apply add_state_depth_mono.
Qed.

Lemma match_str_depth_mono (depth depth' : nat) (ord : list ref -> list ref)
    (n0 : nat) (input_str regex_str : string) (b : bool) :
  depth <= depth' ->
  match_str depth ord n0 input_str regex_str = Ok b ->
  match_str depth' ord n0 input_str regex_str = Ok b.
Proof.
  intros Hle. unfold match_str.
  destruct (parse_regex regex_str (init_world n0)) as [[a w]|e]; [|done].
  unfold run.
  destruct (add_state depth (store w) a []) as [s0|e] eqn:H0; [|done].
  rewrite (add_state_depth_mono _ _ _ _ _ _ Hle H0). cbn [result_bind].
  destruct (for_each _ (list_ascii_of_string input_str) s0) as [s1|e] eqn:H1;
    [|done].
  rewrite (for_each_mono _ (fun char states =>
             step depth' ord (store w) states char) _
             (fun x acc r => step_depth_mono _ _ _ ord acc r x Hle) _ _ H1).
  done.
Qed.

(** A boolean result obtained in the configuration [py_match_str] is the
    result in every configuration with at least that budget. *)
Lemma match_str_any_configuration (depth : nat) (ord : list ref -> list ref)
    (n0 : nat) (input_str regex_str : string) (b : bool) :
  iteration_order ord -> 1000 <= depth ->
  py_match_str input_str regex_str = Ok b ->
  match_str depth ord n0 input_str regex_str = Ok b.
Proof.
  intros Hord Hle Hpy.
  rewrite (match_str_independent depth ord insertion_order n0 0)
    by (done || intros l; reflexivity).
  by eapply match_str_depth_mono.
Qed.

(** The two nested quantifier patterns named in the specification: the
    converter stops at the closing parenthesis, so their postfix forms
    are those of the inner quantifier, and matching returns. *)
Lemma nested_quantifier_patterns_return :
  infix_to_postfix "(a*)*" = infix_to_postfix "a*" /\
  infix_to_postfix "(a+)*" = infix_to_postfix "a+" /\
  py_match_str "" "(a*)*" = Ok true /\
  py_match_str "aa" "(a*)*" = Ok false /\
  py_match_str "" "(a+)*" = Ok false /\
  py_match_str "aa" "(a+)*" = Ok false.
Proof. vm_compute. done. Qed.

(** ** add_state on cyclic and acyclic split graphs *)

Lemma for_each_ok {A B} (f : B -> A -> result A) (l : list B) :
  (forall x, In x l -> forall acc, exists acc', f x acc = Ok acc') ->
  forall acc, exists acc', for_each f l acc = Ok acc'.
Proof.
  induction l as [|x l IH]; intros Hf acc; [by eexists|].
  cbn [for_each]. destruct (Hf x (or_introl eq_refl) acc) as [acc1 ->].
  cbn [result_bind]. apply IH. intros y Hy. apply Hf. by right.
Qed.

Lemma add_state_ranked (h : list RegexGraphState) (rank : ref -> nat) :
  split_edges_decrease h rank ->
  forall depth state next_states,
    rank state < depth ->
    exists r, add_state depth h state next_states = Ok r.
Proof.
  intros Hrank. induction depth as [|depth IH]; intros state next_states Hlt;
    [lia|].
  cbn [add_state].
  destruct (String.eqb (get_c h state) _SPLIT) eqn:Hsplit; [|by eexists].
  apply for_each_ok. intros o Ho acc. apply IH.
  specialize (Hrank state o Hsplit Ho). lia.
Qed.

Lemma add_state_split_cycle (depth : nat) :
  forall next_states,
    add_state depth split_cycle_store 1 next_states = Raise RecursionError /\
    add_state depth split_cycle_store 2 next_states = Raise RecursionError.
Proof.
  induction depth as [|depth IH]; intros next_states; [done|].
  destruct (IH next_states) as [H1 H2].
  split; cbn [add_state]; cbn; by rewrite ?H1, ?H2.
Qed.

Lemma star_store_ranked : split_edges_decrease star_store (fun r => 3 - r).
Proof.
  intros [|[|[|state]]] o; cbn; try discriminate.
  intros _ [<-|[]]. lia.
Qed.

(** ** set_out overwrites *)


(** After [set_out] every output slot holds the successor's start and
    nothing else, whatever it held before. *)
Lemma set_out_store_overwrites (self next_frag : RegexGraphFragment)
    (h : list RegexGraphState) (state : ref) :
  In state (out_states self) -> state < length h ->
  get_out (set_out_store self next_frag h) state = [start next_frag].
Proof.
  unfold set_out_store. intros Hin. generalize (or_introl
    (B := get_out h state = [start next_frag]) Hin).
  clear Hin. generalize (out_states self) as l. intros l. revert h.
  induction l as [|s l IH]; intros h Hcase Hlt.
  - by destruct Hcase.
  - cbn [foldl]. apply IH.
    + unfold out_append, out_clear. destruct (decide (s = state)) as [->|Hne].
      * right. unfold get_out. rewrite !list_lookup_alter_eq.
        destruct (lookup_lt_is_Some_2 h state Hlt) as [st ->]. done.
      * destruct Hcase as [[?|Hin]|Hout]; [done|by left|right].
        unfold get_out in *. by rewrite !list_lookup_alter_ne.
    + unfold out_append, out_clear. by rewrite !length_alter.
Qed.

(** * The claims *)

(** C1 (fails on the code): [set_out] does not append.  Before the final
    connection the split state of the pattern a* holds its loop-back
    edge to state 0; [set_out] clears the list first, so afterwards the
    split holds the edge to the match state only, and that is the graph
    [parse_regex] returns. *)
Theorem set_out_discards_loop_edge :
  let before :=
    [ mkState "a" [1] 0; mkState _SPLIT [0] 1; mkState _MATCH [] 2 ] in
  parse_tokens (infix_to_postfix "a*") [] (init_world 0)
  = Ok ([mkFragment 1 [1]], mkWorld 2 (take 2 before)) /\
  get_out before 1 = [0] /\
  get_out (set_out_store (mkFragment 1 [1]) (mkFragment 2 []) before) 1 = [2] /\
  parse_regex "a*" (init_world 0) = Ok (1, mkWorld 3 star_store).
Proof. vm_compute. done. Qed.

(** C2 (fails on the code): with the pattern a* the empty input is
    accepted and aab is rejected, but aaaa is rejected too, because the
    loop-back edge of the split state is gone. *)
Theorem star_rejects_repetition :
  py_match_str "" "a*" = Ok true /\
  py_match_str "aaaa" "a*" = Ok false /\
  py_match_str "aab" "a*" = Ok false.
Proof. vm_compute. done. Qed.

(** C3 (fails on the code): the + case never connects the outputs of
    the popped fragment to the new split state, so the literal state of
    the pattern a+ keeps an empty [out] and no input is accepted. *)
Theorem plus_accepts_nothing :
  parse_regex "a+" (init_world 0)
  = Ok (0, mkWorld 3 [ mkState "a" [] 0; mkState _SPLIT [2] 1;
                       mkState _MATCH [] 2 ]) /\
  py_match_str "" "a+" = Ok false /\
  py_match_str "a" "a+" = Ok false /\
  py_match_str "aaa" "a+" = Ok false.
Proof. vm_compute. done. Qed.

(** C4, as amended: [add_state] keeps no record of visited states.  It
    returns whenever the call-stack budget exceeds a rank that decreases
    along every edge out of a split state, that is, when no cycle of
    split states can be reached. *)
Theorem add_state_terminates_without_split_cycle
    (h : list RegexGraphState) (rank : ref -> nat)
    (depth : nat) (state : ref) (next_states : list ref) :
  split_edges_decrease h rank ->
  rank state < depth ->
  exists r, add_state depth h state next_states = Ok r.
Proof. intros Hrank Hlt. by eapply add_state_ranked. Qed.

(** C4 on the nested star of the claim: its store has no split cycle. *)
Lemma add_state_terminates_witness :
  parse_regex "(a*)*" (init_world 0) = Ok (1, mkWorld 3 star_store) /\
  split_edges_decrease star_store (fun r => 3 - r) /\
  3 - 1 < 3 /\
  exists r, add_state 3 star_store 1 [] = Ok r.
Proof.
  split; [reflexivity|]. split; [exact star_store_ranked|].
  split; [simpl; lia|].
  apply (add_state_terminates_without_split_cycle star_store
           (fun r => 3 - r) 3 1 []).
  - exact star_store_ranked.
  - simpl. lia.
Defined.

(** C4 as stated fails: the pattern a+** compiles to two split states
    that point at each other, and no call-stack budget is enough for
    [add_state] on its start state. *)
Lemma add_state_unbounded_on_split_cycle :
  parse_regex "a+**" (init_world 0) = Ok (2, mkWorld 5 split_cycle_store) /\
  ~ (exists depth r, add_state depth split_cycle_store 2 [] = Ok r).
Proof.
  split; [reflexivity|]. intros (depth & r & Hr).
  destruct (add_state_split_cycle depth []) as [_ H2]. congruence.
Qed.

(** C5, as amended: an opening parenthesis in front of a non-empty
    string without operator characters is not reported as unmatched.
    The end of the string closes the group: the pattern has the postfix
    form of that string, it compiles, and it accepts exactly that
    string. *)
Theorem unmatched_paren_is_accepted (depth n0 : nat)
    (ord : list ref -> list ref) (input_str s : string) :
  iteration_order ord ->
  s <> EmptyString ->
  literal_chars (list_ascii_of_string s) ->
  infix_to_postfix (String "(" s) = infix_to_postfix s /\
  match_str (S depth) ord n0 input_str (String "(" s)
  = Ok (String.eqb input_str s).
Proof.
  intros Hord Hne Hlit.
  assert (Hcs : list_ascii_of_string s <> []) by (by destruct s).
  assert (Hpost : infix_to_postfix (String "(" s)
                  = list_ascii_of_string s
                    ++ replicate (length (list_ascii_of_string s) - 1)
                                 "."%char).
  { unfold infix_to_postfix. cbn [list_ascii_of_string].
    by apply infix_to_postfix_open_paren. }
  split.
  - rewrite Hpost. unfold infix_to_postfix.
    by rewrite infix_to_postfix_literal.
  - destruct (match_postfix_literal depth n0 ord input_str (String "(" s)
                (list_ascii_of_string s) Hord Hcs Hlit Hpost)
      as (b & -> & Hb).
    f_equal. by apply result_bool_eqb.
Qed.

Lemma unmatched_paren_is_accepted_witness :
  iteration_order insertion_order /\
  "a" <> EmptyString /\
  literal_chars (list_ascii_of_string "a") /\
  infix_to_postfix "(a" = infix_to_postfix "a" /\
  match_str 1000 insertion_order 0 "a" "(a" = Ok true.
Proof.
  assert (H1 : iteration_order insertion_order) by (intros l; reflexivity).
  assert (H2 : "a" <> EmptyString) by discriminate.
  assert (H3 : literal_chars (list_ascii_of_string "a"))
    by (repeat constructor).
  split; [exact H1|]. split; [exact H2|]. split; [exact H3|].
  exact (unmatched_paren_is_accepted 999 0 insertion_order "a" "a" H1 H2 H3).
Defined.

(** C5 as stated fails: the pattern with an unmatched opening
    parenthesis in front of a compiles and yields a match result. *)
Lemma unmatched_paren_no_syntax_error :
  infix_to_postfix "(a" = ["a"%char] /\
  parse_regex "(a" (init_world 0)
  = Ok (0, mkWorld 2 [ mkState "a" [1] 0; mkState _MATCH [] 1 ]) /\
  py_match_str "a" "(a" = Ok true.
Proof. vm_compute. done. Qed.

(** C6, as amended: the empty pattern has the empty postfix form, but
    the builder requires exactly one fragment on its stack and raises
    when there is none; [match_str] raises for every input. *)
Theorem empty_pattern_raises :
  infix_to_postfix "" = [] /\
  (forall n0, parse_regex "" (init_world n0) = Raise Exception) /\
  (forall depth ord n0 input_str,
      match_str depth ord n0 input_str "" = Raise Exception).
Proof. split; [|split]; intros; reflexivity. Qed.

(** C6 as stated fails: compiling the empty pattern raises. *)
Lemma empty_pattern_does_not_compile :
  parse_regex "" (init_world 0) = Raise Exception /\
  py_match_str "" "" = Raise Exception.
Proof. split; reflexivity. Qed.

(** C7: for a non-empty pattern without operator characters,
    [match_str] returns true exactly when the input equals the
    pattern. *)
Theorem match_str_literal (depth n0 : nat) (ord : list ref -> list ref)
    (input_str s : string) :
  iteration_order ord ->
  s <> EmptyString ->
  literal_chars (list_ascii_of_string s) ->
  match_str (S depth) ord n0 input_str s = Ok (String.eqb input_str s).
Proof.
  intros Hord Hne Hlit.
  assert (Hcs : list_ascii_of_string s <> []) by (by destruct s).
  destruct (match_postfix_literal depth n0 ord input_str s
              (list_ascii_of_string s) Hord Hcs Hlit)
    as (b & -> & Hb).
  - unfold infix_to_postfix. by apply infix_to_postfix_literal.
  - f_equal. by apply result_bool_eqb.
Qed.

Lemma match_str_literal_witness :
  iteration_order insertion_order /\
  "Ext" <> EmptyString /\
  literal_chars (list_ascii_of_string "Ext") /\
  match_str 1000 insertion_order 0 "Ext" "Ext" = Ok true /\
  match_str 1000 insertion_order 0 "Ex" "Ext" = Ok false.
Proof.
  assert (H1 : iteration_order insertion_order) by (intros l; reflexivity).
  assert (H2 : "Ext" <> EmptyString) by discriminate.
  assert (H3 : literal_chars (list_ascii_of_string "Ext"))
    by (repeat constructor).
  split; [exact H1|]. split; [exact H2|]. split; [exact H3|]. split.
  - exact (match_str_literal 999 0 insertion_order "Ext" "Ext" H1 H2 H3).
  - exact (match_str_literal 999 0 insertion_order "Ex" "Ext" H1 H2 H3).
Defined.

(** C8 (fails on the code): no concatenation is inserted after a
    quantifier, so the postfix form of a?b is ab? and the builder ends
    with two fragments: compiling raises, for every input. *)
Theorem optional_then_literal_raises :
  infix_to_postfix "a?b" = ["a"; "b"; "?"]%char /\
  py_match_str "b" "a?b" = Raise Exception /\
  py_match_str "ab" "a?b" = Raise Exception /\
  py_match_str "aab" "a?b" = Raise Exception.
Proof. vm_compute. done. Qed.

(** C9 (fails on the code): after a group the scan resumes at the
    length of the group's postfix form, not at the characters consumed.
    For the pattern (a|b)c it lands on the closing parenthesis and
    stops: the c is never read. *)
Theorem group_resume_drops_tail :
  infix_to_postfix "(a|b)c" = ["a"; "b"; "|"]%char /\
  infix_to_postfix "(a|b)c" = infix_to_postfix "(a|b)" /\
  py_match_str "ac" "(a|b)c" = Ok false /\
  py_match_str "a" "(a|b)c" = Ok true.
Proof. vm_compute. done. Qed.

(** C10: the result of [match_str] is the same for every value of the
    class counter and every iteration order of the sets; in particular
    two successive calls return the same result. *)
Theorem match_str_deterministic (depth : nat)
    (ord1 ord2 : list ref -> list ref) (n0 n1 : nat)
    (input_str regex_str : string) :
  iteration_order ord1 -> iteration_order ord2 ->
  match_str depth ord1 n0 input_str regex_str
  = match_str depth ord2 n1 input_str regex_str.
Proof. apply match_str_independent. Qed.

Lemma match_str_deterministic_witness :
  iteration_order insertion_order /\
  iteration_order (@rev nat) /\
  match_str 1000 insertion_order 0 "abab" "(ab)+"
  = match_str 1000 (@rev nat) 5 "abab" "(ab)+".
Proof.
  assert (H1 : iteration_order insertion_order) by (intros l; reflexivity).
  assert (H2 : iteration_order (@rev nat))
    by (intros l; symmetry; apply Permutation_rev).
  split; [exact H1|]. split; [exact H2|].
  exact (match_str_deterministic 1000 insertion_order (@rev nat) 0 5
           "abab" "(ab)+" H1 H2).
Defined.

(** * Further properties *)

(** ** The converter *)

Lemma add_operator_pops (op : ascii) (p : nat) (operators : list ascii) :
  op_precedence op = Some p ->
  forall output,
  exists popped rest,
    operators = popped ++ rest /\
    add_operator op output operators = (output ++ popped, op :: rest) /\
    Forall (fun o => higher_precedence p o = true) popped /\
    (forall o, head rest = Some o -> higher_precedence p o = false).
Proof.
  intros Hop. induction operators as [|last rest IH]; intros output.
  - exists [], []. rewrite (app_nil_r output). split_and!; try done.
  - cbn [add_operator]. rewrite Hop.
    assert (Hstop : exists popped rest0,
               last :: rest = popped ++ rest0 /\
               (output, op :: last :: rest) = (output ++ popped, op :: rest0) /\
               Forall (fun o => higher_precedence p o = true) popped /\
               (forall o, head rest0 = Some o -> higher_precedence p o = false)
               \/ higher_precedence p last = true).
    { destruct (higher_precedence p last) eqn:Hhigh.
      - exists [], []. by right.
      - exists [], (last :: rest). left. rewrite (app_nil_r output).
        split_and!; try done. by intros o [= <-]. }
    unfold higher_precedence in Hstop.
    destruct (op_precedence last) as [q|] eqn:Hlast.
    + destruct (Nat.ltb p q) eqn:Hpq.
      * destruct (IH (output ++ [last]))
          as (popped & rest' & -> & -> & Hall & Hhd).
        exists (last :: popped), rest'. rewrite <- app_assoc.
        split_and!; try done. constructor; [|done].
        unfold higher_precedence. by rewrite Hlast.
      * destruct Hstop as (popped & rest0 & [Hs|Hs]); [|done].
        by exists popped, rest0.
    + destruct Hstop as (popped & rest0 & [Hs|Hs]); [|done].
      by exists popped, rest0.
Qed.

Lemma higher_precedence_operator (p : nat) (o : ascii) :
  higher_precedence p o = true -> in_op_precedence o = true.
Proof.
  unfold higher_precedence, in_op_precedence. by destruct (op_precedence o).
Qed.

Lemma in_op_precedence_Some (op : ascii) :
  in_op_precedence op = true -> exists p, op_precedence op = Some p.
Proof.
  unfold in_op_precedence. destruct (op_precedence op); [by eexists|done].
Qed.

Lemma operator_not_paren (op : ascii) :
  in_op_precedence op = true -> is_paren op = false.
Proof.
  unfold in_op_precedence, op_precedence, is_paren.
  destruct (Ascii.eqb_spec op "|") as [->|?]; [done|].
  destruct (Ascii.eqb_spec op ".") as [->|?]; [done|].
  destruct (Ascii.eqb_spec op "?") as [->|?]; [done|].
  destruct (Ascii.eqb_spec op "+") as [->|?]; [done|].
  destruct (Ascii.eqb_spec op "*") as [->|?]; done.
Qed.

(** What one call of [add_operator] keeps of a property of the tokens. *)
Lemma add_operator_Forall (P : ascii -> Prop) (op : ascii)
    (output operators output' operators' : list ascii) :
  in_op_precedence op = true -> P op ->
  Forall P output -> Forall P operators ->
  add_operator op output operators = (output', operators') ->
  Forall P output' /\ Forall P operators'.
Proof.
  intros Hop HP Hout Hops Hadd.
  destruct (in_op_precedence_Some op Hop) as [p Hp].
  destruct (add_operator_pops op p operators Hp output)
    as (popped & rest & -> & Heq & _ & _).
  rewrite Heq in Hadd. injection Hadd as <- <-.
  apply Forall_app in Hops as [Hpop Hrest].
  split; [by apply Forall_app | by constructor].
Qed.

Lemma add_concat_Forall (P : ascii -> Prop) (regex_str : list ascii) (i : nat)
    (output operators output' operators' : list ascii) :
  P "."%char ->
  Forall P output -> Forall P operators ->
  add_concat regex_str i output operators = (output', operators') ->
  Forall P output' /\ Forall P operators'.
Proof.
  intros HP Hout Hops. unfold add_concat.
  destruct (prev_is_operand regex_str i).
  - by apply add_operator_Forall.
  - by intros [= <- <-].
Qed.

(** Every token of the result is a concatenation or a character of the
    pattern, and never a parenthesis. *)
Lemma infix_loop_tokens (fuel : nat) :
  forall (regex_str : list ascii) (i : nat) (output operators r : list ascii),
    let P := fun ch => (ch = "."%char \/ In ch regex_str) /\ is_paren ch = false in
    Forall P output -> Forall P operators ->
    infix_loop fuel regex_str i output operators = Some r ->
    Forall P r.
Proof.
  induction fuel as [|fuel IH]; intros regex_str i output operators r P
    Hout Hops; [done|].
  cbn [infix_loop].
  destruct (regex_str !! i) as [char|] eqn:Hchar.
  2:{ intros [= <-]. by apply Forall_app. }
  assert (Hin : In char regex_str)
    by (apply list_elem_of_In; by eapply list_elem_of_lookup_2).
  assert (Hdot : P "."%char) by (split; [by left|done]).
  destruct (in_op_precedence char) eqn:Hop.
  - destruct (add_operator char output operators) as [o1 p1] eqn:Hadd.
    destruct (add_operator_Forall P _ _ _ _ _ Hop
                (conj (or_intror Hin) (operator_not_paren _ Hop))
                Hout Hops Hadd) as [Ho1 Hp1].
    by apply IH.
  - destruct (Ascii.eqb char "(") eqn:Hopen.
    + destruct (add_concat regex_str i output operators) as [o1 p1] eqn:Hadd.
      destruct (add_concat_Forall P _ _ _ _ _ _ Hdot Hout Hops Hadd)
        as [Ho1 Hp1].
      destruct (infix_loop fuel (drop (i + 1) regex_str) 0 [] [])
        as [sub_expr|] eqn:Hsub; [|done].
      apply IH; [|done]. apply Forall_app. split; [done|].
      eapply Forall_impl;
        [exact (IH _ _ _ _ _ (Forall_nil_2 _) (Forall_nil_2 _) Hsub)|].
      intros ch [[->|Hch] Hnp]; [done|]. split; [|done]. right.
      apply list_elem_of_In. apply list_elem_of_In in Hch.
      by eapply subseteq_drop.
    + destruct (Ascii.eqb char ")") eqn:Hclose.
      { intros [= <-]. by apply Forall_app. }
      destruct (add_concat regex_str i output operators) as [o1 p1] eqn:Hadd.
      destruct (add_concat_Forall P _ _ _ _ _ _ Hdot Hout Hops Hadd)
        as [Ho1 Hp1].
      apply IH; [|done]. apply Forall_app. split; [done|].
      apply Forall_singleton. split; [by right|]. unfold is_paren.
      by rewrite Hopen, Hclose.
Qed.

Lemma filter_operand_operators (operators : list ascii) :
  Forall (fun o => in_op_precedence o = true) operators ->
  List.filter operand operators = [].
Proof.
  induction 1 as [|o l Ho _ IH]; [done|].
  cbn [List.filter]. unfold operand at 1. by rewrite Ho.
Qed.

(** One call of [add_operator] on a paren-free scan: the stack still
    holds operators only, the operands of the output are untouched, and
    the tokens are those from before plus [op]. *)
Lemma add_operator_effect (op : ascii) (output operators o1 p1 : list ascii) :
  in_op_precedence op = true ->
  Forall (fun o => in_op_precedence o = true) operators ->
  add_operator op output operators = (o1, p1) ->
  Forall (fun o => in_op_precedence o = true) p1 /\
  List.filter operand o1 = List.filter operand output /\
  o1 ++ p1 ≡ₚ op :: output ++ operators.
Proof.
  intros Hop Hops Hadd.
  destruct (in_op_precedence_Some op Hop) as [p Hp].
  destruct (add_operator_pops op p operators Hp output)
    as (popped & rest & -> & Heq & _ & _).
  rewrite Heq in Hadd. injection Hadd as <- <-.
  apply Forall_app in Hops as [Hpop Hrest]. split_and!.
  - by constructor.
  - by rewrite List.filter_app, (filter_operand_operators popped),
      app_nil_r.
  - rewrite <- app_assoc. rewrite <- Permutation_middle.
    by rewrite (Permutation_middle output).
Qed.

Lemma add_concat_effect (regex_str : list ascii) (i : nat)
    (output operators o1 p1 : list ascii) :
  Forall (fun o => in_op_precedence o = true) operators ->
  add_concat regex_str i output operators = (o1, p1) ->
  Forall (fun o => in_op_precedence o = true) p1 /\
  List.filter operand o1 = List.filter operand output /\
  exists k, o1 ++ p1 ≡ₚ replicate k "."%char ++ output ++ operators.
Proof.
  intros Hops. unfold add_concat. destruct (prev_is_operand regex_str i).
  - intros Hadd.
    destruct (add_operator_effect "." _ _ _ _ eq_refl Hops Hadd)
      as (H1 & H2 & H3).
    split_and!; [done|done|]. by exists 1.
  - intros [= <- <-]. split_and!; [done|done|]. by exists 0.
Qed.

Lemma infix_loop_paren_free (regex_str : list ascii) (fuel : nat) :
  Forall (fun ch => is_paren ch = false) regex_str ->
  forall (i : nat) (output operators r : list ascii),
    Forall (fun o => in_op_precedence o = true) operators ->
    infix_loop fuel regex_str i output operators = Some r ->
    List.filter operand r
    = List.filter operand output ++ List.filter operand (drop i regex_str) /\
    exists k,
      r ≡ₚ replicate k "."%char ++ output ++ operators ++ drop i regex_str.
Proof.
  intros Hnp. induction fuel as [|fuel IH];
    intros i output operators r Hops; [done|].
  cbn [infix_loop].
  destruct (regex_str !! i) as [char|] eqn:Hchar.
  2:{ intros [= <-]. apply lookup_ge_None_1 in Hchar.
      rewrite drop_ge by done. unfold flush. split.
      - by rewrite List.filter_app, (filter_operand_operators operators).
      - exists 0. by rewrite app_nil_r. }
  pose proof (Forall_lookup_1 _ _ _ _ Hnp Hchar) as Hchar_np.
  apply orb_false_elim in Hchar_np as [Hopen Hclose].
  rewrite (drop_S _ _ _ Hchar), Hopen, Hclose. cbn [List.filter].
  destruct (in_op_precedence char) eqn:Hop.
  - destruct (add_operator char output operators) as [o1 p1] eqn:Hadd.
    destruct (add_operator_effect _ _ _ _ _ Hop Hops Hadd) as (H1 & H2 & H3).
    intros Hloop. destruct (IH _ _ _ _ H1 Hloop) as [Hord [k Hperm]].
    rewrite Nat.add_1_r in Hord, Hperm. unfold operand at 3. rewrite Hop.
    cbn [negb]. split; [congruence|].
    exists k. rewrite Hperm, (app_assoc o1), H3.
    apply Permutation_app_head. rewrite (app_assoc output).
    apply Permutation_middle.
  - destruct (add_concat regex_str i output operators) as [o1 p1] eqn:Hadd.
    destruct (add_concat_effect _ _ _ _ _ _ Hops Hadd)
      as (H1 & H2 & [k0 H3]).
    intros Hloop. destruct (IH _ _ _ _ H1 Hloop) as [Hord [k Hperm]].
    rewrite Nat.add_1_r in Hord, Hperm. unfold operand at 3. rewrite Hop.
    cbn [negb]. split.
    + rewrite Hord, List.filter_app, H2, <- app_assoc. cbn [List.filter].
      replace (operand char) with true by (unfold operand; by rewrite Hop).
      reflexivity.
    + exists (k + k0). rewrite Hperm, replicate_add, <- !app_assoc.
      apply Permutation_app_head. cbn [app].
      rewrite <- (Permutation_middle o1), (app_assoc o1), H3.
      rewrite !app_assoc. apply Permutation_middle.
Qed.

(** ** set_out *)

Lemma set_out_store_lookup (self next_frag : RegexGraphFragment)
    (h : list RegexGraphState) (k : ref) :
  set_out_store self next_frag h !! k
  = (fun st => if decide (k ∈ out_states self)
               then connected (start next_frag) st else st) <$> h !! k.
Proof.
  unfold set_out_store. generalize (out_states self) as l. intros l.
  revert h. induction l as [|state l IH]; intros h.
  - cbn [foldl]. by destruct (h !! k).
  - cbn [foldl]. rewrite IH. unfold out_append, out_clear.
    destruct (decide (state = k)) as [->|Hne].
    + rewrite !list_lookup_alter_eq. destruct (h !! k) as [st|]; [|done].
      cbn [fmap option_fmap option_map]. f_equal.
      rewrite (decide_True (P := k ∈ k :: l)) by (by left).
      by destruct (decide (k ∈ l)).
    + rewrite !list_lookup_alter_ne by done.
      destruct (h !! k) as [st|]; [|done].
      cbn [fmap option_fmap option_map]. f_equal.
      destruct (decide (k ∈ l)) as [Hin|Hnin].
      * by rewrite decide_True by (by right).
      * rewrite decide_False; [done|].
        intros [?|?]%elem_of_cons; [congruence|done].
Qed.

(** ** The builder's stack discipline *)

Lemma parse_token_height (char : ascii)
    (leaf_stack : list RegexGraphFragment) (w : world) :
  match token_effect char (length leaf_stack) with
  | Some n =>
      exists leaf_stack' w',
        parse_token char leaf_stack w = Ok (leaf_stack', w') /\
        length leaf_stack' = n
  | None => parse_token char leaf_stack w = Raise IndexError
  end.
Proof.
  unfold parse_token, token_effect.
  destruct (in_operators char); [|by eexists _, _].
  destruct (Ascii.eqb char ".").
  { destruct leaf_stack as [|f2 [|f1 rest]]; try done. by eexists _, _. }
  destruct (Ascii.eqb char "+").
  { destruct leaf_stack as [|f rest]; try done. by eexists _, _. }
  destruct (Ascii.eqb char "?").
  { destruct leaf_stack as [|f rest]; try done. by eexists _, _. }
  destruct (Ascii.eqb char "*").
  { destruct leaf_stack as [|f rest]; try done. by eexists _, _. }
  destruct (Ascii.eqb char "|").
  { destruct leaf_stack as [|f2 [|f1 rest]]; try done. by eexists _, _. }
  by eexists _, _.
Qed.

Lemma parse_tokens_height (postfix_str : list ascii) :
  forall (leaf_stack : list RegexGraphFragment) (w : world),
    match stack_height postfix_str (length leaf_stack) with
    | Some n =>
        exists leaf_stack' w',
          parse_tokens postfix_str leaf_stack w = Ok (leaf_stack', w') /\
          length leaf_stack' = n
    | None => parse_tokens postfix_str leaf_stack w = Raise IndexError
    end.
Proof.
  induction postfix_str as [|char rest IH]; intros leaf_stack w.
  - by eexists _, _.
  - cbn [stack_height parse_tokens]. unfold bind.
    pose proof (parse_token_height char leaf_stack w) as Htok.
    destruct (token_effect char (length leaf_stack)) as [n|].
    + destruct Htok as (st1 & w1 & -> & <-). apply IH.
    + by rewrite Htok.
Qed.

Lemma parse_postfix_outcome (postfix_str : list ascii) (w : world) :
  match stack_height postfix_str 0 with
  | None => parse_postfix postfix_str w = Raise IndexError
  | Some 1 => exists regex_graph w',
                parse_postfix postfix_str w = Ok (regex_graph, w')
  | Some _ => parse_postfix postfix_str w = Raise Exception
  end.
Proof.
  unfold parse_postfix, bind.
  pose proof (parse_tokens_height postfix_str [] w) as Htok.
  cbn [length] in Htok.
  destruct (stack_height postfix_str 0) as [n|]; [|by rewrite Htok].
  destruct Htok as (st & w1 & -> & Hlen).
  destruct n as [|[|n]].
  - by destruct st.
  - destruct st as [|f [|? ?]]; try done. by eexists _, _.
  - destruct st as [|f [|? ?]]; done.
Qed.

Lemma set_out_store_app_l (self next_frag : RegexGraphFragment)
    (h tl : list RegexGraphState) :
  Forall (fun r => r < length h) (out_states self) ->
  set_out_store self next_frag (h ++ tl)
  = set_out_store self next_frag h ++ tl.
Proof.
  intros Hslots. apply list_eq. intros k.
  rewrite set_out_store_lookup.
  destruct (decide (k < length h)) as [Hlt|Hge].
  - rewrite !lookup_app_l by (by rewrite ?set_out_store_length).
    by rewrite set_out_store_lookup.
  - rewrite !lookup_app_r by (rewrite ?set_out_store_length; lia).
    rewrite set_out_store_length.
    destruct (tl !! (k - length h)) as [st|]; [|done].
    cbn [fmap option_fmap option_map].
    destruct (decide (k ∈ out_states self)) as [Hin|]; [|done].
    rewrite Forall_forall in Hslots. apply Hslots in Hin. lia.
Qed.

(** ** Properties of the objects the builder keeps *)

Lemma keeps_ret (P : RegexGraphState -> Prop) {A} (a : A) :
  keeps_states P (ret a).
Proof. by intros w a' w' Hw [= _ <-]. Qed.

Lemma keeps_raise (P : RegexGraphState -> Prop) {A} (e : exn) :
  keeps_states P (@raise A e).
Proof. intros w a' w' Hw. discriminate. Qed.

Lemma keeps_bind (P : RegexGraphState -> Prop) {A B} (m : M A)
    (k : A -> M B) :
  keeps_states P m -> (forall a, keeps_states P (k a)) ->
  keeps_states P (bind m k).
Proof.
  intros Hm Hk w b w' Hw. unfold bind.
  destruct (m w) as [[a w1]|e] eqn:Hmw; [|discriminate].
  intros Hkw. eapply Hk; [|exact Hkw]. eapply Hm; eauto.
Qed.

Lemma keeps_pop (P : RegexGraphState -> Prop)
    (leaf_stack : list RegexGraphFragment) :
  keeps_states P (pop leaf_stack).
Proof. destruct leaf_stack; [apply keeps_raise | apply keeps_ret]. Qed.

Lemma keeps_new_state (P : RegexGraphState -> Prop) (c0 : string)
    (out0 : list ref) :
  (forall id, P (mkState c0 out0 id)) -> keeps_states P (new_state c0 out0).
Proof.
  intros HP w a w' Hw [= _ <-]. cbn [store].
  apply Forall_app. split; [done|]. by apply Forall_singleton.
Qed.

Lemma keeps_set_out (P : RegexGraphState -> Prop)
    (self next_frag : RegexGraphFragment) :
  (forall st x, P st -> P (connected x st)) ->
  keeps_states P (set_out self next_frag).
Proof.
  intros HP w a w' Hw [= _ <-]. cbn [store].
  apply Forall_lookup. intros k st'. rewrite set_out_store_lookup.
  destruct (store w !! k) as [st|] eqn:Hk; [|done].
  intros [= <-]. pose proof (Forall_lookup_1 _ _ _ _ Hw Hk) as Hst.
  destruct (decide (k ∈ out_states self)); [by apply HP | done].
Qed.

Lemma keeps_parse_token (P : RegexGraphState -> Prop) (char : ascii)
    (leaf_stack : list RegexGraphFragment) :
  (forall st x, P st -> P (connected x st)) ->
  (forall a id, P (mkState _SPLIT [a] id)) ->
  (forall a b id, P (mkState _SPLIT [a; b] id)) ->
  (in_operators char = false ->
   forall id, P (mkState (String char EmptyString) [] id)) ->
  keeps_states P (parse_token char leaf_stack).
Proof.
  intros Hconn Hs1 Hs2 Hlit. unfold parse_token.
  destruct (in_operators char);
    repeat first
      [ apply keeps_bind; [|intros ?]
      | match goal with |- keeps_states _ (match ?x with _ => _ end) =>
          destruct x end
      | apply keeps_ret | apply keeps_raise | apply keeps_pop
      | apply keeps_set_out; exact Hconn
      | apply keeps_new_state; solve [auto] ].
Qed.

Lemma keeps_parse_tokens (P : RegexGraphState -> Prop)
    (postfix_str : list ascii) :
  (forall st x, P st -> P (connected x st)) ->
  (forall a id, P (mkState _SPLIT [a] id)) ->
  (forall a b id, P (mkState _SPLIT [a; b] id)) ->
  (forall char, In char postfix_str -> in_operators char = false ->
   forall id, P (mkState (String char EmptyString) [] id)) ->
  forall leaf_stack, keeps_states P (parse_tokens postfix_str leaf_stack).
Proof.
  intros Hconn Hs1 Hs2. induction postfix_str as [|char rest IH];
    intros Hlit leaf_stack; cbn [parse_tokens].
  - apply keeps_ret.
  - apply keeps_bind.
    + apply keeps_parse_token; try done. apply Hlit. by left.
    + intros st. apply IH. intros ch Hch. apply Hlit. by right.
Qed.

Lemma built_state_connected (st : RegexGraphState) (x : ref) :
  built_state st -> built_state (connected x st).
Proof. intros (Hc & _ & _). split_and!; [done|simpl; lia|simpl; lia]. Qed.

Lemma built_state_split1 (a id : nat) : built_state (mkState _SPLIT [a] id).
Proof. split_and!; [done|simpl; lia|simpl; lia]. Qed.

Lemma built_state_split2 (a b id : nat) :
  built_state (mkState _SPLIT [a; b] id).
Proof. split_and!; [done|simpl; lia|done]. Qed.

Lemma built_state_literal (char : ascii) (id : nat) :
  built_state (mkState (String char EmptyString) [] id).
Proof.
  split_and!; [|simpl; lia|simpl; lia]. cbn [c]. intros Heq.
  pose proof (literal_not_match char) as Hne. rewrite Heq in Hne.
  by rewrite String.eqb_refl in Hne.
Qed.

(** The counter and the ids after the token loop started at [n0]. *)
Lemma parse_tokens_counter (postfix_str : list ascii) (n0 : nat)
    (leaf_stack : list RegexGraphFragment) (w : world) :
  parse_tokens postfix_str [] (init_world n0) = Ok (leaf_stack, w) ->
  next_state_id w = n0 + length (store w) /\
  forall k st, store w !! k = Some st -> _state_id st = n0 + k.
Proof.
  intros Hparse.
  pose proof (shift_parse_tokens postfix_str [] n0 (init_world 0)) as Hshift.
  change (bump_world n0 (init_world 0)) with (init_world n0) in Hshift.
  rewrite Hparse in Hshift.
  destruct (parse_tokens postfix_str [] (init_world 0)) as [[st0 w0]|e]
    eqn:H0; [|done].
  injection Hshift as -> ->.
  assert (Hinit : ids_by_index (init_world 0)) by done.
  destruct (ids_parse_tokens _ _ _ _ _ Hinit H0) as [Hnext Hids].
  cbn [bump_world store next_state_id]. rewrite length_fmap. split; [lia|].
  intros k st. rewrite list_lookup_fmap.
  destruct (store w0 !! k) as [st'|] eqn:Hk; [|done]. intros [= <-].
  assert (Hid : (_state_id <$> store w0) !! k = Some (_state_id st'))
    by (by rewrite list_lookup_fmap, Hk).
  rewrite Hids in Hid. apply lookup_seq in Hid as [Hid _].
  cbn [bump _state_id]. simpl in Hid. lia.
Qed.

(** The shape of a compiled graph: the objects made by the token loop,
    then the match state. *)
Lemma parse_regex_shape (regex_str : string) (n0 : nat) (regex_graph : ref)
    (w : world) :
  parse_regex regex_str (init_world n0) = Ok (regex_graph, w) ->
  exists h,
    store w = h ++ [mkState _MATCH [] (n0 + length h)] /\
    Forall built_state h /\
    regex_graph < length h /\
    next_state_id w = S (n0 + length h) /\
    (forall k st, h !! k = Some st -> _state_id st = n0 + k).
Proof.
  unfold parse_regex, parse_postfix, bind.
  destruct (parse_tokens (infix_to_postfix regex_str) [] (init_world n0))
    as [[leaf_stack w1]|e] eqn:Htok; [|discriminate].
  assert (Hbuilt : Forall built_state (store w1)).
  { assert (H0 : Forall built_state (store (init_world n0)))
      by apply Forall_nil_2.
    revert H0 Htok. apply (keeps_parse_tokens built_state).
    - apply built_state_connected.
    - apply built_state_split1.
    - apply built_state_split2.
    - intros. apply built_state_literal. }
  assert (Hinv : builder_invariant leaf_stack w1).
  { eapply parse_tokens_closed; [|exact Htok]. split; [|done]. by intros k st. }
  destruct (parse_tokens_counter _ _ _ _ Htok) as [Hnext Hids].
  destruct leaf_stack as [|graph_frag [|? ?]]; try discriminate.
  intros [= <- <-]. cbn [store next_state_id].
  destruct Hinv as [_ Hst]. apply Forall_cons in Hst as [[Hs Ho] _].
  rewrite set_out_store_app_l by done.
  exists (set_out_store graph_frag (mkFragment (length (store w1)) [])
            (store w1)).
  rewrite set_out_store_length, Hnext. split_and!; try done.
  - apply Forall_lookup. intros k st'. rewrite set_out_store_lookup.
    destruct (store w1 !! k) as [st|] eqn:Hk; [|done]. intros [= <-].
    pose proof (Forall_lookup_1 _ _ _ _ Hbuilt Hk) as Hb.
    destruct (decide (k ∈ out_states graph_frag));
      [by apply built_state_connected | done].
  - intros k st'. rewrite set_out_store_lookup.
    destruct (store w1 !! k) as [st|] eqn:Hk; [|done]. intros [= <-].
    rewrite <- (Hids _ _ Hk).
    by destruct (decide (k ∈ out_states graph_frag)).
Qed.

(** ** The simulator computes acceptance by the graph *)

Lemma collect_In {B} (g : B -> result (list ref)) (l : list B)
    (r : list ref) :
  collect g l = Ok r ->
  (forall x, In x l -> exists lx, g x = Ok lx) /\
  (forall t, In t r <-> exists x lx, In x l /\ g x = Ok lx /\ In t lx).
Proof.
  revert r. induction l as [|x l IH]; intros r.
  - intros [= <-]. split; [by intros x []|].
    intros t. split; [by intros []|]. by intros (x & lx & [] & _).
  - cbn [collect]. destruct (g x) as [a|e] eqn:Hx; [|done].
    cbn [result_bind]. destruct (collect g l) as [b|e] eqn:Hl; [|done].
    cbn [result_bind]. intros [= <-].
    destruct (IH b eq_refl) as [Hall Hin]. split.
    + intros y [<-|Hy]; [by eexists | by apply Hall].
    + intros t. rewrite in_app_iff, Hin. split.
      * intros [Ht|(y & ly & Hy & Hgy & Ht)].
        -- exists x, a. split_and!; [by left|done|done].
        -- exists y, ly. split_and!; [by right|done|done].
      * intros (y & ly & [<-|Hy] & Hgy & Ht).
        -- left. congruence.
        -- right. by exists y, ly.
Qed.

Lemma closure_eps (h : list RegexGraphState) (depth : nat) :
  forall state r,
    closure depth h state = Ok r ->
    forall t, In t r <-> eps_closure h state t.
Proof.
  induction depth as [|depth IH]; intros state r; [done|].
  cbn [closure].
  destruct (String.eqb (get_c h state) _SPLIT) eqn:Hsplit.
  - intros Hcol t. destruct (collect_In _ _ _ Hcol) as [Hall Hin].
    rewrite Hin. split.
    + intros (o & lo & Ho & Hlo & Ht).
      eapply eps_step; [done|exact Ho|]. by eapply IH.
    + intros Heps. inversion Heps as [s Hs|s o t' Hs Ho Hot]; subst.
      * congruence.
      * destruct (Hall o Ho) as [lo Hlo]. exists o, lo.
        split_and!; [done|done|]. by eapply IH.
  - intros [= <-] t. split.
    + intros [<-|[]]. by apply eps_here.
    + intros Heps. inversion Heps; subst; [by left|congruence].
Qed.

Section Acceptance.
Variable h : list RegexGraphState.
Hypothesis Hdistinct : distinct_ids h.

Lemma state_eq_distinct (r1 r2 : ref) : state_eq h r1 r2 = true -> r1 = r2.
Proof.
  unfold state_eq.
  destruct (h !! r1) as [a|] eqn:H1, (h !! r2) as [b|] eqn:H2; try done.
  intros Heq%Nat.eqb_eq. by eapply Hdistinct.
Qed.

Lemma set_add_In (x y : ref) (acc : list ref) :
  In x (set_add h y acc) <-> x = y \/ In x acc.
Proof.
  unfold set_add. destruct (existsb (state_eq h y) acc) eqn:Hex.
  - split; [by right|]. intros [->|Hin]; [|done].
    apply existsb_exists in Hex as (y' & Hy' & Heq).
    by rewrite (state_eq_distinct _ _ Heq).
  - rewrite in_app_iff. cbn [In]. intuition congruence.
Qed.

Lemma add_all_In (l : list ref) :
  forall acc x, In x (add_all h l acc) <-> In x l \/ In x acc.
Proof.
  induction l as [|y l IH]; intros acc x; cbn [add_all foldl In].
  - tauto.
  - fold (add_all h l (set_add h y acc)). rewrite IH, set_add_In.
    intuition congruence.
Qed.

Lemma add_state_In (depth : nat) (state : ref) (next_states r : list ref) :
  add_state depth h state next_states = Ok r ->
  forall t, In t r <-> eps_closure h state t \/ In t next_states.
Proof.
  rewrite add_state_closure.
  destruct (closure depth h state) as [l|e] eqn:Hcl; [|done].
  intros [= <-] t. by rewrite add_all_In, (closure_eps _ _ _ _ Hcl).
Qed.

Variable ord : list ref -> list ref.
Hypothesis Hord : iteration_order ord.

Lemma ord_In (l : list ref) (x : ref) : In x (ord l) <-> In x l.
Proof.
  rewrite <- !list_elem_of_In. by rewrite (Hord l).
Qed.

Lemma step_In (depth : nat) (states r : list ref) (char : ascii) :
  step depth ord h states char = Ok r ->
  forall t,
    In t r <->
    exists s o,
      In s states /\ get_c h s = String char EmptyString /\
      In o (get_out h s) /\ eps_closure h o t.
Proof.
  rewrite step_collect.
  destruct (collect (targets h depth char) (ord states)) as [l|e] eqn:Hcol;
    [|done].
  intros [= <-] t. rewrite add_all_In.
  destruct (collect_In _ _ _ Hcol) as [Hall Hin]. rewrite Hin.
  unfold targets. split.
  - intros [(s & ls & Hs & Hls & Ht)|[]].
    destruct (String.eqb_spec (get_c h s) (String char EmptyString))
      as [Hc|Hc]; [|by injection Hls as <-].
    destruct (collect_In _ _ _ Hls) as [_ Hin'].
    apply Hin' in Ht as (o & lo & Ho & Hlo & Ht).
    exists s, o. split_and!; [by apply ord_In|done|done|].
    by eapply closure_eps.
  - intros (s & o & Hs & Hc & Ho & Heps). left.
    apply (proj2 (ord_In _ _)) in Hs. destruct (Hall s Hs) as [ls Hls].
    exists s, ls. split_and!; [done|done|].
    unfold targets in Hls. rewrite Hc, String.eqb_refl in Hls.
    destruct (collect_In _ _ _ Hls) as [Hall' Hin'].
    apply Hin'. destruct (Hall' o Ho) as [lo Hlo].
    exists o, lo. split_and!; [done|done|]. by eapply closure_eps.
Qed.

Lemma loop_accepts (depth : nat) (input_str : list ascii) :
  forall states final,
    for_each (fun char states => step depth ord h states char)
             input_str states = Ok final ->
    (exists s, In s final /\ get_c h s = _MATCH) <->
    (exists s, In s states /\ accepts h s input_str).
Proof.
  induction input_str as [|char rest IH]; intros states final.
  - by intros [= <-].
  - cbn [for_each].
    destruct (step depth ord h states char) as [next|e] eqn:Hstep; [|done].
    cbn [result_bind]. intros Hloop. rewrite (IH _ _ Hloop).
    pose proof (step_In _ _ _ _ Hstep) as Hnext. split.
    + intros (t & Ht & Hacc). apply Hnext in Ht as (s & o & Hs & Hc & Ho & He).
      exists s. split; [done|]. cbn [accepts]. split; [done|].
      by exists o, t.
    + intros (s & Hs & Hc & o & t & Ho & He & Hacc).
      exists t. split; [|done]. apply Hnext. by exists s, o.
Qed.

Lemma run_accepts (depth : nat) (regex_graph : ref) (input_str : list ascii)
    (b : bool) :
  run depth ord h regex_graph input_str = Ok b ->
  (b = true <-> nfa_accepts h regex_graph input_str).
Proof.
  unfold run.
  destruct (add_state depth h regex_graph []) as [s0|e] eqn:H0; [|done].
  cbn [result_bind].
  destruct (for_each _ input_str s0) as [s1|e] eqn:H1; [|done].
  cbn [result_bind]. intros [= <-].
  rewrite existsb_exists. unfold nfa_accepts.
  pose proof (loop_accepts _ _ _ _ H1) as Hloop.
  pose proof (add_state_In _ _ _ _ H0) as Hstart. split.
  - intros (s & Hs & Hc). apply (proj1 (ord_In _ _)) in Hs.
    apply String.eqb_eq in Hc.
    destruct (proj1 Hloop (ex_intro _ s (conj Hs Hc))) as (t & Ht & Hacc).
    exists t. split; [|done]. apply Hstart in Ht as [Ht|[]]. done.
  - intros (t & Ht & Hacc).
    destruct (proj2 Hloop (ex_intro _ t (conj (proj2 (Hstart t) (or_introl Ht))
                                              Hacc)))
      as (s & Hs & Hc).
    exists s. split; [by apply ord_In|]. by apply String.eqb_eq.
Qed.
End Acceptance.

(** On a graph without split cycles the simulation never raises. *)
Lemma run_returns (h : list RegexGraphState) (rank : ref -> nat)
    (depth : nat) (ord : list ref -> list ref) (regex_graph : ref)
    (input_str : list ascii) :
  split_edges_decrease h rank ->
  (forall state, rank state < depth) ->
  exists b, run depth ord h regex_graph input_str = Ok b.
Proof.
  intros Hrank Hdepth. unfold run.
  destruct (add_state_ranked h rank Hrank depth regex_graph [] (Hdepth _))
    as [s0 ->].
  cbn [result_bind].
  assert (Hloop : forall states, exists final,
             for_each (fun char states => step depth ord h states char)
                      input_str states = Ok final).
  { induction input_str as [|char rest IH]; intros states; [by eexists|].
    cbn [for_each].
    assert (Hstep : exists next, step depth ord h states char = Ok next).
    { unfold step. apply for_each_ok. intros s _ acc.
      destruct (String.eqb (get_c h s) (String char EmptyString));
        [|by eexists].
      apply for_each_ok. intros o _ acc'. by eapply add_state_ranked. }
    destruct Hstep as [next ->]. cbn [result_bind]. apply IH. }
  destruct (Hloop s0) as [final ->]. cbn [result_bind]. by eexists.
Qed.

(** [add_state] never puts a split state into the set. *)
Lemma add_state_no_split (h : list RegexGraphState) (depth : nat) :
  forall state next_states r,
    Forall (fun s => String.eqb (get_c h s) _SPLIT = false) next_states ->
    add_state depth h state next_states = Ok r ->
    Forall (fun s => String.eqb (get_c h s) _SPLIT = false) r.
Proof.
  induction depth as [|depth IH]; intros state next_states r Hset; [done|].
  cbn [add_state].
  destruct (String.eqb (get_c h state) _SPLIT) eqn:Hsplit.
  - revert next_states Hset.
    induction (get_out h state) as [|o l IHl]; intros next_states Hset.
    + by intros [= <-].
    + cbn [for_each].
      destruct (add_state depth h o next_states) as [acc|e] eqn:Hadd;
        [|discriminate].
      cbn [result_bind]. apply IHl. by eapply IH.
  - intros [= <-]. unfold set_add.
    destruct (existsb (state_eq h state) next_states); [done|].
    apply Forall_app. split; [done|]. by apply Forall_singleton.
Qed.

Lemma step_no_split (h : list RegexGraphState) (depth : nat)
    (ord : list ref -> list ref) (states r : list ref) (char : ascii) :
  step depth ord h states char = Ok r ->
  Forall (fun s => String.eqb (get_c h s) _SPLIT = false) r.
Proof.
  unfold step.
  assert (Hgen : forall l acc,
             Forall (fun s => String.eqb (get_c h s) _SPLIT = false) acc ->
             for_each
               (fun s next_states =>
                  if String.eqb (get_c h s) (String char EmptyString)
                  then for_each (add_state depth h) (get_out h s) next_states
                  else Ok next_states) l acc = Ok r ->
             Forall (fun s => String.eqb (get_c h s) _SPLIT = false) r).
  { induction l as [|s l IHl]; intros acc Hacc; [by intros [= <-]|].
    cbn [for_each].
    destruct (String.eqb (get_c h s) (String char EmptyString)).
    - destruct (for_each (add_state depth h) (get_out h s) acc)
        as [acc'|e] eqn:Hin; [|discriminate].
      cbn [result_bind]. apply IHl.
      revert acc Hacc Hin.
      induction (get_out h s) as [|o lo IHo]; intros acc Hacc.
      + by intros [= <-].
      + cbn [for_each].
        destruct (add_state depth h o acc) as [acc1|e] eqn:Hadd;
          [|discriminate].
        cbn [result_bind]. apply IHo. by eapply add_state_no_split.
    - cbn [result_bind]. by apply IHl. }
  apply Hgen. apply Forall_nil_2.
Qed.

(** ** Compiled patterns *)

Lemma parse_regex_ids_from (regex_str : string) (n0 : nat)
    (regex_graph : ref) (w : world) :
  parse_regex regex_str (init_world n0) = Ok (regex_graph, w) ->
  next_state_id w = n0 + length (store w) /\
  forall k st, store w !! k = Some st -> _state_id st = n0 + k.
Proof.
  intros Hparse.
  destruct (parse_regex_shape _ _ _ _ Hparse)
    as (h & -> & _ & _ & Hnext & Hids).
  rewrite length_app. cbn [length]. split; [lia|].
  intros k st Hk. apply lookup_app_Some in Hk as [Hk|[Hge Hk]].
  - by apply Hids.
  - apply list_lookup_singleton_Some in Hk as [Hk <-]. cbn [_state_id]. lia.
Qed.

Lemma parse_regex_distinct_ids (regex_str : string) (n0 : nat)
    (regex_graph : ref) (w : world) :
  parse_regex regex_str (init_world n0) = Ok (regex_graph, w) ->
  distinct_ids (store w).
Proof.
  intros Hparse k k' a b Ha Hb Heq.
  destruct (parse_regex_ids_from _ _ _ _ Hparse) as [_ Hids].
  rewrite (Hids _ _ Ha), (Hids _ _ Hb) in Heq. lia.
Qed.

Lemma state_from_connected (postfix_str : list ascii)
    (st : RegexGraphState) (x : ref) :
  state_from postfix_str st -> state_from postfix_str (connected x st).
Proof. done. Qed.

(** Every literal state of a compiled graph carries a character of the
    pattern. *)
Lemma parse_regex_literals (regex_str : string) (n0 : nat)
    (regex_graph : ref) (w : world) (k : ref) (char : ascii) :
  parse_regex regex_str (init_world n0) = Ok (regex_graph, w) ->
  get_c (store w) k = String char EmptyString ->
  In char (list_ascii_of_string regex_str) /\ is_operator_char char = false.
Proof.
  unfold parse_regex, parse_postfix, bind.
  destruct (parse_tokens (infix_to_postfix regex_str) [] (init_world n0))
    as [[leaf_stack w1]|e] eqn:Htok; [|discriminate].
  assert (Hfrom : Forall (state_from (infix_to_postfix regex_str)) (store w1)).
  { assert (H0 : Forall (state_from (infix_to_postfix regex_str))
                        (store (init_world n0))) by apply Forall_nil_2.
    revert H0 Htok. apply (keeps_parse_tokens _).
    - apply state_from_connected.
    - by left.
    - by left.
    - intros ch Hch Hop id. right. by exists ch. }
  destruct leaf_stack as [|graph_frag [|? ?]]; try discriminate.
  intros [= <- <-]. cbn [store]. unfold get_c.
  rewrite set_out_store_lookup.
  destruct ((store w1 ++ _) !! k) as [st|] eqn:Hk; [|done].
  cbn [fmap option_fmap option_map from_option].
  assert (Hc : c (if decide (k ∈ out_states graph_frag)
                  then connected (length (store w1)) st else st) = c st)
    by (by destruct (decide _)).
  cbn [start]. rewrite Hc. intros Hchar.
  apply lookup_app_Some in Hk as [Hk|[_ Hk]].
  - pose proof (Forall_lookup_1 _ _ _ _ Hfrom Hk) as [Hs|(ch & Hch & Hin & Hop)].
    + rewrite Hs in Hchar. pose proof (literal_not_split char) as Hne.
      rewrite <- Hchar in Hne. by rewrite String.eqb_refl in Hne.
    + rewrite Hch in Hchar. injection Hchar as ->.
      pose proof (infix_to_postfix_chars_spec
                    (list_ascii_of_string regex_str)
                    (S (length (list_ascii_of_string regex_str)))
                    (Nat.lt_succ_diag_r _)) as Hspec.
      pose proof (infix_loop_tokens _ _ _ _ _ _
                    (Forall_nil_2 _) (Forall_nil_2 _) Hspec) as Htokens.
      rewrite Forall_forall in Htokens.
      destruct (Htokens char) as [[->|Hpat] Hnp].
      { by apply list_elem_of_In. }
      { done. }
      split; [done|]. unfold is_operator_char.
      apply orb_false_elim in Hnp as [-> ->].
      rewrite !orb_false_r.
      unfold in_op_precedence, op_precedence.
      unfold in_operators in Hop.
      repeat (apply orb_false_elim in Hop as [Hop ?]).
      by repeat match goal with
                | H : Ascii.eqb char _ = false |- _ => rewrite H; clear H
                end.
  - apply list_lookup_singleton_Some in Hk as [_ <-]. cbn [c] in Hchar.
    pose proof (literal_not_match char) as Hne.
    rewrite <- Hchar in Hne. by rewrite String.eqb_refl in Hne.
Qed.

Lemma accepts_literals (h : list RegexGraphState) (input_str : list ascii) :
  forall state, accepts h state input_str ->
  forall char, In char input_str ->
  exists k, get_c h k = String char EmptyString.
Proof.
  induction input_str as [|ch rest IH]; intros state Hacc char Hin;
    [by destruct Hin|].
  destruct Hacc as (Hc & o & t & _ & _ & Hrest).
  destruct Hin as [<-|Hin]; [by exists state | by eapply IH].
Qed.

(** ** Which exceptions can escape *)

Lemma add_state_only_recursion (h : list RegexGraphState) (depth : nat)
    (state : ref) (next_states : list ref) :
  only_recursion_error (add_state depth h state next_states).
Proof.
  intros e. rewrite add_state_closure.
  destruct (closure depth h state) as [l|e'] eqn:Hcl; [done|].
  intros [= <-]. by eapply closure_only_recursion.
Qed.

Lemma step_only_recursion (h : list RegexGraphState) (depth : nat)
    (ord : list ref -> list ref) (states : list ref) (char : ascii) :
  only_recursion_error (step depth ord h states char).
Proof.
  intros e. rewrite step_collect.
  destruct (collect (targets h depth char) (ord states)) as [l|e'] eqn:Hcol;
    [done|].
  intros [= <-].
  eapply (collect_only_recursion (targets h depth char)); [|exact Hcol].
  intros s. apply targets_only_recursion.
Qed.

Lemma run_only_recursion (h : list RegexGraphState) (depth : nat)
    (ord : list ref -> list ref) (regex_graph : ref)
    (input_str : list ascii) :
  only_recursion_error (run depth ord h regex_graph input_str).
Proof.
  intros e. unfold run.
  destruct (add_state depth h regex_graph []) as [s0|e0] eqn:H0.
  2:{ intros [= <-]. by eapply add_state_only_recursion. }
  cbn [result_bind].
  assert (Hloop : forall states,
             only_recursion_error
               (for_each (fun char states => step depth ord h states char)
                         input_str states)).
  { induction input_str as [|char rest IH]; intros states e'; [done|].
    cbn [for_each].
    destruct (step depth ord h states char) as [next|e1] eqn:Hstep.
    - apply IH.
    - intros [= <-]. by eapply step_only_recursion. }
  destruct (for_each _ input_str s0) as [s1|e1] eqn:H1; [done|].
  intros [= <-]. by eapply Hloop.
Qed.

Lemma parse_postfix_never_recursion (postfix_str : list ascii) (w : world)
    (e : exn) :
  parse_postfix postfix_str w = Raise e -> e = IndexError \/ e = Exception.
Proof.
  pose proof (parse_postfix_outcome postfix_str w) as Hout.
  destruct (stack_height postfix_str 0) as [[|[|n]]|].
  - rewrite Hout. intros [= <-]. by right.
  - destruct Hout as (r & w' & ->). done.
  - rewrite Hout. intros [= <-]. by right.
  - rewrite Hout. intros [= <-]. by left.
Qed.

(** ** Alternations of literal words *)

Lemma prev_is_operand_prev_at (regex_str : list ascii) (i : nat) :
  prev_is_operand regex_str i
  = match prev_at regex_str i with
    | Some p => negb (in_op_precedence p)
    | None => false
    end.
Proof. by destruct i. Qed.

(** On a pattern without parentheses the loop is a left-to-right pass. *)
Lemma infix_loop_scan (regex_str : list ascii) (fuel : nat) :
  Forall (fun ch => is_paren ch = false) regex_str ->
  forall (i : nat) (output operators : list ascii),
    length regex_str - i < fuel ->
    infix_loop fuel regex_str i output operators
    = Some (let '(_, output', operators') :=
              fold_left scan (drop i regex_str)
                        (prev_at regex_str i, output, operators) in
            flush output' operators').
Proof.
  intros Hnp. induction fuel as [|fuel IH]; intros i output operators Hfuel;
    [lia|].
  cbn [infix_loop].
  destruct (regex_str !! i) as [char|] eqn:Hchar.
  2:{ apply lookup_ge_None_1 in Hchar. by rewrite drop_ge. }
  pose proof (Forall_lookup_1 _ _ _ _ Hnp Hchar) as Hchar_np.
  apply orb_false_elim in Hchar_np as [Hopen Hclose].
  pose proof (lookup_lt_Some _ _ _ Hchar) as Hlt.
  rewrite (drop_S _ _ _ Hchar), Hopen, Hclose. cbn [fold_left].
  unfold scan at 2. unfold add_concat. rewrite prev_is_operand_prev_at.
  rewrite Nat.add_1_r.
  destruct (in_op_precedence char).
  - destruct (add_operator char output operators) as [o1 p1].
    rewrite IH by lia. cbn [prev_at]. by rewrite Hchar.
  - destruct (if match prev_at regex_str i with
                 | Some p => negb (in_op_precedence p)
                 | None => false
                 end
              then add_operator "." output operators
              else (output, operators)) as [o1 p1].
    rewrite IH by lia. cbn [prev_at]. by rewrite Hchar.
Qed.

Lemma add_operator_concat_push (output : list ascii) (j k : nat) :
  add_operator "." output (replicate j "."%char ++ replicate k "|"%char)
  = (output, replicate (S j) "."%char ++ replicate k "|"%char).
Proof. destruct j, k; reflexivity. Qed.

Lemma add_operator_bar_pops (j k : nat) :
  forall output,
    add_operator "|" output (replicate j "."%char ++ replicate k "|"%char)
    = (output ++ replicate j "."%char, replicate (S k) "|"%char).
Proof.
  induction j as [|j IH]; intros output.
  - rewrite app_nil_r. by destruct k.
  - cbn [replicate app add_operator]. cbn. rewrite IH.
    by rewrite <- app_assoc.
Qed.

(** Scanning literal characters after a literal character. *)
Lemma scan_literals (w : list ascii) :
  literal_chars w ->
  forall (p : ascii) (output : list ascii) (j k : nat),
    in_op_precedence p = false ->
    exists p',
      in_op_precedence p' = false /\
      fold_left scan w (Some p, output,
                        replicate j "."%char ++ replicate k "|"%char)
      = (Some p', output ++ w,
         replicate (j + length w) "."%char ++ replicate k "|"%char).
Proof.
  induction 1 as [|char w Hchar _ IH]; intros p output j k Hp.
  - exists p. by rewrite app_nil_r, Nat.add_0_r.
  - apply literal_char_cases in Hchar as (Hop & _ & _).
    cbn [fold_left]. unfold scan at 2. rewrite Hop, Hp. cbn [negb].
    rewrite add_operator_concat_push.
    destruct (IH char (output ++ [char]) (S j) k Hop) as (p' & Hp' & ->).
    exists p'. split; [done|]. rewrite <- app_assoc. cbn [length app].
    by rewrite Nat.add_succ_r.
Qed.

(** Scanning a literal word at the start or after an alternation. *)
Lemma scan_word (w : list ascii) (prev : option ascii)
    (output : list ascii) (k : nat) :
  w <> [] -> literal_chars w ->
  prev = None \/ prev = Some "|"%char ->
  exists p',
    in_op_precedence p' = false /\
    fold_left scan w (prev, output, replicate k "|"%char)
    = (Some p', output ++ w,
       replicate (length w - 1) "."%char ++ replicate k "|"%char).
Proof.
  intros Hne Hlit Hprev. destruct w as [|char w]; [done|].
  apply Forall_cons in Hlit as [Hchar Hw].
  apply literal_char_cases in Hchar as (Hop & _ & _).
  cbn [fold_left]. unfold scan at 2. rewrite Hop.
  assert (Hno : match prev with
                | Some p => negb (in_op_precedence p)
                | None => false
                end = false) by (by destruct Hprev as [->| ->]).
  rewrite Hno.
  destruct (scan_literals w Hw char (output ++ [char]) 0 k Hop)
    as (p' & Hp' & Hfold).
  exists p'. split; [done|]. cbn [replicate app] in Hfold.
  rewrite Hfold, <- app_assoc.
  by replace (length (char :: w) - 1) with (length w) by (simpl; lia).
Qed.

Lemma literal_words_tail (w w2 : list ascii) (ws : list (list ascii)) :
  literal_words (w :: w2 :: ws) ->
  (w <> [] /\ literal_chars w) /\ literal_words (w2 :: ws).
Proof.
  intros [_ Hall]. apply Forall_cons in Hall as [Hw Hws].
  split; [exact Hw|]. split; [discriminate | exact Hws].
Qed.

(** Scanning the joined words: what the final flush returns. *)
Lemma scan_join_words (ws : list (list ascii)) :
  literal_words ws ->
  forall (prev : option ascii) (output : list ascii) (k : nat),
    prev = None \/ prev = Some "|"%char ->
    (let '(_, output', operators') :=
       fold_left scan (join_words ws) (prev, output, replicate k "|"%char) in
     flush output' operators')
    = output ++ concat (literal_postfix <$> ws)
      ++ replicate (k + (length ws - 1)) "|"%char.
Proof.
  induction ws as [|w ws IH]; intros Hws prev output k Hprev.
  - by destruct Hws.
  - destruct ws as [|w2 ws].
    + destruct Hws as [_ Hall]. apply Forall_cons in Hall as [[Hne Hlit] _].
      cbn [join_words].
      destruct (scan_word w prev output k Hne Hlit Hprev) as (p' & _ & ->).
      unfold flush, literal_postfix. cbn [fmap list_fmap concat length].
      by rewrite Nat.add_0_r, app_nil_r, <- !app_assoc.
    + apply literal_words_tail in Hws as [[Hne Hlit] Hrest].
      change (join_words (w :: w2 :: ws))
        with (w ++ "|"%char :: join_words (w2 :: ws)).
      rewrite fold_left_app. cbn [fold_left].
      destruct (scan_word w prev output k Hne Hlit Hprev) as (p' & _ & ->).
      unfold scan at 2. cbn [in_op_precedence op_precedence Ascii.eqb].
      change (in_op_precedence "|") with true. cbn iota.
      rewrite add_operator_bar_pops.
      rewrite (IH Hrest (Some "|"%char) _ (S k)) by (by right).
      cbn [fmap list_fmap concat length].
      replace (S k + (S (length ws) - 1))
        with (k + (S (S (length ws)) - 1)) by lia.
      unfold literal_postfix. by rewrite <- !app_assoc.
Qed.

Lemma join_words_no_paren (ws : list (list ascii)) :
  Forall (fun w => w <> [] /\ literal_chars w) ws ->
  Forall (fun ch => is_paren ch = false) (join_words ws).
Proof.
  induction 1 as [|w ws [_ Hw] Hws IH]; [done|].
  assert (Hwnp : Forall (fun ch => is_paren ch = false) w).
  { eapply Forall_impl; [exact Hw|]. intros ch Hch.
    apply literal_char_cases in Hch as (_ & H1 & H2).
    unfold is_paren. by rewrite H1, H2. }
  destruct ws as [|w2 ws]; [done|].
  change (join_words (w :: w2 :: ws))
    with (w ++ "|"%char :: join_words (w2 :: ws)).
  apply Forall_app. split; [done|]. by constructor.
Qed.

Lemma alt_postfix_flat (ws : list (list ascii)) :
  ws <> [] ->
  concat (literal_postfix <$> ws) ++ replicate (length ws - 1) "|"%char
  = alt_postfix ws.
Proof.
  induction ws as [|w ws IH]; intros Hne; [done|].
  destruct ws as [|w2 ws].
  - cbn. by rewrite !app_nil_r.
  - change (alt_postfix (w :: w2 :: ws))
      with (literal_postfix w ++ alt_postfix (w2 :: ws) ++ ["|"%char]).
    rewrite <- IH by done. cbn [fmap list_fmap concat length].
    replace (S (S (length ws)) - 1) with (S (S (length ws) - 1)) by lia.
    by rewrite replicate_S_end, <- !app_assoc.
Qed.

(** The postfix form of an alternation of literal words. *)
Lemma infix_to_postfix_alternation (ws : list (list ascii)) :
  literal_words ws ->
  infix_to_postfix_chars (join_words ws) = alt_postfix ws.
Proof.
  intros Hws.
  pose proof (infix_to_postfix_chars_spec (join_words ws)
                (S (length (join_words ws))) (Nat.lt_succ_diag_r _)) as Hspec.
  rewrite infix_loop_scan in Hspec
    by (try apply join_words_no_paren; try apply Hws; lia).
  rewrite drop_0 in Hspec. cbn [prev_at] in Hspec.
  pose proof (scan_join_words ws Hws None [] 0 (or_introl eq_refl)) as Hscan.
  cbn [replicate app Nat.add] in Hscan. rewrite Hscan in Hspec.
  injection Hspec as <-. apply alt_postfix_flat. apply Hws.
Qed.

Lemma length_alt_cells (last_out : list ref) (ws : list (list ascii)) :
  forall k id, length (alt_cells last_out k id ws) = alt_size ws.
Proof.
  induction ws as [|w ws IH]; intros k id; [done|].
  destruct ws as [|w2 ws]; [apply length_chain_cells|].
  change (alt_cells last_out k id (w :: w2 :: ws))
    with (chain_cells last_out k id w
          ++ alt_cells last_out (k + length w) (id + length w) (w2 :: ws)
          ++ [mkState _SPLIT [k; alt_start (k + length w) (w2 :: ws)]
                      (id + length w + alt_size (w2 :: ws))]).
  rewrite !length_app, length_chain_cells, IH.
  change (alt_size (w :: w2 :: ws)) with (length w + alt_size (w2 :: ws) + 1).
  simpl length. lia.
Qed.

Lemma parse_token_alternation (f2 f1 : RegexGraphFragment)
    (leaf_stack : list RegexGraphFragment) (w : world) :
  parse_token "|" (f2 :: f1 :: leaf_stack) w
  = Ok (mkFragment (length (store w)) (out_states f1 ++ out_states f2)
          :: leaf_stack,
        mkWorld (S (next_state_id w))
                (store w ++ [mkState _SPLIT [start f1; start f2]
                                     (next_state_id w)])).
Proof. reflexivity. Qed.

(** The token loop on the postfix form of an alternation. *)
Lemma parse_tokens_alternation (ws : list (list ascii)) :
  literal_words ws ->
  forall (leaf_stack : list RegexGraphFragment) (w : world),
    parse_tokens (alt_postfix ws) leaf_stack w
    = Ok (mkFragment (alt_start (length (store w)) ws)
                     (alt_outs (length (store w)) ws) :: leaf_stack,
          mkWorld (next_state_id w + alt_size ws)
                  (store w
                   ++ alt_cells [] (length (store w)) (next_state_id w) ws)).
Proof.
  induction ws as [|wd ws IH]; intros Hws leaf_stack w.
  - by destruct Hws.
  - destruct ws as [|w2 ws].
    + destruct Hws as [_ Hall]. apply Forall_cons in Hall as [[Hne Hlit] _].
      cbn [alt_postfix alt_start alt_outs alt_size alt_cells].
      unfold literal_postfix. by rewrite parse_tokens_literal.
    + apply literal_words_tail in Hws as [[Hne Hlit] Hrest].
      change (alt_postfix (wd :: w2 :: ws))
        with (literal_postfix wd ++ alt_postfix (w2 :: ws) ++ ["|"%char]).
      rewrite !parse_tokens_app. unfold bind, literal_postfix.
      rewrite parse_tokens_literal by done.
      rewrite parse_tokens_app. unfold bind.
      rewrite (IH Hrest). cbn [store next_state_id].
      cbn [parse_tokens]. unfold bind.
      rewrite parse_token_alternation.
      cbn [start out_states store next_state_id ret].
      rewrite !length_app, length_chain_cells, length_alt_cells.
      change (alt_start (length (store w)) (wd :: w2 :: ws))
        with (length (store w) + length wd + alt_size (w2 :: ws)).
      change (alt_outs (length (store w)) (wd :: w2 :: ws))
        with ([length (store w) + (length wd - 1)]
              ++ alt_outs (length (store w) + length wd) (w2 :: ws)).
      change (alt_size (wd :: w2 :: ws))
        with (length wd + alt_size (w2 :: ws) + 1).
      change (alt_cells [] (length (store w)) (next_state_id w)
                (wd :: w2 :: ws))
        with (chain_cells [] (length (store w)) (next_state_id w) wd
              ++ alt_cells [] (length (store w) + length wd)
                   (next_state_id w + length wd) (w2 :: ws)
              ++ [mkState _SPLIT
                    [length (store w);
                     alt_start (length (store w) + length wd) (w2 :: ws)]
                    (next_state_id w + length wd + alt_size (w2 :: ws))]).
      rewrite <- !app_assoc.
      replace (S (next_state_id w + length wd + alt_size (w2 :: ws)))
        with (next_state_id w + (length wd + alt_size (w2 :: ws) + 1)) by lia.
      reflexivity.
Qed.

Lemma set_out_store_slots_app (a : ref) (next_frag : RegexGraphFragment)
    (l1 l2 : list ref) (h : list RegexGraphState) :
  set_out_store (mkFragment a (l1 ++ l2)) next_frag h
  = set_out_store (mkFragment a l2) next_frag
      (set_out_store (mkFragment a l1) next_frag h).
Proof. unfold set_out_store. cbn [out_states]. apply foldl_app. Qed.

(** Connecting the output slots of an alternation to [next_frag]. *)
Lemma set_out_store_alternation (a : ref) (next_frag : RegexGraphFragment)
    (ws : list (list ascii)) :
  literal_words ws ->
  forall (k id : nat) (pre post : list RegexGraphState),
    length pre = k ->
    set_out_store (mkFragment a (alt_outs k ws)) next_frag
                  (pre ++ alt_cells [] k id ws ++ post)
    = pre ++ alt_cells [start next_frag] k id ws ++ post.
Proof.
  induction ws as [|wd ws IH]; intros Hws k id pre post Hpre.
  - by destruct Hws.
  - destruct ws as [|w2 ws].
    + destruct Hws as [_ Hall]. apply Forall_cons in Hall as [[Hne Hlit] _].
      by apply set_out_store_chain_last.
    + apply literal_words_tail in Hws as [[Hne Hlit] Hrest].
      change (alt_outs k (wd :: w2 :: ws))
        with ([k + (length wd - 1)] ++ alt_outs (k + length wd) (w2 :: ws)).
      rewrite set_out_store_slots_app.
      change (alt_cells [] k id (wd :: w2 :: ws))
        with (chain_cells [] k id wd
              ++ alt_cells [] (k + length wd) (id + length wd) (w2 :: ws)
              ++ [mkState _SPLIT [k; alt_start (k + length wd) (w2 :: ws)]
                          (id + length wd + alt_size (w2 :: ws))]).
      rewrite <- !app_assoc.
      rewrite set_out_store_chain_last by done.
      rewrite (app_assoc pre).
      rewrite (IH Hrest (k + length wd) (id + length wd)
                 (pre ++ chain_cells [start next_frag] k id wd))
        by (rewrite length_app, length_chain_cells; lia).
      change (alt_cells [start next_frag] k id (wd :: w2 :: ws))
        with (chain_cells [start next_frag] k id wd
              ++ alt_cells [start next_frag] (k + length wd) (id + length wd)
                   (w2 :: ws)
              ++ [mkState _SPLIT [k; alt_start (k + length wd) (w2 :: ws)]
                          (id + length wd + alt_size (w2 :: ws))]).
      by rewrite <- !app_assoc.
Qed.

(** The store and start state [parse_regex] builds for an alternation
    of literal words. *)
Lemma parse_postfix_alternation (ws : list (list ascii)) (n0 : nat) :
  literal_words ws ->
  parse_postfix (alt_postfix ws) (init_world n0)
  = Ok (alt_start 0 ws,
        mkWorld (S (n0 + alt_size ws))
                (alt_cells [alt_size ws] 0 n0 ws
                 ++ [mkState _MATCH [] (n0 + alt_size ws)])).
Proof.
  intros Hws. unfold parse_postfix, bind.
  rewrite parse_tokens_alternation by done.
  cbn [length Nat.eqb negb init_world store next_state_id new_state pop ret
       set_out start app].
  rewrite length_alt_cells.
  pose proof (set_out_store_alternation (alt_start 0 ws)
                (mkFragment (alt_size ws) []) ws Hws 0 n0 []
                [mkState _MATCH [] (n0 + alt_size ws)] eq_refl) as Hset.
  cbn [app start] in Hset. by rewrite Hset.
Qed.

Lemma eps_closure_non_split (h : list RegexGraphState) (s t : ref) :
  String.eqb (get_c h s) _SPLIT = false ->
  eps_closure h s t <-> t = s.
Proof.
  intros Hs. split.
  - intros Heps. inversion Heps; subst; [done|congruence].
  - intros ->. by apply eps_here.
Qed.

Lemma eps_closure_split (h : list RegexGraphState) (s t : ref) :
  String.eqb (get_c h s) _SPLIT = true ->
  eps_closure h s t <-> exists o, In o (get_out h s) /\ eps_closure h o t.
Proof.
  intros Hs. split.
  - intros Heps. inversion Heps; subst; [congruence|]. by eexists.
  - intros (o & Ho & Heps). by eapply eps_step.
Qed.

Lemma literal_ne_match (ch : ascii) : String ch EmptyString <> _MATCH.
Proof.
  intros Heq. pose proof (literal_not_match ch) as Hne.
  rewrite Heq in Hne. by rewrite String.eqb_refl in Hne.
Qed.

Lemma chain_cells_lookup_last (last_out : list ref) (cs : list ascii) :
  forall (k id j : nat),
    chain_cells last_out k id cs !! j
    = (fun ch => mkState (String ch EmptyString)
                   (if decide (S j = length cs) then last_out
                    else [S (k + j)]) (id + j))
        <$> cs !! j.
Proof.
  induction cs as [|ch rest IH]; intros k id j; [done|].
  destruct j as [|j].
  - cbn [chain_cells lookup list_lookup fmap option_fmap option_map length].
    rewrite !Nat.add_0_r. destruct rest; [done|].
    by rewrite decide_False by (simpl; lia).
  - cbn [chain_cells]. rewrite !lookup_cons. rewrite IH.
    destruct (rest !! j) as [ch'|]; [|done].
    cbn [fmap option_fmap option_map length]. f_equal.
    replace (S k + j) with (k + S j) by lia.
    replace (S id + j) with (id + S j) by lia.
    destruct (decide (S j = length rest)), (decide (S (S j) = S (length rest)));
      try lia; done.
Qed.

Lemma chain_at_cells (h pre post : list RegexGraphState) (k id m : nat)
    (w : list ascii) :
  h = pre ++ chain_cells [m] k id w ++ post ->
  length pre = k ->
  chain_at h k m w.
Proof.
  intros -> <- j ch Hj. unfold get_c, get_out.
  rewrite lookup_app_r by lia.
  replace (length pre + j - length pre) with j by lia.
  rewrite lookup_app_l
    by (rewrite length_chain_cells; by eapply lookup_lt_Some).
  rewrite chain_cells_lookup_last, Hj. done.
Qed.

Section ChainAcceptance.
Variables (h : list RegexGraphState) (k m : ref) (w : list ascii).
Hypothesis Hchain : chain_at h k m w.
Hypothesis Hmatch : get_c h m = _MATCH.

Lemma chain_state_non_split (j : nat) :
  j < length w -> String.eqb (get_c h (k + j)) _SPLIT = false.
Proof.
  intros Hj. destruct (lookup_lt_is_Some_2 w j Hj) as [ch Hch].
  destruct (Hchain j ch Hch) as [-> _]. apply literal_not_split.
Qed.

Lemma match_state_accepts (input_str : list ascii) :
  accepts h m input_str <-> input_str = [].
Proof.
  destruct input_str as [|ch rest]; cbn [accepts]; [done|].
  split; [|done]. intros [Hc _]. rewrite Hmatch in Hc.
  by destruct (literal_ne_match ch).
Qed.

Lemma chain_accepts (input_str : list ascii) :
  forall j, j < length w ->
  accepts h (k + j) input_str <-> input_str = drop j w.
Proof.
  induction input_str as [|ch rest IH]; intros j Hj;
    destruct (lookup_lt_is_Some_2 w j Hj) as [wj Hwj];
    destruct (Hchain j wj Hwj) as [Hc Hout];
    rewrite (drop_S _ _ _ Hwj); cbn [accepts].
  - rewrite Hc. split; [|done]. intros Heq. by destruct (literal_ne_match wj).
  - rewrite Hc, Hout. destruct (decide (S j = length w)) as [Hlast|Hmore].
    + rewrite (drop_ge w (S j)) by lia. split.
      * intros ([= ->] & o & t & [<-|[]] & Heps & Hacc).
        apply eps_closure_non_split in Heps; [|by rewrite Hmatch]. subst t.
        apply match_state_accepts in Hacc. by subst.
      * intros [= -> ->]. split; [done|]. exists m, m.
        split_and!; [by left | apply eps_here; by rewrite Hmatch
                    | by apply match_state_accepts].
    + assert (Hj' : S j < length w) by lia.
      replace (S (k + j)) with (k + S j) by lia. split.
      * intros ([= ->] & o & t & [<-|[]] & Heps & Hacc).
        apply eps_closure_non_split in Heps;
          [|by apply chain_state_non_split]. subst t.
        apply (IH (S j) Hj') in Hacc. by subst.
      * intros [= -> ->]. split; [done|]. exists (k + S j), (k + S j).
        split_and!; [by left | apply eps_here; by apply chain_state_non_split
                    | by apply IH].
Qed.

(** Started at the first object of the chain, the automaton accepts
    exactly the word. *)
Lemma word_accepts (input_str : list ascii) :
  w <> [] -> nfa_accepts h k input_str <-> input_str = w.
Proof.
  intros Hne. assert (H0 : 0 < length w) by (destruct w; [done|simpl; lia]).
  pose proof (chain_state_non_split 0 H0) as Hk.
  pose proof (chain_accepts input_str 0 H0) as Hacc.
  rewrite Nat.add_0_r in Hk, Hacc. rewrite drop_0 in Hacc.
  unfold nfa_accepts. split.
  - intros (t & Heps & Ht). apply eps_closure_non_split in Heps; [|done].
    subst t. by apply Hacc.
  - intros Heq. exists k. split; [by apply eps_here | by apply Hacc].
Qed.
End ChainAcceptance.

Lemma alt_start_lt (ws : list (list ascii)) (k : nat) :
  literal_words ws -> alt_start k ws < k + alt_size ws.
Proof.
  intros [Hne Hall]. destruct ws as [|w [|w2 ws]]; [done| |].
  - apply Forall_cons in Hall as [[Hw _] _]. cbn [alt_start alt_size].
    destruct w; [done|simpl; lia].
  - change (alt_start k (w :: w2 :: ws))
      with (k + length w + alt_size (w2 :: ws)).
    change (alt_size (w :: w2 :: ws))
      with (length w + alt_size (w2 :: ws) + 1).
    lia.
Qed.

(** The start state of an alternation accepts exactly its words. *)
Lemma alt_accepts (ws : list (list ascii)) :
  literal_words ws ->
  forall (h pre post : list RegexGraphState) (k id m : nat)
         (input_str : list ascii),
    h = pre ++ alt_cells [m] k id ws ++ post ->
    length pre = k ->
    get_c h m = _MATCH ->
    nfa_accepts h (alt_start k ws) input_str <-> In input_str ws.
Proof.
  induction ws as [|wd ws IH]; intros Hws h pre post k id m input_str
    Hh Hpre Hm.
  - by destruct Hws.
  - destruct ws as [|w2 ws].
    + destruct Hws as [_ Hall]. apply Forall_cons in Hall as [[Hne Hlit] _].
      cbn [alt_start alt_cells In] in *.
      rewrite (word_accepts h k m wd (chain_at_cells _ _ _ _ _ _ _ Hh Hpre)
                 Hm input_str Hne).
      intuition congruence.
    + apply literal_words_tail in Hws as [[Hne Hlit] Hrest].
      change (alt_cells [m] k id (wd :: w2 :: ws))
        with (chain_cells [m] k id wd
              ++ alt_cells [m] (k + length wd) (id + length wd) (w2 :: ws)
              ++ [mkState _SPLIT [k; alt_start (k + length wd) (w2 :: ws)]
                          (id + length wd + alt_size (w2 :: ws))]) in Hh.
      change (alt_start k (wd :: w2 :: ws))
        with (k + length wd + alt_size (w2 :: ws)).
      assert (Hsplit : h !! (k + length wd + alt_size (w2 :: ws))
                = Some (mkState _SPLIT
                          [k; alt_start (k + length wd) (w2 :: ws)]
                          (id + length wd + alt_size (w2 :: ws)))).
      { rewrite Hh, <- !app_assoc.
        rewrite lookup_app_r by lia.
        rewrite lookup_app_r by (rewrite length_chain_cells; lia).
        rewrite lookup_app_r
          by (rewrite length_chain_cells, length_alt_cells; lia).
        rewrite length_chain_cells, length_alt_cells.
        replace (k + length wd + alt_size (w2 :: ws) - length pre
                 - length wd - alt_size (w2 :: ws)) with 0 by lia.
        done. }
      assert (Hword : nfa_accepts h k input_str <-> input_str = wd).
      { apply (word_accepts h k m wd); [|done|done].
        rewrite <- !app_assoc in Hh. by eapply chain_at_cells. }
      assert (Hrec : nfa_accepts h (alt_start (k + length wd) (w2 :: ws))
                       input_str <-> In input_str (w2 :: ws)).
      { eapply (IH Hrest h (pre ++ chain_cells [m] k id wd)
                  ([mkState _SPLIT [k; alt_start (k + length wd) (w2 :: ws)]
                            (id + length wd + alt_size (w2 :: ws))] ++ post));
          [|by rewrite length_app, length_chain_cells; lia|done].
        rewrite Hh, <- !app_assoc. done. }
      assert (Hgoal : nfa_accepts h (k + length wd + alt_size (w2 :: ws))
                        input_str
                      <-> nfa_accepts h k input_str \/
                          nfa_accepts h (alt_start (k + length wd) (w2 :: ws))
                            input_str);
        [|rewrite Hgoal, Hword, Hrec; cbn [In]; intuition congruence].
      unfold nfa_accepts.
      assert (Hs : String.eqb
                     (get_c h (k + length wd + alt_size (w2 :: ws))) _SPLIT
                   = true) by (unfold get_c; by rewrite Hsplit).
      assert (Hout : get_out h (k + length wd + alt_size (w2 :: ws))
                     = [k; alt_start (k + length wd) (w2 :: ws)])
        by (unfold get_out; by rewrite Hsplit).
      split.
      * intros (t & Heps & Hacc).
        apply eps_closure_split in Heps as (o & Ho & Heps); [|done].
        rewrite Hout in Ho. destruct Ho as [<-|[<-|[]]];
          [left|right]; by exists t.
      * intros [(t & Heps & Hacc)|(t & Heps & Hacc)]; exists t;
          (split; [|done]); apply eps_closure_split; try done;
          rewrite Hout; eexists; (split; [|exact Heps]); simpl; auto.
Qed.

Lemma alt_cells_splits_backward (ws : list (list ascii)) :
  literal_words ws ->
  forall (last_out : list ref) (k id j : nat) (st : RegexGraphState),
    alt_cells last_out k id ws !! j = Some st ->
    String.eqb (c st) _SPLIT = true ->
    Forall (fun o => o < k + j) (out st).
Proof.
  induction ws as [|wd ws IH]; intros Hws last_out k id j st Hj Hsplit.
  - by destruct Hws.
  - assert (Hchain : forall st', chain_cells last_out k id wd !! j = Some st' ->
                                 String.eqb (c st') _SPLIT = false).
    { intros st'. rewrite chain_cells_lookup_last.
      destruct (wd !! j) as [ch|]; [|done]. intros [= <-].
      apply literal_not_split. }
    destruct ws as [|w2 ws].
    + cbn [alt_cells] in Hj. apply Hchain in Hj. congruence.
    + apply literal_words_tail in Hws as [[Hne Hlit] Hrest].
      change (alt_cells last_out k id (wd :: w2 :: ws))
        with (chain_cells last_out k id wd
              ++ alt_cells last_out (k + length wd) (id + length wd) (w2 :: ws)
              ++ [mkState _SPLIT [k; alt_start (k + length wd) (w2 :: ws)]
                          (id + length wd + alt_size (w2 :: ws))]) in Hj.
      apply lookup_app_Some in Hj as [Hj|[Hge Hj]].
      { apply Hchain in Hj. congruence. }
      rewrite length_chain_cells in Hge, Hj.
      apply lookup_app_Some in Hj as [Hj|[Hge' Hj]].
      * eapply Forall_impl; [by eapply (IH Hrest)|]. simpl. lia.
      * rewrite length_alt_cells in Hge', Hj.
        apply list_lookup_singleton_Some in Hj as [Hj <-]. cbn [out].
        pose proof (alt_start_lt (w2 :: ws) (k + length wd) Hrest) as Hlt.
        assert (0 < length wd) by (destruct wd; [done|simpl; lia]).
        repeat constructor; lia.
Qed.

Lemma alt_size_join_words (ws : list (list ascii)) :
  alt_size ws = length (join_words ws).
Proof.
  induction ws as [|w ws IH]; [done|]. destruct ws as [|w2 ws]; [done|].
  change (alt_size (w :: w2 :: ws)) with (length w + alt_size (w2 :: ws) + 1).
  change (join_words (w :: w2 :: ws))
    with (w ++ "|"%char :: join_words (w2 :: ws)).
  rewrite IH, length_app. cbn [length]. lia.
Qed.

Lemma alternation_store_ranked (ws : list (list ascii)) (n0 : nat) :
  literal_words ws ->
  split_edges_decrease
    (alt_cells [alt_size ws] 0 n0 ws
     ++ [mkState _MATCH [] (n0 + alt_size ws)])
    (fun s => Nat.min s (alt_size ws)).
Proof.
  intros Hws state o. unfold get_c, get_out.
  destruct ((alt_cells [alt_size ws] 0 n0 ws ++ _) !! state) as [st|] eqn:Hst;
    [|done].
  cbn [from_option]. intros Hsplit Ho.
  apply lookup_app_Some in Hst as [Hst|[_ Hst]].
  - pose proof (lookup_lt_Some _ _ _ Hst) as Hlt.
    rewrite length_alt_cells in Hlt.
    pose proof (alt_cells_splits_backward ws Hws _ _ _ _ _ Hst Hsplit) as Hback.
    rewrite Forall_forall in Hback. apply list_elem_of_In in Ho.
    apply Hback in Ho. lia.
  - apply list_lookup_singleton_Some in Hst as [_ <-]. done.
Qed.

(** ** The converter on a bounded call stack *)

Lemma call_add_operator_S (depth : nat) (op : ascii)
    (output operators : list ascii) :
  call_add_operator (S depth) op output operators
  = Ok (add_operator op output operators).
Proof. reflexivity. Qed.

Lemma call_add_concat_S (depth : nat) (regex_str : list ascii) (i : nat)
    (output operators : list ascii) :
  call_add_concat (S depth) regex_str i output operators
  = Ok (add_concat regex_str i output operators).
Proof.
  unfold call_add_concat, add_concat.
  by destruct (prev_is_operand regex_str i).
Qed.

Lemma call_add_operator_cases (depth : nat) (op : ascii)
    (output operators : list ascii) :
  call_add_operator depth op output operators
  = Ok (add_operator op output operators) \/
  call_add_operator depth op output operators = Raise RecursionError.
Proof. destruct depth; [by right | by left]. Qed.

Lemma call_add_concat_cases (depth : nat) (regex_str : list ascii) (i : nat)
    (output operators : list ascii) :
  call_add_concat depth regex_str i output operators
  = Ok (add_concat regex_str i output operators) \/
  call_add_concat depth regex_str i output operators = Raise RecursionError.
Proof.
  destruct depth; [|left; apply call_add_concat_S].
  unfold call_add_concat, add_concat.
  destruct (prev_is_operand regex_str i); [by right | by left].
Qed.

(** Whatever the budget, the bounded loop gives the result of the loop or
    raises [RecursionError]. *)
Lemma infix_loop_within_cases (fuel : nat) :
  forall (depth : nat) (regex_str : list ascii) (i : nat)
         (output operators r : list ascii),
    infix_loop fuel regex_str i output operators = Some r ->
    infix_loop_within fuel depth regex_str i output operators = Some (Ok r) \/
    infix_loop_within fuel depth regex_str i output operators
    = Some (Raise RecursionError).
Proof.
  induction fuel as [|fuel IH];
    intros depth regex_str i output operators r H; [discriminate|].
  cbn [infix_loop infix_loop_within] in *.
  destruct (regex_str !! i) as [char|]; [|injection H as <-; by left].
  destruct (in_op_precedence char).
  { destruct (call_add_operator_cases depth char output operators)
      as [-> | ->]; [|by right].
    destruct (add_operator char output operators) as [o1 p1]. by apply IH. }
  destruct (Ascii.eqb char "(").
  { destruct (call_add_concat_cases depth regex_str i output operators)
      as [-> | ->]; [|by right].
    destruct (add_concat regex_str i output operators) as [o1 p1].
    destruct (infix_loop fuel (drop (i + 1) regex_str) 0 [] [])
      as [sub|] eqn:Hsub; [|discriminate].
    destruct depth as [|depth]; [by right|].
    destruct (IH depth _ _ _ _ _ Hsub) as [-> | ->]; [|by right].
    by apply IH. }
  destruct (Ascii.eqb char ")"); [injection H as <-; by left|].
  destruct (call_add_concat_cases depth regex_str i output operators)
    as [-> | ->]; [|by right].
  destruct (add_concat regex_str i output operators) as [o1 p1]. by apply IH.
Qed.

Lemma infix_loop_within_total (fuel depth : nat) (regex_str : list ascii)
    (i : nat) (output operators : list ascii) :
  length regex_str - i < fuel ->
  is_Some (infix_loop_within fuel depth regex_str i output operators).
Proof.
  intros Hfuel.
  destruct (infix_loop_total fuel regex_str i output operators Hfuel)
    as [r Hr].
  destruct (infix_loop_within_cases fuel depth _ _ _ _ _ Hr) as [-> | ->];
    by eexists.
Qed.

Lemma count_open_drop_S (regex_str : list ascii) :
  forall (i : nat) (ch : ascii),
    regex_str !! i = Some ch ->
    count_open (drop i regex_str)
    = (if Ascii.eqb ch "(" then 1 else 0) + count_open (drop (S i) regex_str).
Proof.
  induction regex_str as [|x l IH]; intros [|i] ch H; try done.
  - cbn in H. injection H as ->. by rewrite drop_0.
  - cbn [drop]. by apply IH.
Qed.

Lemma count_open_drop_le (regex_str : list ascii) (i j : nat) :
  i <= j ->
  count_open (drop j regex_str) <= count_open (drop i regex_str).
Proof.
  induction 1 as [|j Hle IH]; [done|].
  etrans; [|exact IH].
  destruct (regex_str !! j) as [ch|] eqn:Hj.
  - rewrite (count_open_drop_S _ _ _ Hj). lia.
  - apply lookup_ge_None in Hj. by rewrite !drop_ge by lia.
Qed.

(** One free frame for each opening parenthesis still ahead, and one
    more for [add_operator], are enough for the loop. *)
Lemma infix_loop_within_enough (fuel : nat) :
  forall (depth : nat) (regex_str : list ascii) (i : nat)
         (output operators r : list ascii),
    infix_loop fuel regex_str i output operators = Some r ->
    count_open (drop i regex_str) < depth ->
    infix_loop_within fuel depth regex_str i output operators = Some (Ok r).
Proof.
  induction fuel as [|fuel IH];
    intros depth regex_str i output operators r H Hdepth; [discriminate|].
  destruct depth as [|depth]; [lia|].
  cbn [infix_loop infix_loop_within] in *.
  destruct (regex_str !! i) as [char|] eqn:Hi; [|by injection H as <-].
  pose proof (count_open_drop_S _ _ _ Hi) as Hcount.
  replace (S i) with (i + 1) in Hcount by lia.
  destruct (in_op_precedence char).
  { rewrite call_add_operator_S.
    destruct (add_operator char output operators) as [o1 p1].
    apply IH; [done|lia]. }
  destruct (Ascii.eqb char "(").
  { rewrite call_add_concat_S.
    destruct (add_concat regex_str i output operators) as [o1 p1].
    destruct (infix_loop fuel (drop (i + 1) regex_str) 0 [] [])
      as [sub|] eqn:Hsub; [|discriminate].
    rewrite (IH depth _ _ _ _ _ Hsub) by (rewrite drop_0; lia).
    apply IH; [done|].
    pose proof (count_open_drop_le regex_str (i + 1) (i + length sub + 1)).
    lia. }
  destruct (Ascii.eqb char ")"); [by injection H as <-|].
  rewrite call_add_concat_S.
  destruct (add_concat regex_str i output operators) as [o1 p1].
  apply IH; [done|lia].
Qed.

(** A list returned under one budget is returned under every larger
    one. *)
Lemma infix_loop_within_depth_mono (fuel : nat) :
  forall (depth depth' : nat) (regex_str : list ascii) (i : nat)
         (output operators r : list ascii),
    infix_loop_within fuel depth regex_str i output operators = Some (Ok r) ->
    depth <= depth' ->
    infix_loop_within fuel depth' regex_str i output operators = Some (Ok r).
Proof.
  induction fuel as [|fuel IH];
    intros depth depth' regex_str i output operators r H Hle; [discriminate|].
  cbn [infix_loop_within] in *.
  destruct (regex_str !! i) as [char|]; [|done].
  destruct (in_op_precedence char).
  { destruct depth as [|depth]; [discriminate|].
    destruct depth' as [|depth']; [lia|].
    rewrite call_add_operator_S in *.
    destruct (add_operator char output operators) as [o1 p1]. eauto. }
  destruct (Ascii.eqb char "(").
  { destruct depth as [|depth].
    { destruct (call_add_concat 0 regex_str i output operators)
        as [[o1 p1]|e]; discriminate. }
    destruct depth' as [|depth']; [lia|].
    rewrite call_add_concat_S in *.
    destruct (add_concat regex_str i output operators) as [o1 p1].
    destruct (infix_loop_within fuel depth (drop (i + 1) regex_str) 0 [] [])
      as [[sub|e]|] eqn:Hsub; try discriminate.
    rewrite (IH depth depth' _ _ _ _ _ Hsub) by lia. eauto. }
  destruct (Ascii.eqb char ")"); [done|].
  destruct depth as [|depth].
  { unfold call_add_concat in *.
    destruct (prev_is_operand regex_str i); [discriminate|]. eauto. }
  destruct depth' as [|depth']; [lia|].
  rewrite call_add_concat_S in *.
  destruct (add_concat regex_str i output operators) as [o1 p1]. eauto.
Qed.

Lemma infix_to_postfix_within_cases (depth : nat) (regex_str : string) :
  infix_to_postfix_within depth regex_str = Ok (infix_to_postfix regex_str) \/
  infix_to_postfix_within depth regex_str = Raise RecursionError.
Proof.
  destruct depth as [|depth]; [by right|].
  unfold infix_to_postfix_within, infix_to_postfix. cbn zeta.
  pose proof (infix_to_postfix_chars_spec (list_ascii_of_string regex_str)
                (S (length (list_ascii_of_string regex_str)))
                ltac:(lia)) as Hloop.
  destruct (infix_loop_within_cases _ depth _ _ _ _ _ Hloop) as [-> | ->];
    [by left | by right].
Qed.

Lemma infix_to_postfix_within_enough (depth : nat) (regex_str : string) :
  count_open (list_ascii_of_string regex_str) + 2 <= depth ->
  infix_to_postfix_within depth regex_str = Ok (infix_to_postfix regex_str).
Proof.
  intros Hdepth. destruct depth as [|depth]; [lia|].
  unfold infix_to_postfix_within, infix_to_postfix. cbn zeta.
  rewrite (infix_loop_within_enough _ depth _ _ _ _
             (infix_to_postfix_chars (list_ascii_of_string regex_str)));
    [done| |rewrite drop_0; lia].
  apply infix_to_postfix_chars_spec. lia.
Qed.

Lemma infix_to_postfix_within_mono (depth depth' : nat) (regex_str : string)
    (r : list ascii) :
  depth <= depth' ->
  infix_to_postfix_within depth regex_str = Ok r ->
  infix_to_postfix_within depth' regex_str = Ok r.
Proof.
  intros Hle. destruct depth as [|depth]; [discriminate|].
  destruct depth' as [|depth']; [lia|].
  unfold infix_to_postfix_within. cbn zeta.
  destruct (infix_loop_within _ depth _ 0 [] []) as [[r'|e]|] eqn:Hloop.
  - intros [= ->].
    by rewrite (infix_loop_within_depth_mono _ depth depth' _ _ _ _ _ Hloop)
      by lia.
  - discriminate.
  - destruct (infix_loop_within_total
                (S (length (list_ascii_of_string regex_str))) depth
                (list_ascii_of_string regex_str) 0 [] []) as [x Hx]; [lia|].
    congruence.
Qed.

Lemma open_parens_S (n : nat) (regex_str : string) :
  list_ascii_of_string (open_parens (S n) regex_str)
  = "("%char :: list_ascii_of_string (open_parens n regex_str).
Proof. reflexivity. Qed.

Lemma length_open_parens (n : nat) (regex_str : string) :
  n <= length (list_ascii_of_string (open_parens n regex_str)).
Proof.
  induction n as [|n IH]; [lia|]. rewrite open_parens_S. cbn [length]. lia.
Qed.

(** Each opening parenthesis at the head of the pattern is one more
    nested call. *)
Lemma infix_loop_within_open_parens (depth : nat) :
  forall (fuel n : nat) (regex_str : string),
    depth < n -> depth < fuel ->
    infix_loop_within fuel depth
      (list_ascii_of_string (open_parens n regex_str)) 0 [] []
    = Some (Raise RecursionError).
Proof.
  induction depth as [|depth IH]; intros fuel n regex_str Hn Hfuel;
    (destruct fuel as [|fuel]; [lia|]); (destruct n as [|n]; [lia|]);
    rewrite open_parens_S; cbn [infix_loop_within lookup list_lookup];
    change (in_op_precedence "(") with false;
    change (Ascii.eqb "(" "(") with true; cbv iota;
    unfold call_add_concat; cbn [prev_is_operand].
  - done.
  - cbn [Nat.add drop]. rewrite ?drop_0. rewrite IH by lia. done.
Qed.

Lemma infix_to_postfix_within_open_parens (n depth : nat)
    (regex_str : string) :
  depth <= n ->
  infix_to_postfix_within depth (open_parens n regex_str)
  = Raise RecursionError.
Proof.
  intros Hle. destruct depth as [|depth]; [done|].
  unfold infix_to_postfix_within. cbn zeta.
  rewrite infix_loop_within_open_parens; [done|lia|].
  pose proof (length_open_parens n regex_str). lia.
Qed.

(** With room for the converter, [match_str_within] is [match_str]. *)
Lemma match_str_within_enough (frames depth : nat)
    (ord : list ref -> list ref) (n0 : nat) (input_str regex_str : string) :
  count_open (list_ascii_of_string regex_str) + 2 <= frames ->
  match_str_within frames depth ord n0 input_str regex_str
  = match_str depth ord n0 input_str regex_str.
Proof.
  intros Hframes. unfold match_str_within, match_str, parse_regex.
  by rewrite infix_to_postfix_within_enough.
Qed.

Lemma match_str_within_exceptions (frames depth : nat)
    (ord : list ref -> list ref) (n0 : nat) (input_str regex_str : string)
    (e : exn) :
  match_str_within frames depth ord n0 input_str regex_str = Raise e ->
  e = RecursionError \/
  (infix_to_postfix_within frames regex_str = Ok (infix_to_postfix regex_str) /\
   parse_regex regex_str (init_world n0) = Raise e /\
   (e = IndexError \/ e = Exception)).
Proof.
  unfold match_str_within, parse_regex.
  destruct (infix_to_postfix_within_cases frames regex_str) as [-> | ->];
    [|intros [= <-]; by left].
  destruct (parse_postfix (infix_to_postfix regex_str) (init_world n0))
    as [[regex_graph w]|e'] eqn:Hparse.
  - intros Hrun. left. by eapply run_only_recursion.
  - intros [= <-]. right. split; [done|]. split; [done|].
    by eapply parse_postfix_never_recursion.
Qed.

(** * Further properties: statements *)

(** X1: [infix_to_postfix] returns within a nesting budget.  When the
    call is made with at least two more free frames than the pattern has
    opening parentheses, it returns its token list, and its loop ends
    within the length of the pattern plus one.  Under any budget the call
    returns that same list or raises [RecursionError], and a list
    returned under one budget is returned under every larger one. *)
Theorem infix_to_postfix_returns_within_budget (regex_str : string)
    (depth : nat) :
  count_open (list_ascii_of_string regex_str) + 2 <= depth ->
  infix_to_postfix_within depth regex_str = Ok (infix_to_postfix regex_str) /\
  (forall fuel,
      length (list_ascii_of_string regex_str) < fuel ->
      infix_loop_within fuel (depth - 1)
        (list_ascii_of_string regex_str) 0 [] []
      = Some (Ok (infix_to_postfix regex_str))) /\
  (forall depth',
      infix_to_postfix_within depth' regex_str
      = Ok (infix_to_postfix regex_str) \/
      infix_to_postfix_within depth' regex_str = Raise RecursionError) /\
  (forall depth1 depth2 r,
      depth1 <= depth2 ->
      infix_to_postfix_within depth1 regex_str = Ok r ->
      infix_to_postfix_within depth2 regex_str = Ok r).
Proof.
  intros Hdepth. split; [by apply infix_to_postfix_within_enough|].
  split; [|split].
  - intros fuel Hfuel. apply infix_loop_within_enough.
    + by apply infix_to_postfix_chars_spec.
    + rewrite drop_0. lia.
  - intros depth'. apply infix_to_postfix_within_cases.
  - intros depth1 depth2 r. apply infix_to_postfix_within_mono.
Qed.

Lemma infix_to_postfix_returns_within_budget_witness :
  count_open (list_ascii_of_string "a(bb)+|cde") + 2 <= 3 /\
  infix_to_postfix_within 3 "a(bb)+|cde" = Ok (infix_to_postfix "a(bb)+|cde").
Proof.
  assert (H : count_open (list_ascii_of_string "a(bb)+|cde") + 2 <= 3)
    by (vm_compute; lia).
  split; [exact H|].
  exact (proj1 (infix_to_postfix_returns_within_budget "a(bb)+|cde" 3 H)).
Defined.

(** X2: [add_operator] moves to the output exactly the operators on top
    of the stack whose precedence is strictly higher than that of [op],
    in pop order, and pushes [op] on what is left; no token is lost. *)
Theorem add_operator_pops_higher_precedence (op : ascii) (p : nat)
    (output operators : list ascii) :
  op_precedence op = Some p ->
  exists popped rest,
    operators = popped ++ rest /\
    add_operator op output operators = (output ++ popped, op :: rest) /\
    Forall (fun o => higher_precedence p o = true) popped /\
    (forall o, head rest = Some o -> higher_precedence p o = false).
Proof. intros Hop. by apply add_operator_pops. Qed.

Lemma add_operator_pops_higher_precedence_witness :
  op_precedence "|" = Some 0 /\
  exists popped rest,
    ["*"; "."; "|"]%char = popped ++ rest /\
    add_operator "|" ["a"; "b"]%char ["*"; "."; "|"]%char
    = (["a"; "b"]%char ++ popped, "|"%char :: rest) /\
    Forall (fun o => higher_precedence 0 o = true) popped /\
    (forall o, head rest = Some o -> higher_precedence 0 o = false).
Proof.
  split; [reflexivity|].
  exact (add_operator_pops_higher_precedence "|" 0 ["a"; "b"]%char
           ["*"; "."; "|"]%char eq_refl).
Defined.

(** X3: every token [infix_to_postfix] emits is a concatenation
    operator or a character of the pattern, and never a parenthesis. *)
Theorem infix_to_postfix_tokens (regex_str : string) :
  Forall (fun ch =>
            (ch = "."%char \/ In ch (list_ascii_of_string regex_str)) /\
            is_paren ch = false)
         (infix_to_postfix regex_str).
Proof.
  pose proof (infix_to_postfix_chars_spec (list_ascii_of_string regex_str)
                (S (length (list_ascii_of_string regex_str)))
                (Nat.lt_succ_diag_r _)) as Hspec.
  exact (infix_loop_tokens _ _ _ _ _ _ (Forall_nil_2 _) (Forall_nil_2 _)
           Hspec).
Qed.

(** X4: on a pattern without parentheses [infix_to_postfix] keeps the
    operands in their order, and its result is the pattern with some
    concatenation operators added, rearranged. *)
Theorem infix_to_postfix_rearranges (regex_str : string) :
  Forall (fun ch => is_paren ch = false) (list_ascii_of_string regex_str) ->
  List.filter operand (infix_to_postfix regex_str)
  = List.filter operand (list_ascii_of_string regex_str) /\
  exists k,
    infix_to_postfix regex_str
    ≡ₚ list_ascii_of_string regex_str ++ replicate k "."%char.
Proof.
  intros Hnp.
  pose proof (infix_to_postfix_chars_spec (list_ascii_of_string regex_str)
                (S (length (list_ascii_of_string regex_str)))
                (Nat.lt_succ_diag_r _)) as Hspec.
  destruct (infix_loop_paren_free _ _ Hnp _ _ _ _ (Forall_nil_2 _) Hspec)
    as [Hord [k Hperm]].
  split; [exact Hord|]. exists k.
  unfold infix_to_postfix. rewrite Hperm. cbn [app]. rewrite drop_0.
  apply Permutation_app_comm.
Qed.

Lemma infix_to_postfix_rearranges_witness :
  Forall (fun ch => is_paren ch = false) (list_ascii_of_string "ab|c*d") /\
  List.filter operand (infix_to_postfix "ab|c*d")
  = List.filter operand (list_ascii_of_string "ab|c*d") /\
  exists k,
    infix_to_postfix "ab|c*d"
    ≡ₚ list_ascii_of_string "ab|c*d" ++ replicate k "."%char.
Proof.
  assert (H : Forall (fun ch => is_paren ch = false)
                     (list_ascii_of_string "ab|c*d"))
    by (repeat constructor).
  split; [exact H|]. exact (infix_to_postfix_rearranges "ab|c*d" H).
Defined.

(** X5: [set_out] keeps the number of objects, and changes an object
    only if it is one of the output slots of the fragment; such an
    object keeps [c] and [_state_id] and gets the one-element [out]
    list holding the start of the next fragment. *)
Theorem set_out_rewrites_the_slots (self next_frag : RegexGraphFragment)
    (h : list RegexGraphState) (k : ref) :
  length (set_out_store self next_frag h) = length h /\
  set_out_store self next_frag h !! k
  = (fun st => if decide (k ∈ out_states self)
               then mkState (c st) [start next_frag] (_state_id st)
               else st) <$> h !! k.
Proof.
  split; [apply set_out_store_length | apply set_out_store_lookup].
Qed.

(** X6: after a successful [parse_regex] started with the counter at
    [n0], the object allocated as number [k] has [_state_id = n0 + k],
    the counter has advanced by the number of objects, and no two
    objects share an id. *)
Theorem parse_regex_numbers_states (regex_str : string) (n0 : nat)
    (regex_graph : ref) (w : world) :
  parse_regex regex_str (init_world n0) = Ok (regex_graph, w) ->
  next_state_id w = n0 + length (store w) /\
  (forall k st, store w !! k = Some st -> _state_id st = n0 + k) /\
  distinct_ids (store w).
Proof.
  intros Hparse. destruct (parse_regex_ids_from _ _ _ _ Hparse) as [H1 H2].
  split_and!; [done|done|]. by eapply parse_regex_distinct_ids.
Qed.

Lemma parse_regex_numbers_states_witness :
  exists regex_graph w,
    parse_regex "a|b" (init_world 7) = Ok (regex_graph, w) /\
    next_state_id w = 7 + length (store w) /\
    (forall k st, store w !! k = Some st -> _state_id st = 7 + k) /\
    distinct_ids (store w).
Proof.
  eexists _, _. split; [lazy; reflexivity|].
  exact (parse_regex_numbers_states "a|b" 7 _ _ eq_refl).
Defined.

(** X7: the graph [parse_regex] returns is closed: its start state and
    every edge of every object point to objects of the store. *)
Theorem parse_regex_graph_closed (regex_str : string) (n0 : nat)
    (regex_graph : ref) (w : world) :
  parse_regex regex_str (init_world n0) = Ok (regex_graph, w) ->
  closed_store (store w) /\ regex_graph < length (store w).
Proof. apply parse_regex_closed. Qed.

Lemma parse_regex_graph_closed_witness :
  exists regex_graph w,
    parse_regex "ab|c" (init_world 0) = Ok (regex_graph, w) /\
    closed_store (store w) /\ regex_graph < length (store w).
Proof.
  eexists _, _. split; [lazy; reflexivity|].
  exact (parse_regex_graph_closed "ab|c" 0 _ _ eq_refl).
Defined.

(** X8: given the postfix string, whether the builder of [parse_regex]
    succeeds is decided by the heights of the fragment stack along that
    string: it raises [IndexError] when an operator finds too few
    fragments, [Exception] when the loop ends with a number of fragments
    other than one, and returns a start state otherwise. *)
Theorem builder_outcome (postfix_str : list ascii) (w : world) :
  match stack_height postfix_str 0 with
  | None => parse_postfix postfix_str w = Raise IndexError
  | Some 1 => exists regex_graph w',
                parse_postfix postfix_str w = Ok (regex_graph, w')
  | Some _ => parse_postfix postfix_str w = Raise Exception
  end.
Proof. apply parse_postfix_outcome. Qed.

(** X9: a compiled graph consists of the objects made for the tokens,
    none of which is a match state, followed by the match state, which
    is allocated last and has no edge; the start state is not the match
    state; every object has at most two edges, and at most one unless
    it is a split. *)
Theorem parse_regex_graph_shape (regex_str : string) (n0 : nat)
    (regex_graph : ref) (w : world) :
  parse_regex regex_str (init_world n0) = Ok (regex_graph, w) ->
  exists h,
    store w = h ++ [mkState _MATCH [] (n0 + length h)] /\
    Forall built_state h /\
    regex_graph < length h.
Proof.
  intros Hparse.
  destruct (parse_regex_shape _ _ _ _ Hparse) as (h & H1 & H2 & H3 & _).
  by exists h.
Qed.

Lemma parse_regex_graph_shape_witness :
  exists regex_graph w,
    parse_regex "a?|bc" (init_world 3) = Ok (regex_graph, w) /\
    exists h,
      store w = h ++ [mkState _MATCH [] (3 + length h)] /\
      Forall built_state h /\
      regex_graph < length h.
Proof.
  eexists _, _. split; [lazy; reflexivity|].
  exact (parse_regex_graph_shape "a?|bc" 3 _ _ eq_refl).
Defined.

(** X10: the state sets of the simulator never hold a split state:
    neither the set [add_state] fills from the empty set nor the set
    [step] returns. *)
Theorem state_sets_hold_no_split (h : list RegexGraphState) (depth : nat)
    (ord : list ref -> list ref) (state : ref) (states r0 r1 : list ref)
    (char : ascii) :
  add_state depth h state [] = Ok r0 ->
  step depth ord h states char = Ok r1 ->
  Forall (fun s => String.eqb (get_c h s) _SPLIT = false) r0 /\
  Forall (fun s => String.eqb (get_c h s) _SPLIT = false) r1.
Proof.
  intros H0 H1. split.
  - eapply add_state_no_split; [|exact H0]. apply Forall_nil_2.
  - by eapply step_no_split.
Qed.

Lemma state_sets_hold_no_split_witness :
  exists r0 r1,
    add_state 5 star_store 1 [] = Ok r0 /\
    step 5 insertion_order star_store [0] "a" = Ok r1 /\
    Forall (fun s => String.eqb (get_c star_store s) _SPLIT = false) r0 /\
    Forall (fun s => String.eqb (get_c star_store s) _SPLIT = false) r1.
Proof.
  eexists _, _. split; [lazy; reflexivity|]. split; [reflexivity|].
  exact (state_sets_hold_no_split star_store 5 insertion_order 1 [0] _ _ "a"
           eq_refl eq_refl).
Defined.

(** X11: when [match_str] returns, it returns true exactly when the
    compiled graph, read as an automaton, accepts the whole input: some
    path from the start state consumes the input character by character
    (through split states without consuming) and ends in the match
    state. *)
Theorem match_str_decides_acceptance (depth : nat)
    (ord : list ref -> list ref) (n0 : nat) (input_str regex_str : string)
    (regex_graph : ref) (w : world) (b : bool) :
  iteration_order ord ->
  parse_regex regex_str (init_world n0) = Ok (regex_graph, w) ->
  match_str depth ord n0 input_str regex_str = Ok b ->
  (b = true <->
   nfa_accepts (store w) regex_graph (list_ascii_of_string input_str)).
Proof.
  intros Hord Hparse. unfold match_str. rewrite Hparse.
  apply run_accepts; [|done]. by eapply parse_regex_distinct_ids.
Qed.

Lemma match_str_decides_acceptance_witness :
  iteration_order insertion_order /\
  exists regex_graph w,
    parse_regex "ab|c" (init_world 0) = Ok (regex_graph, w) /\
    match_str 1000 insertion_order 0 "c" "ab|c" = Ok true /\
    (true = true <->
     nfa_accepts (store w) regex_graph (list_ascii_of_string "c")).
Proof.
  assert (H1 : iteration_order insertion_order) by (intros l; reflexivity).
  split; [exact H1|]. eexists _, _. split; [lazy; reflexivity|].
  split; [reflexivity|].
  exact (match_str_decides_acceptance 1000 insertion_order 0 "c" "ab|c"
           _ _ true H1 eq_refl eq_refl).
Defined.

(** X12: on a compiled graph without a cycle of split states (a rank
    decreases along every edge out of a split state) [match_str] returns
    a boolean for every input as soon as the call-stack budget exceeds
    every rank. *)
Theorem match_str_returns_without_split_cycle (depth : nat)
    (ord : list ref -> list ref) (n0 : nat) (input_str regex_str : string)
    (regex_graph : ref) (w : world) (rank : ref -> nat) :
  parse_regex regex_str (init_world n0) = Ok (regex_graph, w) ->
  split_edges_decrease (store w) rank ->
  (forall state, rank state < depth) ->
  exists b, match_str depth ord n0 input_str regex_str = Ok b.
Proof.
  intros Hparse Hrank Hdepth. unfold match_str. rewrite Hparse.
  by eapply run_returns.
Qed.

Lemma match_str_returns_without_split_cycle_witness :
  parse_regex "a*" (init_world 0) = Ok (1, mkWorld 3 star_store) /\
  split_edges_decrease star_store (fun r => 3 - r) /\
  (forall state, 3 - state < 4) /\
  exists b, match_str 4 insertion_order 0 "aa" "a*" = Ok b.
Proof.
  assert (H3 : forall state, 3 - state < 4) by (intros state; lia).
  split; [reflexivity|]. split; [exact star_store_ranked|].
  split; [exact H3|].
  exact (match_str_returns_without_split_cycle 4 insertion_order 0 "aa" "a*"
           1 (mkWorld 3 star_store) (fun r => 3 - r) eq_refl
           star_store_ranked H3).
Defined.

(** X13: a boolean returned by [match_str] does not depend on the
    call-stack budget: every larger budget gives the same boolean. *)
Theorem match_str_budget_monotone (depth depth' : nat)
    (ord : list ref -> list ref) (n0 : nat) (input_str regex_str : string)
    (b : bool) :
  depth <= depth' ->
  match_str depth ord n0 input_str regex_str = Ok b ->
  match_str depth' ord n0 input_str regex_str = Ok b.
Proof. apply match_str_depth_mono. Qed.

Lemma match_str_budget_monotone_witness :
  2 <= 50 /\
  match_str 2 insertion_order 0 "b" "a|b" = Ok true /\
  match_str 50 insertion_order 0 "b" "a|b" = Ok true.
Proof.
  assert (H : 2 <= 50) by lia.
  split; [exact H|]. split; [reflexivity|].
  exact (match_str_budget_monotone 2 50 insertion_order 0 "b" "a|b" true
           H eq_refl).
Defined.

(** X14: an input that [match_str] accepts consists of characters of
    the pattern only, none of them an operator character or a
    parenthesis. *)
Theorem match_str_accepts_pattern_characters_only (depth : nat)
    (ord : list ref -> list ref) (n0 : nat) (input_str regex_str : string)
    (char : ascii) :
  iteration_order ord ->
  match_str depth ord n0 input_str regex_str = Ok true ->
  In char (list_ascii_of_string input_str) ->
  In char (list_ascii_of_string regex_str) /\ is_operator_char char = false.
Proof.
  intros Hord Hmatch Hin.
  destruct (parse_regex regex_str (init_world n0)) as [[regex_graph w]|e]
    eqn:Hparse.
  2:{ unfold match_str in Hmatch. by rewrite Hparse in Hmatch. }
  pose proof Hmatch as Hb. unfold match_str in Hb. rewrite Hparse in Hb.
  apply (run_accepts _ (parse_regex_distinct_ids _ _ _ _ Hparse) _ Hord) in Hb.
  destruct (proj1 Hb eq_refl) as (t & _ & Hacc).
  destruct (accepts_literals _ _ _ Hacc _ Hin) as [k Hk].
  by eapply parse_regex_literals.
Qed.

Lemma match_str_accepts_pattern_characters_only_witness :
  iteration_order insertion_order /\
  match_str 1000 insertion_order 0 "Ext" "Ext" = Ok true /\
  In "x"%char (list_ascii_of_string "Ext") /\
  In "x"%char (list_ascii_of_string "Ext") /\
  is_operator_char "x" = false.
Proof.
  assert (H1 : iteration_order insertion_order) by (intros l; reflexivity).
  assert (H3 : In "x"%char (list_ascii_of_string "Ext"))
    by (simpl; auto).
  split; [exact H1|]. split; [reflexivity|]. split; [exact H3|].
  exact (match_str_accepts_pattern_characters_only 1000 insertion_order 0
           "Ext" "Ext" "x" H1 eq_refl H3).
Defined.

(** X15: the exceptions of [match_str], with the call stack of the
    converter bounded as well.  An exception other than [RecursionError]
    is the [IndexError] or the [Exception] of the builder: the converter
    has returned, and the builder raises it on the postfix form.  The
    converter and the simulation raise nothing but [RecursionError]. *)
Theorem match_str_exceptions (frames depth : nat)
    (ord : list ref -> list ref) (n0 : nat) (input_str regex_str : string)
    (e : exn) :
  match_str_within frames depth ord n0 input_str regex_str = Raise e ->
  e = RecursionError \/
  (infix_to_postfix_within frames regex_str = Ok (infix_to_postfix regex_str) /\
   parse_postfix (infix_to_postfix regex_str) (init_world n0) = Raise e /\
   (e = IndexError \/ e = Exception)).
Proof. apply match_str_within_exceptions. Qed.

Lemma match_str_exceptions_witness :
  match_str_within 3 5 insertion_order 0 "a" "a|" = Raise IndexError /\
  (IndexError = RecursionError \/
   (infix_to_postfix_within 3 "a|" = Ok (infix_to_postfix "a|") /\
    parse_postfix (infix_to_postfix "a|") (init_world 0) = Raise IndexError /\
    (IndexError = IndexError \/ IndexError = Exception))).
Proof.
  assert (H : match_str_within 3 5 insertion_order 0 "a" "a|"
              = Raise IndexError) by (vm_compute; reflexivity).
  split; [exact H|].
  exact (match_str_exceptions 3 5 insertion_order 0 "a" "a|" IndexError H).
Defined.

(** X17: deep nesting exhausts the call stack of the converter.  On a
    pattern that starts with [n] opening parentheses, a call of
    [infix_to_postfix] made with at most [n] free frames raises
    [RecursionError], whatever follows the parentheses. *)
Theorem infix_to_postfix_deep_nesting_raises (n depth : nat)
    (regex_str : string) :
  depth <= n ->
  infix_to_postfix_within depth (open_parens n regex_str)
  = Raise RecursionError.
Proof. apply infix_to_postfix_within_open_parens. Qed.

Lemma infix_to_postfix_deep_nesting_raises_witness :
  3 <= 3 /\
  infix_to_postfix_within 3 "(((a" = Raise RecursionError /\
  infix_to_postfix_within 4 "(((a" = Ok (infix_to_postfix "(((a").
Proof.
  assert (H : 3 <= 3) by lia.
  split; [exact H|]. split; [|vm_compute; reflexivity].
  exact (infix_to_postfix_deep_nesting_raises 3 3 "a" H).
Defined.

(** X16: a pattern made of non-empty words without operator characters,
    separated by the alternation operator, compiles, and [match_str]
    returns true exactly for the inputs equal to one of the words, for
    every counter value, iteration order and call-stack budget above the
    length of the pattern. *)
Theorem match_str_alternation (depth n0 : nat) (ord : list ref -> list ref)
    (input_str : string) (ws : list (list ascii)) :
  iteration_order ord ->
  literal_words ws ->
  length (join_words ws) < depth ->
  infix_to_postfix (string_of_list_ascii (join_words ws)) = alt_postfix ws /\
  exists b,
    match_str depth ord n0 input_str (string_of_list_ascii (join_words ws))
    = Ok b /\
    (b = true <-> In (list_ascii_of_string input_str) ws).
Proof.
  intros Hord Hws Hdepth.
  assert (Hpost : infix_to_postfix (string_of_list_ascii (join_words ws))
                  = alt_postfix ws).
  { unfold infix_to_postfix. rewrite list_ascii_of_string_of_list_ascii.
    by apply infix_to_postfix_alternation. }
  split; [exact Hpost|].
  assert (Hparse : parse_regex (string_of_list_ascii (join_words ws))
                     (init_world n0)
                   = Ok (alt_start 0 ws,
                         mkWorld (S (n0 + alt_size ws))
                           (alt_cells [alt_size ws] 0 n0 ws
                            ++ [mkState _MATCH [] (n0 + alt_size ws)]))).
  { unfold parse_regex. rewrite Hpost. by apply parse_postfix_alternation. }
  unfold match_str. rewrite Hparse. cbn [store].
  destruct (run_returns _ _ depth ord (alt_start 0 ws)
              (list_ascii_of_string input_str)
              (alternation_store_ranked ws n0 Hws)) as [b Hb].
  { intros state. rewrite alt_size_join_words. lia. }
  exists b. split; [exact Hb|].
  rewrite (run_accepts _ (parse_regex_distinct_ids _ _ _ _ Hparse) _ Hord
             _ _ _ _ Hb).
  apply (alt_accepts ws Hws _ [] [mkState _MATCH [] (n0 + alt_size ws)]
           0 n0 (alt_size ws)); [done|done|].
  cbn [store]. unfold get_c.
  rewrite lookup_app_r by (by rewrite length_alt_cells).
  by rewrite length_alt_cells, Nat.sub_diag.
Qed.

Lemma match_str_alternation_witness :
  iteration_order insertion_order /\
  literal_words sample_words /\
  length (join_words sample_words) < 1000 /\
  infix_to_postfix "ab|c|de" = alt_postfix sample_words /\
  exists b,
    match_str 1000 insertion_order 0 "de" "ab|c|de" = Ok b /\
    (b = true <-> In (list_ascii_of_string "de") sample_words).
Proof.
  assert (H1 : iteration_order insertion_order) by (intros l; reflexivity).
  assert (H2 : literal_words sample_words)
    by (split; [discriminate | repeat constructor; discriminate]).
  assert (H3 : length (join_words sample_words) < 1000) by (simpl; lia).
  split; [exact H1|]. split; [exact H2|]. split; [exact H3|].
  exact (match_str_alternation 1000 0 insertion_order "de" sample_words
           H1 H2 H3).
Defined.
